(** * Proto: the sentiment pipeline of data-loader.js and rnn.js

    A shallow embedding of the tokenizer, the dataset preparer and the model
    lifecycle of the repository, and the properties of its specification.

    Conventions of the embedding.
    - JavaScript numbers that the code only uses as integers (ids, lengths,
      counts, the 32-bit words of the generator) are [Z]; probabilities and
      metrics are rationals [Q] inside [num], which adds NaN and the two
      infinities; the product [N * testSplit] is rounded to the nearest
      double ([fmul]), the rounding of the metrics is not modelled.
    - Strings are [string]s whose characters are the code units 0..255
      (Latin-1); on them [toLowerCase], [\s] and [trim] are written out below.
    - Arrays that the code mutates in place live in a [heap] and are passed
      by reference ([loc]); arrays that are only built and returned are lists.
    - Plain objects used as dictionaries are [gmap]s of their own properties;
      reading one goes through [js_get], which also sees what every object
      literal inherits from [Object.prototype].
    - The TensorFlow.js calls are outside the repository: [Tf.tensors] says
      which tensors the library builds, a [TfBackend] which architectures
      and files it accepts and what [predict] and [evaluate] return; each
      of these calls may throw, and the error then leaves the function
      that made the call. *)

From Stdlib Require Import ZArith QArith Qround Ascii String List Bool Lia.
From Stdlib Require Import Sorting.Sorted Sorting.Permutation.
From stdpp Require Import base gmap strings list fin_maps sorting.

Local Open Scope Z_scope.

(* ===================================================================== *)
(** ** JavaScript values and operators *)
(* ===================================================================== *)

Module JS.

(** The values that reach the modelled code. [VBuiltin k] is the member
    [k] of [Object.prototype] (a function, or the prototype itself for
    [__proto__]). A hole of a sparse array reads as [VUndef]. *)
Inductive val : Type :=
| VUndef
| VNull
| VBool (b : bool)
| VNum (z : Z)
| VNaN
| VStr (s : string)
| VBuiltin (k : string).

(** ToBoolean: what [!v] and [if (v)] test. *)
Definition truthy (v : val) : bool :=
  match v with
  | VUndef | VNull | VNaN => false
  | VBool b => b
  | VNum z => negb (z =? 0)
  | VStr s => negb (String.eqb s "")
  | VBuiltin _ => true
  end.

(** A parameter default [x = d] applies when the argument is [undefined]. *)
Definition default_arg (d v : val) : val :=
  match v with VUndef => d | _ => v end.

(** [v ?? d] *)
Definition nullish_or (v d : val) : val :=
  match v with VUndef | VNull => d | _ => v end.

(** The own and inherited string-keyed members of [Object.prototype]. *)
Definition Object_prototype_keys : list string :=
  [ "constructor"; "hasOwnProperty"; "isPrototypeOf";
    "propertyIsEnumerable"; "toLocaleString"; "toString"; "valueOf";
    "__defineGetter__"; "__defineSetter__"; "__lookupGetter__";
    "__lookupSetter__"; "__proto__" ]%string.

(** [o[k]] for an object literal [o] whose own properties are the numbers
    of [own]: an own property first, then the prototype chain. *)
Definition js_get (own : gmap string Z) (k : string) : val :=
  match own !! k with
  | Some z => VNum z
  | None => if existsb (String.eqb k) Object_prototype_keys
            then VBuiltin k else VUndef
  end.

(** *** 32-bit integer operators *)

Definition two32 : Z := 4294967296.

(** ToUint32 and ToInt32 *)
Definition to_uint32 (z : Z) : Z := z mod two32.
Definition to_int32 (z : Z) : Z :=
  let u := z mod two32 in if u <? 2147483648 then u else u - two32.

(** [a >>> k], [a ^ b], [a | b], [Math.imul(a, b)] *)
Definition ushr (a k : Z) : Z := Z.shiftr (to_uint32 a) (k mod 32).
Definition bxor (a b : Z) : Z := to_int32 (Z.lxor (to_int32 a) (to_int32 b)).
Definition bor (a b : Z) : Z := to_int32 (Z.lor (to_int32 a) (to_int32 b)).
Definition imul (a b : Z) : Z := to_int32 (to_int32 a * to_int32 b).

(** *** Arrays *)

(** [a[i]]: out of range reads [undefined]. *)
Definition aget (a : list val) (i : nat) : val := default VUndef (a !! i).

(** [a[i] = v]: in range it overwrites; past the end the array grows, the
    skipped slots reading [undefined]. *)
Definition aset (a : list val) (i : nat) (v : val) : list val :=
  if (i <? length a)%nat then <[i:=v]> a
  else a ++ replicate (i - length a) VUndef ++ [v].

(** [s.slice(0, e)] *)
Definition slice0 {A} (s : list A) (e : Z) : list A :=
  let n := Z.of_nat (length s) in
  let k := if e <? 0 then Z.max (n + e) 0 else Z.min e n in
  take (Z.to_nat k) s.

(** [s.slice(b)] for [b >= 0] *)
Definition slice_from {A} (s : list A) (b : Z) : list A :=
  let n := Z.of_nat (length s) in
  let k := if b <? 0 then Z.max (n + b) 0 else Z.min b n in
  drop (Z.to_nat k) s.

(** *** Strings over the code units 0..255 *)

Definition code (c : ascii) : N := N_of_ascii c.

(** [\s] and the characters [trim] strips: TAB, LF, VT, FF, CR, SPACE and
    NO-BREAK SPACE are the ones below 256. *)
Definition is_space (c : ascii) : bool :=
  let n := code c in
  (((9 <=? n) && (n <=? 13)) || (n =? 32) || (n =? 160))%N.

(** [toLowerCase] on one code unit: A-Z, and the Latin-1 capitals
    192..222 without the multiplication sign 215. *)
Definition lower_char (c : ascii) : ascii :=
  let n := code c in
  if (((65 <=? n) && (n <=? 90))
      || ((192 <=? n) && (n <=? 222) && negb (n =? 215)))%N
  then ascii_of_N (n + 32) else c.

Fixpoint toLowerCase (s : string) : string :=
  match s with
  | EmptyString => EmptyString
  | String c s' => String (lower_char c) (toLowerCase s')
  end.

(** [s.replace(/[class]+/g, " ")]: every maximal run of characters of the
    class becomes one space; [in_run] tells that the previous character
    was of the class. *)
Fixpoint replace_runs (cls : ascii -> bool) (in_run : bool) (s : string)
  : string :=
  match s with
  | EmptyString => EmptyString
  | String c s' =>
      if cls c
      then (if in_run then replace_runs cls true s'
            else String " " (replace_runs cls true s'))
      else String c (replace_runs cls false s')
  end.

Fixpoint trimStart (s : string) : string :=
  match s with
  | String c s' => if is_space c then trimStart s' else s
  | EmptyString => EmptyString
  end.

Fixpoint trimEnd (s : string) : string :=
  match s with
  | EmptyString => EmptyString
  | String c s' =>
      match trimEnd s' with
      | EmptyString => if is_space c then EmptyString
                       else String c EmptyString
      | r => String c r
      end
  end.

Definition trim (s : string) : string := trimEnd (trimStart s).

(** [s.split(sep)] for a one-character separator: never the empty list. *)
Fixpoint split (sep : ascii) (s : string) : list string :=
  match s with
  | EmptyString => [EmptyString]
  | String c s' =>
      if Ascii.eqb c sep then EmptyString :: split sep s'
      else match split sep s' with
           | w :: ws => String c w :: ws
           | [] => [String c EmptyString]
           end
  end.

(** [ws.join(" ")] *)
Definition join (ws : list string) : string := String.concat " " ws.

(** *** Doubles *)

(** The nearest integer, ties to the even one. *)
Definition round_half_even (q : Q) : Z :=
  let f := Qfloor q in
  match (q - inject_Z f ?= 1 # 2)%Q with
  | Lt => f
  | Gt => f + 1
  | Eq => if Z.even f then f else f + 1
  end.

(** For [q > 0], the [e] with [2^e <= q < 2^(e+1)]. *)
Definition binade (q : Q) : Z :=
  let e := Z.log2 (Qnum q) - Z.log2 (Zpos (Qden q)) in
  if Qle_bool (Qpower 2 e) q then e else e - 1.

(** The double nearest to [q] (53 significant bits, ties to even), for the
    magnitudes that neither overflow nor are subnormal. *)
Definition to_double (q : Q) : Q :=
  match (q ?= 0)%Q with
  | Eq => 0%Q
  | Gt => let ulp := Qpower 2 (binade q - 52) in
          (inject_Z (round_half_even (q / ulp)) * ulp)%Q
  | Lt => let ulp := Qpower 2 (binade (- q) - 52) in
          (- (inject_Z (round_half_even (- q / ulp)) * ulp))%Q
  end.

(** [a * b] on numbers: the operands are doubles (a literal reads as the
    double nearest to it), and so is the product. *)
Definition fmul (a b : Q) : Q := to_double (to_double a * to_double b).

End JS.

(* ===================================================================== *)
(** ** TensorFlow.js: building tensors *)
(* ===================================================================== *)

Module Tf.
Import JS.

(** Whether [tf.tensor2d(values, [rows, cols], "int32")] and
    [tf.tensor1d(values, "int32")] return a tensor; they throw
    otherwise. *)
Record tensors : Type := {
  tensor2d : list (list val) -> Z -> Z -> bool;
  tensor1d : list val -> bool
}.

Definition is_number (v : val) : bool :=
  match v with VNum _ => true | _ => false end.

(** A library that builds a tensor exactly from numbers laid out as the
    shape says. *)
Definition strict : tensors :=
  {| tensor2d := fun values rows cols =>
       (0 <=? cols) && (Z.of_nat (length values) =? rows)
       && forallb (fun row => (Z.of_nat (length row) =? cols)
                              && forallb is_number row) values;
     tensor1d := forallb is_number |}.

End Tf.

(* ===================================================================== *)
(** ** data-loader.js: the tokenizer *)
(* ===================================================================== *)

Module Tokenizer.
Import JS.

Definition PAD : Z := 0.
Definition OOV : Z := 1.

(** The state of a [Tokenizer] instance. [vocabSize] is [None] until
    [fitOnTexts] sets it. *)
Record t : Type := mk {
  numWords : Z;
  removeStopwords : bool;
  wordIndex : gmap string Z;
  indexWord : gmap Z string;
  _fitted : bool;
  vocabSize : option Z
}.

Definition _stop : list string :=
  [ "a";"an";"the";"and";"or";"if";"in";"on";"for";"to";"from";
    "is";"are";"was";"were";"be";"been";"being";"of";"with";"it";
    "this";"that";"these";"those";"at";"by";"as";"but";"what";"which";
    "who";"whom";"into";"out";"up";"down";"over";"under";"again";"further";
    "then";"once";"here";"there";"when";"where";"why";"how";"all";"any";
    "both";"each";"few";"more";"most";"other";"some";"such";"no";"nor";
    "not";"only";"own";"same";"so";"than";"too";"very";"can";"will";"just";
    "don";"should";"now";"i";"me";"my";"myself";"we";"our";"ours";
    "ourselves";
    "you";"your";"yours";"yourself";"yourselves";"he";"him";"his";"himself";
    "she";"her";"hers";"herself";"itself";"they";"them";"their";"theirs";
    "themselves";"do";"did";"does";"doing";"have";"has";"had";"having"
  ]%string.

(** [new Tokenizer({ numWords, removeStopwords })] *)
Definition constructor (numWords : Z) (removeStopwords : bool) : t :=
  {| numWords := numWords;
     removeStopwords := removeStopwords;
     wordIndex := {[ "<PAD>"%string := 0; "<OOV>"%string := 1 ]};
     indexWord := {[ 0 := "<PAD>"%string; 1 := "<OOV>"%string ]};
     _fitted := false;
     vocabSize := None |}.

(** The class [[a-z0-9'\s]]; the first [replace] of [_normalize] works on
    its complement. *)
Definition kept (c : ascii) : bool :=
  let n := code c in
  (((97 <=? n) && (n <=? 122)) || ((48 <=? n) && (n <=? 57))
   || (n =? 39))%N || is_space c.

Definition nonempty (w : string) : bool := negb (String.eqb w "").

Definition is_stop (w : string) : bool := existsb (String.eqb w) _stop.

Definition _normalize (tk : t) (text : val) : string :=
  match text with
  | VStr s =>
      if String.eqb s "" then ""%string
      else
        let lowered := toLowerCase s in
        let stripped :=
          trim (replace_runs is_space false
                  (replace_runs (fun c => negb (kept c)) false lowered)) in
        if negb (removeStopwords tk) then stripped
        else join (List.filter (fun w => nonempty w && negb (is_stop w))
                               (split " " stripped))
  | _ => ""%string
  end.

(** The [Map] of frequencies, in insertion order. [bump] is
    [freq.set(w, (freq.get(w) || 0) + 1)]: a present key keeps its place,
    a new key goes last. *)
Definition freq_map : Type := list (string * Z).

Fixpoint bump (w : string) (freq : freq_map) : freq_map :=
  match freq with
  | [] => [(w, 1)]
  | (k, c) :: rest =>
      if String.eqb k w then (k, c + 1) :: rest
      else (k, c) :: bump w rest
  end.

(** The inner loop of [fitOnTexts] over the words of one text. *)
Definition count_words (ws : list string) (freq : freq_map) : freq_map :=
  fold_left (fun f w => if nonempty w then bump w f else f) ws freq.

(** The outer loop of [fitOnTexts]. *)
Definition count_texts (tk : t) (texts : list val) (freq : freq_map)
  : freq_map :=
  fold_left
    (fun f text =>
       let norm := _normalize tk text in
       if String.eqb norm "" then f
       else count_words (split " " norm) f)
    texts freq.

(** [entries.sort((a, b) => b[1] - a[1])]. The language requires the
    sort to be stable, so with this comparator the result is the one of
    any stable sort by descending count; it is written as an insertion
    sort. *)
Fixpoint insert_desc (x : string * Z) (l : freq_map) : freq_map :=
  match l with
  | [] => [x]
  | y :: l' => if snd y <=? snd x then x :: y :: l'
               else y :: insert_desc x l'
  end.

Definition sort_desc (l : freq_map) : freq_map := foldr insert_desc [] l.

(** The tokens that receive an id, best first. *)
Definition top_words (tk : t) (texts : list val) : list string :=
  let sorted := sort_desc (count_texts tk texts []) in
  let limit := Z.max 0 (numWords tk - 2) in
  map fst (slice0 sorted limit).

(** The assignment loop: [wordIndex[w] = idx; indexWord[idx] = w; idx++]. *)
Fixpoint assign (top : list string) (idx : Z)
  (wi : gmap string Z) (iw : gmap Z string)
  : gmap string Z * gmap Z string :=
  match top with
  | [] => (wi, iw)
  | w :: rest => assign rest (idx + 1) (<[w := idx]> wi) (<[idx := w]> iw)
  end.

Definition fitOnTexts (tk : t) (texts : list val) : t :=
  let '(wi, iw) := assign (top_words tk texts) 2
                     (wordIndex tk) (indexWord tk) in
  {| numWords := numWords tk;
     removeStopwords := removeStopwords tk;
     wordIndex := wi;
     indexWord := iw;
     _fitted := true;
     vocabSize := Some (Z.of_nat (size wi)) |}.

Inductive error : Type :=
| NotFitted.   (* "Tokenizer not fitted. Call fitOnTexts first." *)

(** One text of [textsToSequences]. *)
Definition encode_text (tk : t) (text : val) : list val :=
  let norm := _normalize tk text in
  if String.eqb norm "" then []
  else map (fun w => nullish_or (js_get (wordIndex tk) w) (VNum OOV))
           (split " " norm).

Definition textsToSequences (tk : t) (texts : list val)
  : error + list (list val) :=
  if negb (_fitted tk) then inl NotFitted
  else inr (map (encode_text tk) texts).

(** One row of [padSequences]. *)
Definition pad_row (seqLen : Z) (s : list val) : list val :=
  if Z.of_nat (length s) >=? seqLen then slice0 s seqLen
  else s ++ replicate (Z.to_nat (seqLen - Z.of_nat (length s))) (VNum PAD).

Definition padSequences (sequences : list (list val)) (seqLen : Z)
  : list (list val) :=
  map (pad_row seqLen) sequences.

End Tokenizer.

(* ===================================================================== *)
(** ** data-loader.js: the seeded shuffle and [prepareTensors] *)
(* ===================================================================== *)

Module Loader.
Import JS.

(** Arrays passed by reference. *)
Definition loc : Type := nat.
Abbreviation heap := (gmap nat (list val)).

(** One call of the closure returned by [mulberry32(s)]: the new value of
    the captured [s], and the 32-bit word [w] of the result [w / 2^32].
    [s] itself is never truncated by the code: it is a number that grows
    by the constant at each call (exactly, as long as it stays below 2^53),
    and only the bit operators reduce it to 32 bits. *)
Definition mulberry32 (s : Z) : Z * Z :=
  let s := s + 1831565813 (* 0x6d2b79f5 *) in
  let t := s in
  let t := imul (bxor t (ushr t 15)) (bor t 1) in
  let t := bxor t (t + imul (bxor t (ushr t 7)) (bor t 61)) in
  (s, ushr (bxor t (ushr t 14)) 0).

(** [Math.floor(rand() * (i + 1))] for [rand() = w / 2^32]. The product is
    computed exactly here; the double product of the code is the same
    whenever [w * (i + 1) < 2^53], that is for every array of up to 2^21
    elements. *)
Definition draw (w : Z) (i : nat) : nat :=
  Z.to_nat (w * Z.of_nat (i + 1) / two32).

(** [[a[i], a[j]] = [a[j], a[i]]] on a list, and on the array at [a]. *)
Definition swap_list (xs : list val) (i j : nat) : list val :=
  aset (aset xs i (aget xs j)) j (aget xs i).

Definition swap (a : loc) (i j : nat) (h : heap) : heap :=
  match h !! a with
  | Some xs => <[a := swap_list xs i j]> h
  | None => h
  end.

(** The loop [for (i = a.length - 1; i > 0; i--)], entered at [i] with the
    generator at [s]. *)
Fixpoint shuffle_loop (a b : loc) (i : nat) (s : Z) (h : heap) : heap :=
  match i with
  | O => h
  | S i' =>
      let '(s', w) := mulberry32 s in
      let j := draw w i in
      shuffle_loop a b i' s' (swap b i j (swap a i j h))
  end.

(** [shuffleInPlace(a, b, seed)] on the arrays at [a] and [b]. *)
Definition shuffleInPlace (a b : loc) (seed : Z) (h : heap) : heap :=
  match h !! a with
  | Some xs => shuffle_loop a b (length xs - 1) seed h
  | None => h
  end.

Definition default_seed : Z := 1337.

Inductive error : Type :=
| EmptyDataset      (* "Empty dataset after parsing." *)
| LengthMismatch    (* "Texts and labels length mismatch." *)
| TokenizerError (e : Tokenizer.error)
| LibraryError.     (* raised inside tf.tensor2d or tf.tensor1d *)

Record tokenizer_meta : Type := {
  meta_wordIndex : gmap string Z;
  meta_indexWord : gmap Z string;
  meta_vocabSize : option Z;
  meta_seqLen : Z;
  meta_removeStopwords : bool;
  meta_maxVocab : Z
}.

(** What [prepareTensors] returns; a tensor is the nested list it was
    built from. *)
Record prepared : Type := {
  X_train : list (list val);
  y_train : list val;
  X_test : list (list val);
  y_test : list val;
  tokenizerMeta : tokenizer_meta;
  tokenizer : Tokenizer.t;
  nTrain : Z;
  nTest : Z;
  N : Z
}.

(** [prepareTensors({ texts, labels, seqLen, maxVocab, removeStopwords,
    testSplit })] on the arrays at [texts] and [labels]. The four tensors
    are built last, in the order of the code; when the library throws
    there, the arrays are already shuffled. *)
Definition prepareTensors (tf : Tf.tensors) (texts labels : loc)
  (seqLen maxVocab : Z) (removeStopwords : bool) (testSplit : Q) (h : heap)
  : (error + prepared) * heap :=
  match h !! texts, h !! labels with
  | Some ts, Some ls =>
      if (length ts =? 0)%nat || (length ls =? 0)%nat
      then (inl EmptyDataset, h)
      else if negb (length ts =? length ls)%nat
      then (inl LengthMismatch, h)
      else
        let h' := shuffleInPlace texts labels default_seed h in
        let ts' := default [] (h' !! texts) in
        let ls' := default [] (h' !! labels) in
        let tk := Tokenizer.fitOnTexts
                    (Tokenizer.constructor maxVocab removeStopwords) ts' in
        match Tokenizer.textsToSequences tk ts' with
        | inl e => (inl (TokenizerError e), h')
        | inr seqs =>
            let padded := Tokenizer.padSequences seqs seqLen in
            let n := Z.of_nat (length padded) in
            let nTest := Z.max 1 (Qfloor (fmul (inject_Z n) testSplit)) in
            let nTrain := n - nTest in
            let xTrain := slice0 padded nTrain in
            let xTest := slice_from padded nTrain in
            let yTrain := slice0 ls' nTrain in
            let yTest := slice_from ls' nTrain in
            if negb (Tf.tensor2d tf xTrain (Z.of_nat (length xTrain)) seqLen)
            then (inl LibraryError, h')
            else if negb (Tf.tensor1d tf yTrain)
            then (inl LibraryError, h')
            else if negb (Tf.tensor2d tf xTest (Z.of_nat (length xTest))
                            seqLen)
            then (inl LibraryError, h')
            else if negb (Tf.tensor1d tf yTest)
            then (inl LibraryError, h')
            else
            (inr {| X_train := xTrain;
                    y_train := yTrain;
                    X_test := xTest;
                    y_test := yTest;
                    tokenizerMeta :=
                      {| meta_wordIndex := Tokenizer.wordIndex tk;
                         meta_indexWord := Tokenizer.indexWord tk;
                         meta_vocabSize := Tokenizer.vocabSize tk;
                         meta_seqLen := seqLen;
                         meta_removeStopwords := Tokenizer.removeStopwords tk;
                         meta_maxVocab := maxVocab |};
                    tokenizer := tk;
                    nTrain := nTrain;
                    nTest := nTest;
                    N := n |}, h')
        end
  | _, _ => (inl EmptyDataset, h)
  end.

End Loader.

(* ===================================================================== *)
(** ** rnn.js: the model lifecycle, evaluation and prediction *)
(* ===================================================================== *)

Module Rnn.
Import JS.

(** *** Numbers that may be NaN *)

Inductive num : Type :=
| NaN
| Inf (positive : bool)
| Fin (q : Q).

Definition of_Z (z : Z) : num := Fin (inject_Z z).

Definition nadd (a b : num) : num :=
  match a, b with
  | NaN, _ | _, NaN => NaN
  | Fin x, Fin y => Fin (x + y)
  | Inf s, Inf s' => if Bool.eqb s s' then Inf s else NaN
  | Inf s, Fin _ | Fin _, Inf s => Inf s
  end.

Definition nmul (a b : num) : num :=
  match a, b with
  | NaN, _ | _, NaN => NaN
  | Fin x, Fin y => Fin (x * y)
  | Inf s, Inf s' => Inf (Bool.eqb s s')
  | Inf s, Fin y | Fin y, Inf s =>
      if Qeq_bool y 0 then NaN else Inf (Bool.eqb s (Qle_bool 0 y))
  end.

Definition ndiv (a b : num) : num :=
  match a, b with
  | NaN, _ | _, NaN => NaN
  | Fin x, Fin y =>
      if Qeq_bool y 0
      then (if Qeq_bool x 0 then NaN else Inf (Qle_bool 0 x))
      else Fin (x / y)
  | Fin _, Inf _ => Fin 0
  | Inf s, Fin y => Inf (Bool.eqb s (Qle_bool 0 y))
  | Inf _, Inf _ => NaN
  end.

(** [a === 0] and [a >= b] *)
Definition nzero (a : num) : bool :=
  match a with Fin q => Qeq_bool q 0 | _ => false end.

Definition nge (a b : num) : bool :=
  match a, b with
  | NaN, _ | _, NaN => false
  | Fin x, Fin y => Qle_bool y x
  | Inf s, Inf s' => s || negb s'
  | Inf s, Fin _ => s
  | Fin _, Inf s => negb s
  end.

(** *** Architectures and the library *)

Inductive layer : Type :=
| Embedding (inputDim outputDim inputLength : val)
| GRU (units : val) (dropout : Q)
| Bidirectional (inner : layer)      (* mergeMode: "concat" *)
| Dense (units : Z).                 (* activation: "sigmoid" *)

Definition architecture : Type := list layer.

(** The parsed content of a model file, as [loadModel] reads it. *)
Record model_file : Type := {
  modelTopology : option architecture;
  weightSpecs : option (list Z);
  weightData : option (list Z);
  file_tokenizerMeta : option Loader.tokenizer_meta
}.

(** The library: which tensors it builds, whether building and compiling
    an architecture succeeds, whether [tf.loadLayersModel] succeeds, the
    data of the tensor that [predict] returns for a batch of rows, and
    the loss and accuracy of [evaluate]; [None] where the call throws. *)
Record TfBackend : Type := {
  tf_tensors : Tf.tensors;
  tf_accepts : architecture -> bool;
  tf_loads : model_file -> bool;
  tf_predict : architecture -> list (list val) -> option (list num);
  tf_evaluate : architecture -> list (list val) -> list Z
                -> option (num * num)
}.

(** *** The module state *)

Record model : Type := { arch : architecture; disposed : bool }.

(** Every model allocated so far, by handle; the module variable
    [currentModel]; and the forward passes run so far, latest last. *)
Record state : Type := {
  models : list model;
  currentModel : option nat;
  forward_log : list (nat * list (list val))
}.

Definition initial : state :=
  {| models := []; currentModel := None; forward_log := [] |}.

Definition dispose (m : nat) (ms : list model) : list model :=
  alter (fun x => {| arch := arch x; disposed := true |}) m ms.

(** The handles of the models that hold resources. *)
Definition live (st : state) : list nat :=
  List.filter (fun i => match models st !! i with
                        | Some m => negb (disposed m)
                        | None => false
                        end)
              (seq 0 (length (models st))).

Inductive error : Type :=
| Required          (* "vocabSize and seqLen are required." *)
| NotReady          (* "Model not created or loaded." *)
| LibraryError      (* raised inside a call of the library *)
| LoadFailed        (* "Failed to load model from file: ..." *)
| TokenizerError (e : Tokenizer.error).

Record createModel_args : Type := {
  vocabSize : val;
  seqLen : val;
  embedDim : val;
  gruUnits : val;
  dropout : option Q;
  bidirectional : val
}.

(** The layers [createModel] adds, in order. *)
Definition layers_of (a : createModel_args) : architecture :=
  let gruLayer := GRU (default_arg (VNum 128) (gruUnits a))
                      (default (1 # 5) (dropout a)) in
  [ Embedding (vocabSize a) (default_arg (VNum 64) (embedDim a)) (seqLen a);
    if truthy (default_arg (VBool false) (bidirectional a))
    then Bidirectional gruLayer else gruLayer;
    Dense 1 ].

(** [if (currentModel) { try { currentModel.dispose(); } catch {} ;
     currentModel = null; }] *)
Definition release_current (st : state) : state :=
  match currentModel st with
  | Some m => {| models := dispose m (models st);
                 currentModel := None;
                 forward_log := forward_log st |}
  | None => st
  end.

Definition install (a : architecture) (st : state) : nat * state :=
  let id := length (models st) in
  (id, {| models := models st ++ [ {| arch := a; disposed := false |} ];
          currentModel := Some id;
          forward_log := forward_log st |}).

Section WithLibrary.
Variable tf : TfBackend.

(** [createModel({ vocabSize, seqLen, embedDim, gruUnits, dropout,
    bidirectional })]: the guard first; then the model held is released;
    then the library builds and compiles the layers, and a failure there
    surfaces after the release. Returns the handle of the new model. *)
Definition createModel (a : createModel_args) (st : state)
  : (error + nat) * state :=
  if negb (truthy (vocabSize a)) || negb (truthy (seqLen a))
  then (inl Required, st)
  else
    let st1 := release_current st in
    if tf_accepts tf (layers_of a)
    then let '(id, st2) := install (layers_of a) st1 in (inr id, st2)
    else (inl LibraryError, st1).

(** [disposeModel()] *)
Definition disposeModel (st : state) : state := release_current st.

(** [loadModel(file)]: every failure inside its [try] is rethrown as one
    error and leaves the state as it was. *)
Definition loadModel (file : option model_file) (st : state)
  : (error + nat * Loader.tokenizer_meta) * state :=
  match file with
  | None => (inl LoadFailed, st)
  | Some f =>
      match modelTopology f, weightSpecs f, weightData f,
            file_tokenizerMeta f with
      | Some topo, Some _, Some _, Some meta =>
          if tf_loads tf f
          then let '(id, st') := install topo st in
               (inr (id, meta), st')
          else (inl LoadFailed, st)
      | _, _, _, _ => (inl LoadFailed, st)
      end
  end.

(** *** [evaluateModel] *)

Record confusion : Type := { tp : Z; tn : Z; fp : Z; fn : Z }.

(** One turn of the counting loop; [yp] is [yPred[i]], absent past the
    end of [yPred]. *)
Definition tally (cm : confusion) (yt : Z) (yp : option Z) : confusion :=
  if (yt =? 1) && bool_decide (yp = Some 1)
  then {| tp := tp cm + 1; tn := tn cm; fp := fp cm; fn := fn cm |}
  else if (yt =? 0) && bool_decide (yp = Some 0)
  then {| tp := tp cm; tn := tn cm + 1; fp := fp cm; fn := fn cm |}
  else if (yt =? 0) && bool_decide (yp = Some 1)
  then {| tp := tp cm; tn := tn cm; fp := fp cm + 1; fn := fn cm |}
  else if (yt =? 1) && bool_decide (yp = Some 0)
  then {| tp := tp cm; tn := tn cm; fp := fp cm; fn := fn cm + 1 |}
  else cm.

Fixpoint count_loop (yTrue yPred : list Z) (cm : confusion) : confusion :=
  match yTrue with
  | [] => cm
  | yt :: yTrue' => count_loop yTrue' (tail yPred) (tally cm yt (head yPred))
  end.

Record evaluation : Type := {
  loss : num;
  accuracy : num;
  yTrue : list Z;
  yPred : list Z;
  yProb : list num;
  cm : confusion;
  precision : num;
  recall : num;
  f1 : num
}.

Definition threshold_pred (threshold p : num) : Z :=
  if nge p threshold then 1 else 0.

(** The metrics of [evaluateModel] from the probabilities on. *)
Definition score (la : num * num) (yTrue : list Z) (yProb : list num)
  (threshold : num) : evaluation :=
  let yPred := map (threshold_pred threshold) yProb in
  let cm := count_loop yTrue yPred
              {| tp := 0; tn := 0; fp := 0; fn := 0 |} in
  let precision := if tp cm + fp cm =? 0 then of_Z 0
                   else ndiv (of_Z (tp cm)) (of_Z (tp cm + fp cm)) in
  let recall := if tp cm + fn cm =? 0 then of_Z 0
                else ndiv (of_Z (tp cm)) (of_Z (tp cm + fn cm)) in
  let f1 := if nzero (nadd precision recall) then of_Z 0
            else ndiv (nmul (nmul (of_Z 2) precision) recall)
                      (nadd precision recall) in
  {| loss := fst la; accuracy := snd la;
     yTrue := yTrue; yPred := yPred; yProb := yProb; cm := cm;
     precision := precision; recall := recall; f1 := f1 |}.

(** [evaluateModel({ X_test, y_test, threshold })]; [y_test] is an int32
    tensor, so its data are integers. [evaluate] is called first, then
    [predict]; an error of either leaves the function. *)
Definition evaluateModel (X_test : list (list val)) (y_test : list Z)
  (threshold : num) (st : state) : (error + evaluation) * state :=
  match currentModel st with
  | None => (inl NotReady, st)
  | Some m =>
      let a := default [] (arch <$> models st !! m) in
      match tf_evaluate tf a X_test y_test with
      | None => (inl LibraryError, st)
      | Some la =>
          match tf_predict tf a X_test with
          | None => (inl LibraryError, st)
          | Some probs =>
              (inr (score la y_test probs threshold),
               {| models := models st; currentModel := currentModel st;
                  forward_log := forward_log st ++ [(m, X_test)] |})
          end
      end
  end.

(** *** [predictText] *)

(** [{ prob, pred }]; [prob] is [None] when it is [undefined], the first
    element of an output without data. *)
Record prediction : Type := { prob : option num; pred : val }.

(** [p >= threshold ? 1 : 0] for the [p] read from the output. *)
Definition decision (threshold : num) (p : option num) : Z :=
  match p with
  | Some p => threshold_pred threshold p
  | None => 0
  end.

(** [predictText({ text, tokenizerMeta, tokenizer, threshold })];
    [meta_seqLen] is [tokenizerMeta.seqLen]. The tensor is built from the
    padded row with the shape [[1, seqLen]], then [predict] runs; an
    error of either call leaves the function. *)
Definition predictText (text : val) (meta_seqLen : Z)
  (tokenizer : Tokenizer.t) (threshold : num) (st : state)
  : (error + prediction) * state :=
  match currentModel st with
  | None => (inl NotReady, st)
  | Some m =>
      if negb (truthy text)
      then (inr {| prob := Some NaN; pred := VNull |}, st)
      else
        match Tokenizer.textsToSequences tokenizer [text] with
        | inl e => (inl (TokenizerError e), st)
        | inr seq =>
            let padded := Tokenizer.padSequences seq meta_seqLen in
            if negb (Tf.tensor2d (tf_tensors tf) padded 1 meta_seqLen)
            then (inl LibraryError, st)
            else
              let a := default [] (arch <$> models st !! m) in
              match tf_predict tf a padded with
              | None => (inl LibraryError, st)
              | Some probs =>
                  let p := head probs in
                  (inr {| prob := p; pred := VNum (decision threshold p) |},
                   {| models := models st; currentModel := currentModel st;
                      forward_log := forward_log st ++ [(m, padded)] |})
              end
        end
  end.

End WithLibrary.

(** The rows have the width the first layer was built for. *)
Definition fits (a : architecture) (rows : list (list val)) : bool :=
  match a with
  | Embedding _ _ (VNum n) :: _ =>
      forallb (fun row => Z.of_nat (length row) =? n) rows
  | _ => false
  end.

(** A library that accepts every architecture and every file, builds the
    tensors of [Tf.strict], and runs a model on rows of its input width
    only; its models answer 3/4 for a row that starts with an odd id and
    1/4 for any other. *)
Definition permissive : TfBackend :=
  {| tf_tensors := Tf.strict;
     tf_accepts := fun _ => true;
     tf_loads := fun _ => true;
     tf_predict := fun a rows =>
       if fits a rows
       then Some (map (fun row => match row with
                                  | VNum z :: _ =>
                                      if Z.odd z then Fin (3 # 4)
                                      else Fin (1 # 4)
                                  | _ => Fin (1 # 4)
                                  end) rows)
       else None;
     tf_evaluate := fun a rows _ =>
       if fits a rows then Some (Fin 0, Fin 1) else None |}.

End Rnn.

(* ===================================================================== *)
(** ** Notions used to state the properties *)
(* ===================================================================== *)

Module Perm.
Import JS.

(** The seeded shuffle run on positions alone: the loop of
    [Loader.shuffle_loop] on a list of indices. *)
Definition swap_idx (p : list nat) (i j : nat) : list nat :=
  <[j := p !!! i]> (<[i := p !!! j]> p).

Fixpoint index_loop (i : nat) (s : Z) (p : list nat) : list nat :=
  match i with
  | O => p
  | S i' =>
      let '(s', w) := Loader.mulberry32 s in
      index_loop i' s' (swap_idx p i (Loader.draw w i))
  end.

(** The positions the shuffle of an array of length [n] reads from: slot
    [k] of the result holds the element that was at [shuffle_indices seed
    n !! k]. *)
Definition shuffle_indices (seed : Z) (n : nat) : list nat :=
  index_loop (n - 1) seed (seq 0 n).

(** [xs] rearranged along [p]. *)
Definition pick (xs : list val) (p : list nat) : list val :=
  aget xs <$> p.

End Perm.

Module Vocab.
Import JS Tokenizer.

(** The tokens of one text: the non-empty words of its normal form. *)
Definition tokens_of (tk : t) (text : val) : list string :=
  List.filter nonempty (split " " (_normalize tk text)).

(** The tokens of a corpus, in reading order. *)
Definition corpus_tokens (tk : t) (texts : list val) : list string :=
  flat_map (tokens_of tk) texts.

(** How often [w] occurs in the corpus. *)
Definition occurrences (w : string) (toks : list string) : Z :=
  Z.of_nat (length (List.filter (String.eqb w) toks)).

(** Where [w] is first seen (the length of [toks] if nowhere). *)
Fixpoint first_seen (w : string) (toks : list string) : nat :=
  match toks with
  | [] => 0
  | x :: rest => if String.eqb x w then 0 else S (first_seen w rest)
  end.

(** [w1] ranks before [w2]: it is more frequent, or as frequent and seen
    first. *)
Definition ranks_before (toks : list string) (w1 w2 : string) : Prop :=
  occurrences w2 toks < occurrences w1 toks \/
  (occurrences w1 toks = occurrences w2 toks /\
   (first_seen w1 toks < first_seen w2 toks)%nat).

(** The number of distinct tokens of the corpus. *)
Definition distinct_count (toks : list string) : Z :=
  Z.of_nat (length (remove_dups toks)).

(** The count a frequency map holds for [w]: [freq.get(w) || 0]. *)
Fixpoint get (w : string) (freq : freq_map) : Z :=
  match freq with
  | [] => 0
  | (k, c) :: rest => if String.eqb k w then c else get w rest
  end.

(** The order a stable sort by descending count produces from entries
    in the order [T]: a greater count first, and among equal counts the
    order [T]. *)
Definition desc_stable (T : relation (string * Z)) (x y : string * Z)
  : Prop :=
  snd y < snd x \/ (snd x = snd y /\ T x y).

(** The frequency map after the words [toks], from [freq] on. *)
Definition tallied (toks : list string) (freq : freq_map) : freq_map :=
  fold_left (fun f w => bump w f) toks freq.

(** Every character of [s] satisfies [p]. *)
Fixpoint all_chars (p : ascii -> bool) (s : string) : bool :=
  match s with
  | EmptyString => true
  | String c s' => p c && all_chars p s'
  end.

End Vocab.

Module Lifecycle.
Import Rnn.

(** The model at handle [i] holds resources. *)
Definition is_live (st : state) (i : nat) : Prop :=
  exists m, models st !! i = Some m /\ disposed m = false.

(** The single active model invariant: whatever is live is the current
    model. *)
Definition single_live (st : state) : Prop :=
  forall i, is_live st i -> currentModel st = Some i.

(** The recurrent layer is wrapped to run in both directions. *)
Definition is_bidirectional (a : architecture) : bool :=
  existsb (fun l => match l with Bidirectional _ => true | _ => false end) a.

End Lifecycle.

Module Metrics.

(** How many positions hold the label [t] together with the prediction
    [q]; a position without a prediction counts for nothing. *)
Definition pairs (t q : Z) (yTrue yPred : list Z) : Z :=
  Z.of_nat (length (List.filter
                      (fun x : Z * Z => (fst x =? t) && (snd x =? q))
                      (zip yTrue yPred))).

End Metrics.

(** Concrete inputs used in the examples. *)
Module Demo.
Import JS.

Definition texts : list val :=
  VStr <$> [ "Great food"; "Terrible service"; "great FOOD!!";
             "not bad"; "awful" ]%string.
Definition labels : list val := VNum <$> [1; 0; 1; 1; 0].

(** The two arrays at the references 0 and 1. *)
Definition heap0 : gmap nat (list val) :=
  {[ 0%nat := texts; 1%nat := labels ]}.

(** A tokenizer fitted on [texts]. *)
Definition tk : Tokenizer.t :=
  Tokenizer.fitOnTexts (Tokenizer.constructor 100 false) texts.

(** [createModel({ vocabSize: 10, seqLen: 5 })] *)
Definition args0 : Rnn.createModel_args :=
  {| Rnn.vocabSize := VNum 10; Rnn.seqLen := VNum 5;
     Rnn.embedDim := VUndef; Rnn.gruUnits := VUndef;
     Rnn.dropout := None; Rnn.bidirectional := VUndef |}.

(** [createModel({ vocabSize: -5, seqLen: 10 })] *)
Definition args_negative : Rnn.createModel_args :=
  {| Rnn.vocabSize := VNum (-5); Rnn.seqLen := VNum 10;
     Rnn.embedDim := VUndef; Rnn.gruUnits := VUndef;
     Rnn.dropout := None; Rnn.bidirectional := VUndef |}.

(** A well-formed model file. *)
Definition file0 : Rnn.model_file :=
  {| Rnn.modelTopology :=
       Some [ Rnn.Embedding (VNum 10) (VNum 64) (VNum 5);
              Rnn.GRU (VNum 128) (1 # 5); Rnn.Dense 1 ];
     Rnn.weightSpecs := Some [];
     Rnn.weightData := Some [];
     Rnn.file_tokenizerMeta :=
       Some {| Loader.meta_wordIndex := Tokenizer.wordIndex tk;
               Loader.meta_indexWord := Tokenizer.indexWord tk;
               Loader.meta_vocabSize := Tokenizer.vocabSize tk;
               Loader.meta_seqLen := 5;
               Loader.meta_removeStopwords := false;
               Loader.meta_maxVocab := 100 |} |}.

(** The state after [createModel(args0)] in a fresh page. *)
Definition st_created : Rnn.state :=
  snd (Rnn.createModel Rnn.permissive args0 Rnn.initial).

End Demo.

(* ===================================================================== *)
(** ** data-loader.js: [parseCSVFile] *)
(* ===================================================================== *)

Module Csv.
Import JS.

(** One row of [res.data]. With [header: true] and no dynamic typing a row
    maps a column name to the string of its cell; the code reads these six
    columns, and an absent column reads [undefined] ([None]). *)
Record row : Type := {
  review : option string;
  Review : option string;
  text : option string;
  Text : option string;
  sentiment : option string;
  Sentiment : option string
}.

(** [a ?? b ?? ... ?? d] *)
Fixpoint coalesce (cands : list (option string)) (d : string) : string :=
  match cands with
  | [] => d
  | Some s :: _ => s
  | None :: rest => coalesce rest d
  end.

(** The review text of a row, and its sentiment after
    [.toString().toLowerCase().trim()]. *)
Definition review_of (r : row) : string :=
  coalesce [review r; Review r; text r; Text r] "".

Definition sentiment_of (r : row) : string :=
  trim (toLowerCase (coalesce [sentiment r; Sentiment r] "")).

(** One turn of the loop over the rows, on the two arrays built so far. *)
Definition push_row (acc : list val * list val) (r : row)
  : list val * list val :=
  if String.eqb (review_of r) "" then acc
  else if negb (String.eqb (sentiment_of r) "positive")
          && negb (String.eqb (sentiment_of r) "negative") then acc
  else (acc.1 ++ [VStr (review_of r)],
        acc.2 ++ [VNum (if String.eqb (sentiment_of r) "positive"
                        then 1 else 0)]).

(** [parseCSVFile(file)] from the parsed rows on: the [complete] callback,
    which resolves to [{ texts, labels }]. *)
Definition parseCSVFile (rows : list row) : list val * list val :=
  fold_left push_row rows ([], []).

End Csv.

(* ===================================================================== *)
(** ** rnn.js: [saveModel], and sequences of calls *)
(* ===================================================================== *)

Module Persist.
Import JS Rnn.

(** What [currentModel.save(handler)] hands to the handler; the weight
    buffer as its bytes. *)
Record artifacts : Type := {
  art_modelTopology : option architecture;
  art_weightSpecs : option (list Z);
  art_weightData : list Z
}.

Inductive error : Type :=
| NoModelToSave     (* "No model to save." *)
| MetaRequired      (* "Tokenizer metadata is required for saving." *)
| SaveFailed.       (* "Failed to save model: ..." *)

(** [saveModel(tokenizerMeta, filename)]: the object it returns, which is
    also the content of the file offered for download (the download itself
    is not modelled). [tf_save] is the library's [save]: [None] when it
    throws or never calls the handler. *)
Definition saveModel (tf_save : architecture -> option artifacts)
  (tokenizerMeta : option Loader.tokenizer_meta) (st : state)
  : error + model_file :=
  match currentModel st with
  | None => inl NoModelToSave
  | Some m =>
      match tokenizerMeta with
      | None => inl MetaRequired
      | Some meta =>
          match tf_save (default [] (arch <$> models st !! m)) with
          | None => inl SaveFailed
          | Some art =>
              inr {| modelTopology := art_modelTopology art;
                     weightSpecs := art_weightSpecs art;
                     weightData := Some (art_weightData art);
                     file_tokenizerMeta := Some meta |}
          end
      end
  end.

(** A call of one of the exported functions that touch [currentModel]. *)
Inductive call : Type :=
| CreateModel (a : createModel_args)
| DisposeModel
| LoadModel (file : option model_file)
| PredictText (text : val) (seqLen : Z) (tk : Tokenizer.t) (threshold : num)
| EvaluateModel (X_test : list (list val)) (y_test : list Z)
    (threshold : num).

Definition is_load (c : call) : bool :=
  match c with LoadModel _ => true | _ => false end.

(** The state one call leaves, whether it returns or throws. *)
Definition step (tf : TfBackend) (st : state) (c : call) : state :=
  match c with
  | CreateModel a => snd (createModel tf a st)
  | DisposeModel => disposeModel st
  | LoadModel file => snd (loadModel tf file st)
  | PredictText text seqLen tk threshold =>
      snd (predictText tf text seqLen tk threshold st)
  | EvaluateModel X_test y_test threshold =>
      snd (evaluateModel tf X_test y_test threshold st)
  end.

Definition run (tf : TfBackend) (cs : list call) (st : state) : state :=
  fold_left (step tf) cs st.

End Persist.

(* ===================================================================== *)
(** ** app.js: the tokenizer rebuilt after [loadModel], the predict button *)
(* ===================================================================== *)

Module App.
Import JS.

(** The object the load handler builds from [result.tokenizerMeta]. *)
Record loaded_tokenizer : Type := {
  lt_wordIndex : gmap string Z;
  lt_indexWord : gmap Z string;
  lt_vocabSize : option Z;
  lt_removeStopwords : bool;
  lt_seqLen : Z       (* result.tokenizerMeta.seqLen, captured by padSequences *)
}.

Definition rebuild (meta : Loader.tokenizer_meta) : loaded_tokenizer :=
  {| lt_wordIndex := Loader.meta_wordIndex meta;
     lt_indexWord := Loader.meta_indexWord meta;
     lt_vocabSize := Loader.meta_vocabSize meta;
     lt_removeStopwords := Loader.meta_removeStopwords meta;
     lt_seqLen := Loader.meta_seqLen meta |}.

(** The stopword set written out again inside the rebuilt [_normalize]. *)
Definition stopwords : list string :=
  [ "a";"an";"the";"and";"or";"if";"in";"on";"for";"to";"from";
    "is";"are";"was";"were";"be";"been";"being";"of";"with";"it";
    "this";"that";"these";"those";"at";"by";"as";"but";"what";"which";
    "who";"whom";"into";"out";"up";"down";"over";"under";"again";"further";
    "then";"once";"here";"there";"when";"where";"why";"how";"all";"any";
    "both";"each";"few";"more";"most";"other";"some";"such";"no";"nor";
    "not";"only";"own";"same";"so";"than";"too";"very";"can";"will";"just";
    "don";"should";"now";"i";"me";"my";"myself";"we";"our";"ours";
    "ourselves";
    "you";"your";"yours";"yourself";"yourselves";"he";"him";"his";"himself";
    "she";"her";"hers";"herself";"itself";"they";"them";"their";"theirs";
    "themselves";"do";"did";"does";"doing";"have";"has";"had";"having"
  ]%string.

(** The class [[a-z0-9'\s]] of the rebuilt [_normalize]. *)
Definition in_class (c : ascii) : bool :=
  let n := code c in
  (((97 <=? n) && (n <=? 122)) || ((48 <=? n) && (n <=? 57))
   || (n =? 39))%N || is_space c.

Definition _normalize (lt : loaded_tokenizer) (text : val) : string :=
  match text with
  | VStr s =>
      if String.eqb s "" then ""%string
      else
        let lowered := toLowerCase s in
        let stripped :=
          trim (replace_runs is_space false
                  (replace_runs (fun c => negb (in_class c)) false lowered)) in
        if negb (lt_removeStopwords lt) then stripped
        else join (List.filter
                     (fun w => negb (String.eqb w "")
                               && negb (existsb (String.eqb w) stopwords))
                     (split " " stripped))
  | _ => ""%string
  end.

(** The rebuilt [textsToSequences]: it has no fitted check. *)
Definition textsToSequences (lt : loaded_tokenizer) (texts : list val)
  : list (list val) :=
  map (fun t =>
         let norm := _normalize lt t in
         if String.eqb norm "" then []
         else map (fun w => nullish_or (js_get (lt_wordIndex lt) w) (VNum 1))
                  (split " " norm))
      texts.

(** The rebuilt [padSequences]; [seqLen] defaults to the loaded one. *)
Definition padSequences (lt : loaded_tokenizer)
  (sequences : list (list val)) (seqLen : option Z) : list (list val) :=
  let n := default (lt_seqLen lt) seqLen in
  map (fun s =>
         if Z.of_nat (length s) >=? n then slice0 s n
         else s ++ replicate (Z.to_nat (n - Z.of_nat (length s))) (VNum 0))
      sequences.

(** What [dataset.tokenizer] holds: the instance [prepareTensors] returned,
    or the object the load handler built. *)
Inductive tokenizer_obj : Type :=
| Trained (tk : Tokenizer.t)
| Loaded (lt : loaded_tokenizer).

(** [tokenizer.textsToSequences(texts)] and
    [tokenizer.padSequences(seq, seqLen)] on that object. *)
Definition obj_textsToSequences (o : tokenizer_obj) (texts : list val)
  : Tokenizer.error + list (list val) :=
  match o with
  | Trained tk => Tokenizer.textsToSequences tk texts
  | Loaded lt => inr (textsToSequences lt texts)
  end.

Definition obj_padSequences (o : tokenizer_obj)
  (sequences : list (list val)) (seqLen : Z) : list (list val) :=
  match o with
  | Trained _ => Tokenizer.padSequences sequences seqLen
  | Loaded lt => padSequences lt sequences (Some seqLen)
  end.

(** [predictText] of rnn.js as the page calls it, the two methods being
    those of the object passed as [tokenizer]. *)
Definition predictText (tf : Rnn.TfBackend) (text : val) (meta_seqLen : Z)
  (tokenizer : tokenizer_obj) (threshold : Rnn.num) (st : Rnn.state)
  : (Rnn.error + Rnn.prediction) * Rnn.state :=
  match Rnn.currentModel st with
  | None => (inl Rnn.NotReady, st)
  | Some m =>
      if negb (truthy text)
      then (inr {| Rnn.prob := Some Rnn.NaN; Rnn.pred := VNull |}, st)
      else
        match obj_textsToSequences tokenizer [text] with
        | inl e => (inl (Rnn.TokenizerError e), st)
        | inr seq =>
            let padded := obj_padSequences tokenizer seq meta_seqLen in
            if negb (Tf.tensor2d (Rnn.tf_tensors tf) padded 1 meta_seqLen)
            then (inl Rnn.LibraryError, st)
            else
              let a := default [] (Rnn.arch <$> Rnn.models st !! m) in
              match Rnn.tf_predict tf a padded with
              | None => (inl Rnn.LibraryError, st)
              | Some probs =>
                  let p := head probs in
                  (inr {| Rnn.prob := p;
                          Rnn.pred := VNum (Rnn.decision threshold p) |},
                   {| Rnn.models := Rnn.models st;
                      Rnn.currentModel := Rnn.currentModel st;
                      Rnn.forward_log :=
                        Rnn.forward_log st ++ [(m, padded)] |})
              end
        end
  end.

(** The two fields of [dataset] the handlers below read. *)
Record dataset : Type := {
  ds_tokenizer : option tokenizer_obj;
  ds_tokenizerMeta : option Loader.tokenizer_meta
}.

(** [Object.assign(dataset, prep)] in the handler of the load button, and
    the two assignments of the handler of the load-model button. *)
Definition after_prepare (prep : Loader.prepared) : dataset :=
  {| ds_tokenizer := Some (Trained (Loader.tokenizer prep));
     ds_tokenizerMeta := Some (Loader.tokenizerMeta prep) |}.

Definition after_load (meta : Loader.tokenizer_meta) : dataset :=
  {| ds_tokenizer := Some (Loaded (rebuild meta));
     ds_tokenizerMeta := Some meta |}.


(** [pred === 1 ? "Positive (1)" : "Negative (0)"] *)
Definition label_of (pred : val) : string :=
  match pred with
  | VNum 1 => "Positive (1)"
  | _ => "Negative (0)"
  end.


(** The analyzer the page hands to the scraper, built once both fields of
    [dataset] are set: [predictText({ text, tokenizer, tokenizerMeta,
    threshold })]; the scraper passes the threshold 0.5. *)
Definition sentimentAnalyzer (tf : Rnn.TfBackend) (tokenizer : tokenizer_obj)
  (meta : Loader.tokenizer_meta) (text : val) (st : Rnn.state)
  : (Rnn.error + Rnn.prediction) * Rnn.state :=
  predictText tf text (Loader.meta_seqLen meta) tokenizer (Rnn.Fin (1 # 2)) st.

(** A metadata field read as a value. *)
Definition num_val (z : option Z) : val :=
  match z with Some n => VNum n | None => VUndef end.

(** The handler of the train button up to the model it builds:
    [disposeModel()], then [createModel] on the metadata of [dataset]. *)
Definition train_args (meta : Loader.tokenizer_meta) : Rnn.createModel_args :=
  {| Rnn.vocabSize := num_val (Loader.meta_vocabSize meta);
     Rnn.seqLen := VNum (Loader.meta_seqLen meta);
     Rnn.embedDim := VNum 64;
     Rnn.gruUnits := VNum 128;
     Rnn.dropout := Some (1 # 5);
     Rnn.bidirectional := VBool true |}.

Definition onTrainClick_model (tf : Rnn.TfBackend)
  (meta : Loader.tokenizer_meta) (st : Rnn.state)
  : (Rnn.error + nat) * Rnn.state :=
  Rnn.createModel tf (train_args meta) (Rnn.disposeModel st).

End App.

(* ===================================================================== *)
(** ** yandex-scraper.js: from predictions to a recommendation *)
(* ===================================================================== *)

Module Scraper.
Import JS Rnn.

(** A comment prepared for analysis. *)
Record comment : Type := {
  c_text : val;
  c_rating : val;
  c_author : val;
  c_date : val;
  c_originalText : val;
  c_language : val
}.

Inductive sentiment : Type :=
| Positive      (* 'positive' *)
| Negative      (* 'negative' *)
| Unknown.      (* 'unknown' *)

(** [{ ...comment, sentiment, confidence, prediction }] *)
Record analyzed : Type := {
  a_comment : comment;
  a_sentiment : sentiment;
  a_confidence : option num;
  a_prediction : val
}.

Section WithAnalyzer.
(** [sentimentAnalyzer.predictText({ text, threshold: 0.5 })] *)
Variable predict : val -> state -> (error + prediction) * state.

(** The body of the loop of [analyzeCommentsSentiment]: the [try], and the
    [catch] that marks the comment unknown. *)
Definition analyze_one (c : comment) (st : state) : analyzed * state :=
  match predict (c_text c) st with
  | (inr r, st') =>
      ({| a_comment := c;
          a_sentiment := match pred r with
                         | VNum 1 => Positive
                         | _ => Negative
                         end;
          a_confidence := prob r;
          a_prediction := pred r |}, st')
  | (inl _, st') =>
      ({| a_comment := c;
          a_sentiment := Unknown;
          a_confidence := Some (Fin 0);
          a_prediction := VNum (-1) |}, st')
  end.

Fixpoint analyzeCommentsSentiment (comments : list comment) (st : state)
  : list analyzed * state :=
  match comments with
  | [] => ([], st)
  | c :: rest =>
      let '(a, st1) := analyze_one c st in
      let '(l, st2) := analyzeCommentsSentiment rest st1 in
      (a :: l, st2)
  end.

End WithAnalyzer.

Inductive recommendation : Type :=
| highly_recommended
| recommended
| neutral
| not_recommended
| strongly_not_recommended.

Definition recommendationText (r : recommendation) : string :=
  match r with
  | highly_recommended => "Highly Recommended"
  | recommended => "Recommended"
  | neutral => "Mixed Reviews"
  | not_recommended => "Not Recommended"
  | strongly_not_recommended => "Strongly Not Recommended"
  end.

Record stats : Type := {
  totalComments : Z;
  positiveComments : Z;
  negativeComments : Z;
  positivePercentage : num;
  negativePercentage : num
}.

(** [Math.round] *)
Definition round (x : num) : num :=
  match x with
  | Fin q => Fin (inject_Z (Qfloor (q + (1 # 2))))
  | _ => x
  end.

Definition has_sentiment (s : sentiment) (a : analyzed) : bool :=
  match s, a_sentiment a with
  | Positive, Positive | Negative, Negative | Unknown, Unknown => true
  | _, _ => false
  end.

(** A number as the double it is stored in. *)
Definition nround (x : num) : num :=
  match x with
  | Fin q => Fin (to_double q)
  | _ => x
  end.

(** [(count / totalComments) * 100], in doubles. *)
Definition percentage (count total : Z) : num :=
  nround (nmul (nround (ndiv (of_Z count) (of_Z total))) (of_Z 100)).

Definition generateRecommendation (analyzedComments : list analyzed)
  : recommendation * stats :=
  let positiveCount :=
    Z.of_nat (length (List.filter (has_sentiment Positive) analyzedComments)) in
  let negativeCount :=
    Z.of_nat (length (List.filter (has_sentiment Negative) analyzedComments)) in
  let total := Z.of_nat (length analyzedComments) in
  let positivePct := percentage positiveCount total in
  let negativePct := percentage negativeCount total in
  (if nge positivePct (of_Z 70) then highly_recommended
   else if nge positivePct (of_Z 60) then recommended
   else if nge positivePct (of_Z 50) then neutral
   else if nge positivePct (of_Z 40) then not_recommended
   else strongly_not_recommended,
   {| totalComments := total;
      positiveComments := positiveCount;
      negativeComments := negativeCount;
      positivePercentage := round positivePct;
      negativePercentage := round negativePct |}).

End Scraper.

(* ===================================================================== *)
(** ** More notions used to state the properties *)
(* ===================================================================== *)

Module Words.
Import JS Tokenizer.

(** The characters of a word of a normal form: [[a-z0-9']]. *)
Definition word_char (c : ascii) : bool := kept c && negb (is_space c).

(** A word: not empty, and made of word characters. *)
Definition is_word (w : string) : Prop :=
  w <> ""%string /\ Vocab.all_chars word_char w = true.

(** [s] holds word characters and single spaces only, and does not start
    with a space when [after_space]; [wellspaced] says moreover that it
    ends in a word character. *)
Fixpoint spaced (after_space : bool) (s : string) : bool :=
  match s with
  | EmptyString => true
  | String c s' =>
      if Ascii.eqb c " " then negb after_space && spaced true s'
      else word_char c && spaced false s'
  end.

Fixpoint wellspaced (after_space : bool) (s : string) : bool :=
  match s with
  | EmptyString => negb after_space
  | String c s' =>
      if Ascii.eqb c " " then negb after_space && wellspaced true s'
      else word_char c && wellspaced false s'
  end.

(** A row that [parseCSVFile] keeps: it has a review text, and its
    sentiment reads "positive" or "negative". *)
Definition accepted (r : Csv.row) : bool :=
  negb (String.eqb (Csv.review_of r) "")
  && (String.eqb (Csv.sentiment_of r) "positive"
      || String.eqb (Csv.sentiment_of r) "negative").

(** The label of a kept row. *)
Definition label_of (r : Csv.row) : Z :=
  if String.eqb (Csv.sentiment_of r) "positive" then 1 else 0.

(** The test of the stopword filter of [_normalize]. *)
Definition keep_word (w : string) : bool := nonempty w && negb (is_stop w).

(** [w] holds no space. *)
Definition no_space (w : string) : bool :=
  Vocab.all_chars (fun c => negb (Ascii.eqb c " ")) w.

(** The elements of a padded row that are proper ids of a vocabulary of
    size [n], or a member inherited from [Object.prototype]. *)
Definition id_below (n : Z) (v : val) : Prop :=
  (exists id, v = VNum id /\ 0 <= id < n) \/
  (exists k, v = VBuiltin k /\ In k Object_prototype_keys).

End Words.

(* ===================================================================== *)
(** ** Properties of [padSequences] *)
(* ===================================================================== *)

Section Padding.
Import JS Tokenizer.

Lemma map_is_fmap {A B} (f : A -> B) (l : list A) : map f l = f <$> l.
Proof. induction l as [|x l IH]; simpl; [done | by rewrite IH]. Qed.

Lemma slice0_take {A} (s : list A) (e : Z) :
  0 <= e -> slice0 s e = take (Z.to_nat e) s.
Proof.
  intros He. unfold slice0.
  destruct (e <? 0) eqn:E; [lia |].
  destruct (Z.min_spec e (Z.of_nat (length s))) as [[? ->] | [? ->]]; [done |].
  rewrite Nat2Z.id, !take_ge; [done | lia | lia].
Qed.

Lemma pad_row_long (seqLen : Z) (s : list val) :
  0 <= seqLen -> seqLen <= Z.of_nat (length s) ->
  pad_row seqLen s = take (Z.to_nat seqLen) s.
Proof.
  intros H0 Hle. unfold pad_row.
  destruct (Z.of_nat (length s) >=? seqLen) eqn:E; [| lia].
  by apply slice0_take.
Qed.

Lemma pad_row_short (seqLen : Z) (s : list val) :
  Z.of_nat (length s) < seqLen ->
  pad_row seqLen s
  = s ++ replicate (Z.to_nat seqLen - length s)%nat (VNum 0).
Proof.
  intros Hlt. unfold pad_row.
  destruct (Z.of_nat (length s) >=? seqLen) eqn:E; [lia |].
  do 2 f_equal. lia.
Qed.

Lemma pad_row_length (seqLen : Z) (s : list val) :
  0 <= seqLen -> Z.of_nat (length (pad_row seqLen s)) = seqLen.
Proof.
  intros H0. destruct (Z_lt_le_dec (Z.of_nat (length s)) seqLen).
  - rewrite pad_row_short by done.
    rewrite length_app, length_replicate. lia.
  - rewrite pad_row_long by done. rewrite length_take. lia.
Qed.



End Padding.

(* ===================================================================== *)
(** ** Properties of the seeded shuffle *)
(* ===================================================================== *)

Section Shuffle.
Import JS Loader Perm.

Lemma mulberry32_word (s : Z) : 0 <= snd (mulberry32 s) < two32.
Proof.
  unfold mulberry32, ushr; simpl snd.
  change (0 mod 32) with 0. rewrite Z.shiftr_0_r.
  unfold to_uint32. apply Z.mod_pos_bound. reflexivity.
Qed.

Lemma draw_le (w : Z) (i : nat) : 0 <= w < two32 -> (draw w i <= i)%nat.
Proof.
  intros Hw. unfold draw.
  assert (w * Z.of_nat (i + 1) / two32 < Z.of_nat (i + 1)).
  { apply Z.div_lt_upper_bound; [reflexivity |]. unfold two32 in *. nia. }
  assert (0 <= w * Z.of_nat (i + 1) / two32).
  { apply Z.div_pos; [nia | reflexivity]. }
  lia.
Qed.

Lemma aget_fmap (f : nat -> val) (p : list nat) (i : nat) :
  (i < length p)%nat -> aget (f <$> p) i = f (p !!! i).
Proof.
  intros Hi. unfold aget. rewrite list_lookup_fmap.
  destruct (lookup_lt_is_Some_2 p i Hi) as [x Hx].
  by rewrite (list_lookup_total_correct _ _ _ Hx), Hx.
Qed.

Lemma aset_in_range (xs : list val) (i : nat) (v : val) :
  (i < length xs)%nat -> aset xs i v = <[i:=v]> xs.
Proof.
  intros Hi. unfold aset.
  destruct (i <? length xs)%nat eqn:E; [done |].
  apply Nat.ltb_ge in E. lia.
Qed.

Lemma swap_idx_length (p : list nat) (i j : nat) :
  length (swap_idx p i j) = length p.
Proof. unfold swap_idx. by rewrite !length_insert. Qed.

Lemma swap_idx_perm (p : list nat) (i j : nat) :
  (i < length p)%nat -> (j < length p)%nat -> swap_idx p i j ≡ₚ p.
Proof.
  intros Hi Hj. unfold swap_idx.
  destruct (lookup_lt_is_Some_2 p i Hi) as [x Hx].
  destruct (lookup_lt_is_Some_2 p j Hj) as [y Hy].
  rewrite (list_lookup_total_correct _ _ _ Hx).
  rewrite (list_lookup_total_correct _ _ _ Hy).
  by apply Permutation_insert_swap.
Qed.

(** Swapping two slots of a rearranged array is rearranging along the
    swapped positions. *)
Lemma swap_list_pick (xs : list val) (p : list nat) (i j : nat) :
  (i < length p)%nat -> (j < length p)%nat ->
  swap_list (pick xs p) i j = pick xs (swap_idx p i j).
Proof.
  intros Hi Hj. unfold swap_list, pick, swap_idx.
  rewrite !aget_fmap by done.
  rewrite (aset_in_range (_ <$> p)) by (by rewrite length_fmap).
  rewrite aset_in_range by (by rewrite length_insert, length_fmap).
  by rewrite !list_fmap_insert.
Qed.

Lemma pick_all (xs : list val) : pick xs (seq 0 (length xs)) = xs.
Proof.
  apply list_eq; intros i. unfold pick. rewrite list_lookup_fmap.
  destruct (decide (i < length xs)%nat) as [Hi | Hi].
  - rewrite lookup_seq_lt by done. simpl. unfold aget.
    destruct (lookup_lt_is_Some_2 xs i Hi) as [x Hx]. by rewrite Hx.
  - rewrite (lookup_ge_None_2 xs) by lia.
    rewrite (lookup_ge_None_2 (seq 0 _)); [done |].
    rewrite length_seq. lia.
Qed.

Lemma index_loop_step (i : nat) (s : Z) (p : list nat) :
  index_loop (S i) s p
  = index_loop i (fst (mulberry32 s))
      (swap_idx p (S i) (draw (snd (mulberry32 s)) (S i))).
Proof. cbn [index_loop]. by destruct (mulberry32 s). Qed.

Lemma shuffle_loop_step (a b : loc) (i : nat) (s : Z) (h : heap) :
  shuffle_loop a b (S i) s h
  = let j := draw (snd (mulberry32 s)) (S i) in
    shuffle_loop a b i (fst (mulberry32 s))
      (swap b (S i) j (swap a (S i) j h)).
Proof. cbn [shuffle_loop]. by destruct (mulberry32 s). Qed.

Lemma index_loop_perm (i : nat) : forall (s : Z) (p : list nat),
  (i < length p \/ i = 0)%nat ->
  index_loop i s p ≡ₚ p /\ length (index_loop i s p) = length p.
Proof.
  induction i as [|i IH]; intros s p Hi; [done |].
  rewrite index_loop_step.
  pose proof (draw_le _ (S i) (mulberry32_word s)) as Hj.
  set (s' := fst (mulberry32 s)). set (w := snd (mulberry32 s)) in *.
  destruct (IH s' (swap_idx p (S i) (draw w (S i)))) as [HP HL].
  { rewrite swap_idx_length. lia. }
  split; [| by rewrite HL, swap_idx_length].
  rewrite HP. apply swap_idx_perm; lia.
Qed.

Lemma shuffle_indices_perm (seed : Z) (n : nat) :
  shuffle_indices seed n ≡ₚ seq 0 n /\ length (shuffle_indices seed n) = n.
Proof.
  unfold shuffle_indices.
  destruct (index_loop_perm (n - 1) seed (seq 0 n)) as [HP HL].
  { rewrite length_seq. lia. }
  by rewrite HL, length_seq.
Qed.

(** The loop keeps both arrays rearranged along one list of positions. *)
Lemma shuffle_loop_pick (a b : loc) (xs ys : list val) (i : nat) :
  a <> b ->
  forall (s : Z) (p : list nat) (h : heap),
    (i < length p \/ i = 0)%nat ->
    h !! a = Some (pick xs p) ->
    h !! b = Some (pick ys p) ->
    shuffle_loop a b i s h
    = <[b := pick ys (index_loop i s p)]>
        (<[a := pick xs (index_loop i s p)]> h).
Proof.
  intros Hab. induction i as [|i IH]; intros s p h Hi Ha Hb.
  - simpl. rewrite (insert_id h a) by done. by rewrite insert_id.
  - rewrite shuffle_loop_step, index_loop_step. cbv zeta.
    pose proof (draw_le _ (S i) (mulberry32_word s)) as Hj.
    set (s' := fst (mulberry32 s)).
    set (j := draw (snd (mulberry32 s)) (S i)) in *.
    assert (Hs1 : swap a (S i) j h = <[a := pick xs (swap_idx p (S i) j)]> h).
    { unfold swap. rewrite Ha, swap_list_pick by lia. done. }
    assert (Hs2 : swap b (S i) j (swap a (S i) j h)
                  = <[b := pick ys (swap_idx p (S i) j)]>
                      (<[a := pick xs (swap_idx p (S i) j)]> h)).
    { rewrite Hs1. unfold swap. rewrite lookup_insert_ne by done.
      rewrite Hb, swap_list_pick by lia. done. }
    rewrite Hs2.
    rewrite (IH s' (swap_idx p (S i) j)).
    + apply map_eq; intros k.
      destruct (decide (k = b)) as [-> | Hkb]; [by rewrite !lookup_insert_eq |].
      rewrite !(lookup_insert_ne _ b) by done.
      destruct (decide (k = a)) as [-> | Hka]; [by rewrite !lookup_insert_eq |].
      by repeat (rewrite lookup_insert_ne by done).
    + rewrite swap_idx_length. lia.
    + rewrite lookup_insert_ne by done. by rewrite lookup_insert_eq.
    + by rewrite lookup_insert_eq.
Qed.

(** The whole shuffle on two distinct arrays of one length: both are
    rearranged along [shuffle_indices], and nothing else changes. *)
Lemma shuffleInPlace_pick (a b : loc) (seed : Z) (h : heap)
  (xs ys : list val) :
  a <> b -> h !! a = Some xs -> h !! b = Some ys -> length xs = length ys ->
  shuffleInPlace a b seed h
  = <[b := pick ys (shuffle_indices seed (length xs))]>
      (<[a := pick xs (shuffle_indices seed (length xs))]> h).
Proof.
  intros Hab Ha Hb Hlen. unfold shuffleInPlace, shuffle_indices. rewrite Ha.
  apply shuffle_loop_pick; [done | | |].
  - rewrite length_seq. lia.
  - by rewrite pick_all.
  - by rewrite Hlen, pick_all.
Qed.

(** C9. The seeded shuffle is deterministic and lock-step. Two runs with
    one seed on equal pairs of arrays (wherever the arrays live, whatever
    else the heaps hold) leave equal arrays; within a run both arrays are
    rearranged along one permutation of the positions, which depends on
    the seed and the length only, so the elements that shared an index
    still share one; and the index [j] drawn at step [i] of the pass is
    within [0, i]. *)
Theorem shuffle_deterministic_lockstep (seed : Z) (xs ys : list val)
  (a1 b1 a2 b2 : loc) (h1 h2 : heap) :
  length xs = length ys ->
  a1 <> b1 -> a2 <> b2 ->
  h1 !! a1 = Some xs -> h1 !! b1 = Some ys ->
  h2 !! a2 = Some xs -> h2 !! b2 = Some ys ->
  let p := shuffle_indices seed (length xs) in
  let r1 := shuffleInPlace a1 b1 seed h1 in
  let r2 := shuffleInPlace a2 b2 seed h2 in
  (r1 !! a1 = r2 !! a2 /\ r1 !! b1 = r2 !! b2) /\
  p ≡ₚ seq 0 (length xs) /\
  r1 !! a1 = Some (pick xs p) /\
  r1 !! b1 = Some (pick ys p) /\
  (forall k i : nat,
      p !! k = Some i ->
      exists x y, r1 !! a1 = Some x /\ r1 !! b1 = Some y /\
                  aget x k = aget xs i /\ aget y k = aget ys i) /\
  (forall (s : Z) (i : nat), (draw (snd (mulberry32 s)) i <= i)%nat).
Proof.
  intros Hlen Hab1 Hab2 Ha1 Hb1 Ha2 Hb2. cbv zeta.
  rewrite (shuffleInPlace_pick a1 b1 seed h1 xs ys) by done.
  rewrite (shuffleInPlace_pick a2 b2 seed h2 xs ys) by done.
  rewrite !lookup_insert_eq.
  rewrite !(lookup_insert_ne _ b1 a1), !(lookup_insert_ne _ b2 a2) by done.
  rewrite !lookup_insert_eq.
  split; [done |]. split; [apply shuffle_indices_perm |].
  split; [done |]. split; [done |]. split.
  - intros k i Hk. eexists _, _. split; [done |]. split; [done |].
    assert (Hlt : (k < length (shuffle_indices seed (length xs)))%nat)
      by (eapply lookup_lt_Some; done).
    unfold pick. rewrite !aget_fmap by done.
    by rewrite (list_lookup_total_correct _ _ _ Hk).
  - intros s i. apply draw_le, mulberry32_word.
Qed.

Lemma shuffle_deterministic_lockstep_witness :
  let h2 : heap := {[ 7%nat := Demo.texts; 3%nat := Demo.labels ]} in
  (shuffleInPlace 0%nat 1%nat 1337 Demo.heap0 !! 0%nat
   = shuffleInPlace 7%nat 3%nat 1337 h2 !! 7%nat /\
   shuffleInPlace 0%nat 1%nat 1337 Demo.heap0 !! 1%nat
   = shuffleInPlace 7%nat 3%nat 1337 h2 !! 3%nat) /\
  shuffleInPlace 0%nat 1%nat 1337 Demo.heap0 !! 1%nat
  = Some (VNum <$> [1; 0; 1; 0; 1]).
Proof.
  cbv zeta. split; [| vm_compute; reflexivity].
  refine (proj1 (shuffle_deterministic_lockstep 1337 Demo.texts Demo.labels
                   0%nat 1%nat 7%nat 3%nat Demo.heap0
                   {[ 7%nat := Demo.texts; 3%nat := Demo.labels ]}
                   _ _ _ _ _ _ _));
    first [ reflexivity | discriminate ].
Defined.

Lemma fitOnTexts_fitted (tk : Tokenizer.t) (texts : list val) :
  Tokenizer._fitted (Tokenizer.fitOnTexts tk texts) = true.
Proof. unfold Tokenizer.fitOnTexts. by destruct (Tokenizer.assign _ _ _ _). Qed.



(** The product of [prepareTensors] is the double product: [50 * 0.58]
    is just below 29 and [10 * 0.7] is 7. *)
Example fmul_rounds :
  Qfloor (fmul 50 (58 # 100)) = 28 /\ Qfloor (fmul 10 (7 # 10)) = 7 /\
  Qfloor (fmul 5 (1 # 5)) = 1.
Proof. vm_compute. repeat split. Qed.

End Shuffle.

(* ===================================================================== *)
(** ** Properties of the model lifecycle *)
(* ===================================================================== *)

Section ModelLifecycle.
Import JS Rnn Lifecycle.
Variable tf : TfBackend.

Lemma live_is_live (st : state) (i : nat) : In i (live st) <-> is_live st i.
Proof.
  unfold live, is_live. rewrite filter_In, in_seq. split.
  - intros [_ H]. destruct (models st !! i) as [m|]; [| done].
    exists m. split; [done |]. by destruct (disposed m).
  - intros (m & Hm & Hd). split.
    + pose proof (lookup_lt_Some _ _ _ Hm). lia.
    + by rewrite Hm, Hd.
Qed.

Lemma live_NoDup (st : state) : List.NoDup (live st).
Proof. unfold live. apply List.NoDup_filter, List.seq_NoDup. Qed.

(** Under the invariant at most one model is live. *)
Lemma single_live_count (st : state) :
  single_live st -> (length (live st) <= 1)%nat.
Proof.
  intros Inv. pose proof (live_NoDup st) as ND.
  destruct (live st) as [|i [|j l]] eqn:E; simpl; [lia | lia |].
  assert (Hi : In i (live st)) by (rewrite E; simpl; auto).
  assert (Hj : In j (live st)) by (rewrite E; simpl; auto).
  apply live_is_live, Inv in Hi. apply live_is_live, Inv in Hj.
  assert (i = j) by congruence. subst j.
  inversion ND as [|? ? Hnin _]. simpl in Hnin. tauto.
Qed.

Lemma dispose_lookup (m i : nat) (ms : list model) (x : model) :
  dispose m ms !! i = Some x ->
  exists y, ms !! i = Some y /\ arch x = arch y /\
            (disposed x = false -> i <> m /\ disposed y = false).
Proof.
  unfold dispose. intros H.
  destruct (decide (i = m)) as [-> | Hne].
  - rewrite list_lookup_alter_eq in H.
    destruct (ms !! m) as [y|]; simplify_eq/=.
    exists y. split; [done |]. split; [done |]. discriminate.
  - rewrite list_lookup_alter_ne in H by done.
    exists x. split; [done |]. split; [done |]. by split.
Qed.

(** After [release_current] under the invariant nothing is live. *)
Lemma release_current_none (st : state) :
  single_live st ->
  currentModel (release_current st) = None /\
  forall i, ~ is_live (release_current st) i.
Proof.
  intros Inv. unfold release_current.
  destruct (currentModel st) as [m|] eqn:E; simpl.
  - split; [done |]. intros i (x & Hx & Hd). simpl in Hx.
    apply dispose_lookup in Hx as (y & Hy & _ & Hlive).
    destruct (Hlive Hd) as [Hne Hyd].
    assert (currentModel st = Some i) by (apply Inv; by exists y).
    congruence.
  - split; [done |]. intros i Hi. apply Inv in Hi. congruence.
Qed.

Lemma install_spec (a : architecture) (st : state) :
  let '(id, st') := install a st in
  id = length (models st) /\
  currentModel st' = Some id /\
  models st' !! id = Some {| arch := a; disposed := false |} /\
  forward_log st' = forward_log st /\
  forall i, i <> id -> models st' !! i = models st !! i.
Proof.
  unfold install. simpl. split; [done |]. split; [done |].
  split; [by rewrite list_lookup_middle |]. split; [done |].
  intros i Hi. destruct (decide (i < length (models st))%nat).
  - by rewrite lookup_app_l.
  - rewrite (lookup_ge_None_2 (models st)) by lia.
    apply lookup_ge_None_2. rewrite length_app. simpl. lia.
Qed.

(** [createModel] keeps the invariant: it releases the model it held
    before the new one becomes current. *)
Lemma createModel_single_live (a : createModel_args) (st : state) :
  single_live st -> single_live (snd (createModel tf a st)).
Proof.
  intros Inv. unfold createModel.
  destruct (negb (truthy (vocabSize a)) || negb (truthy (seqLen a)));
    [done |].
  destruct (release_current_none st Inv) as [Hc Hnone].
  destruct (tf_accepts tf (layers_of a)).
  - pose proof (install_spec (layers_of a) (release_current st)) as HI.
    destruct (install (layers_of a) (release_current st)) as [id st2].
    destruct HI as (-> & Hcur & _ & _ & Hother). simpl.
    intros i (x & Hx & Hd). rewrite Hcur. f_equal.
    destruct (decide (i = length (models (release_current st))));
      [done |].
    exfalso. apply (Hnone i). exists x. by rewrite <- Hother.
  - simpl. intros i Hi. by apply Hnone in Hi.
Qed.

Lemma disposeModel_single_live (st : state) :
  single_live st -> single_live (disposeModel st).
Proof.
  intros Inv i Hi. by apply (release_current_none st Inv) in Hi.
Qed.

(** [loadModel] does not: after a successful load the model that was
    current is still live, next to the loaded one. *)
Lemma loadModel_no_release (file : model_file) (st : state) (m : nat)
  (r : nat * Loader.tokenizer_meta) (st' : state) :
  currentModel st = Some m -> is_live st m ->
  loadModel tf (Some file) st = (inr r, st') ->
  fst r = length (models st) /\
  currentModel st' = Some (fst r) /\
  is_live st' (fst r) /\ is_live st' m /\ m <> fst r.
Proof.
  intros Hcur (x & Hx & Hd) Hload. unfold loadModel in Hload.
  destruct (modelTopology file) as [topo|]; [| done].
  destruct (weightSpecs file); [| done].
  destruct (weightData file); [| done].
  destruct (file_tokenizerMeta file) as [meta|]; [| done].
  destruct (tf_loads tf file); [| done].
  pose proof (install_spec topo st) as HI.
  destruct (install topo st) as [id st2].
  destruct HI as (-> & Hc & Hnew & _ & Hother).
  injection Hload as <- <-. simpl.
  assert (Hm : m <> length (models st)).
  { pose proof (lookup_lt_Some _ _ _ Hx). lia. }
  split; [done |]. split; [done |]. split; [by eexists |].
  split; [| done]. exists x. by rewrite Hother.
Qed.

End ModelLifecycle.

Section ModelClaims.
Import JS Rnn Lifecycle.

(** C1. The code at the failing input: in a fresh page
    [createModel({ vocabSize: 10, seqLen: 5 })] followed by [loadModel] of
    a well-formed file. [createModel] leaves one live model, handle 0;
    [loadModel] makes the loaded model, handle 1, current without
    disposing handle 0, so two models are live. *)
Theorem loadModel_keeps_previous_model_live :
  let st1 := Demo.st_created in
  let st2 := snd (loadModel permissive (Some Demo.file0) st1) in
  (single_live st1 /\ live st1 = [0%nat]) /\
  currentModel st2 = Some 1%nat /\
  live st2 = [0%nat; 1%nat] /\
  ~ single_live st2.
Proof.
  cbv zeta. split; [split |]; [| reflexivity |].
  - apply (createModel_single_live permissive Demo.args0 initial).
    intros i (m & Hm & _). by destruct i.
  - split; [reflexivity |]. split; [reflexivity |].
    intros Inv.
    assert (H : currentModel
                  (snd (loadModel permissive (Some Demo.file0) Demo.st_created))
                = Some 0%nat).
    { apply Inv. eexists. split; [reflexivity | reflexivity]. }
    discriminate H.
Qed.

Lemma createModel_inr (tf : TfBackend) (a : createModel_args)
  (st : state) (id : nat) (st' : state) :
  createModel tf a st = (inr id, st') ->
  truthy (vocabSize a) = true /\ truthy (seqLen a) = true /\
  tf_accepts tf (layers_of a) = true /\
  (id, st') = install (layers_of a) (release_current st).
Proof.
  unfold createModel.
  destruct (truthy (vocabSize a)), (truthy (seqLen a)); cbn [negb orb];
    try discriminate.
  destruct (tf_accepts tf (layers_of a)); [| discriminate].
  destruct (install _ _) as [id2 st2]. intros [= -> ->]. done.
Qed.

(** C2 fails as stated: without a [bidirectional] argument the model
    built has the recurrent layer added directly, not wrapped. *)
Lemma createModel_default_not_bidirectional :
  arch <$> models Demo.st_created !! 0%nat
  = Some [ Embedding (VNum 10) (VNum 64) (VNum 5);
           GRU (VNum 128) (1 # 5); Dense 1 ] /\
  is_bidirectional <$> (arch <$> models Demo.st_created !! 0%nat)
  = Some false.
Proof. split; reflexivity. Qed.

(** C2, amended. The default of [bidirectional] is [false]: a model that
    [createModel] builds without that argument has the layers
    embedding, GRU, dense, the GRU added directly; the GRU is wrapped to
    run in both directions (outputs concatenated) exactly when the
    argument is passed and truthy. *)
Theorem createModel_bidirectional_default (tf : TfBackend)
  (a : createModel_args) (st : state) (id : nat) (st' : state) :
  createModel tf a st = (inr id, st') ->
  exists m,
    models st' !! id = Some m /\
    disposed m = false /\
    arch m = layers_of a /\
    is_bidirectional (arch m)
    = truthy (default_arg (VBool false) (bidirectional a)) /\
    (bidirectional a = VUndef ->
     arch m = [ Embedding (vocabSize a)
                  (default_arg (VNum 64) (embedDim a)) (seqLen a);
                GRU (default_arg (VNum 128) (gruUnits a))
                    (default (1 # 5) (dropout a));
                Dense 1 ] /\
     is_bidirectional (arch m) = false).
Proof.
  intros H. apply createModel_inr in H as (_ & _ & _ & H).
  pose proof (install_spec (layers_of a) (release_current st)) as HI.
  rewrite <- H in HI. destruct HI as (_ & _ & Hm & _).
  eexists. split; [exact Hm |]. simpl. split; [done |]. split; [done |].
  split.
  - unfold layers_of, is_bidirectional. simpl.
    by destruct (truthy (default_arg (VBool false) (bidirectional a))).
  - intros Hb. unfold layers_of. by rewrite Hb.
Qed.

Lemma createModel_bidirectional_default_witness :
  exists m,
    models Demo.st_created !! 0%nat = Some m /\
    disposed m = false /\
    arch m = layers_of Demo.args0 /\
    is_bidirectional (arch m)
    = truthy (default_arg (VBool false) (bidirectional Demo.args0)) /\
    (bidirectional Demo.args0 = VUndef ->
     arch m = [ Embedding (VNum 10) (VNum 64) (VNum 5);
                GRU (VNum 128) (1 # 5); Dense 1 ] /\
     is_bidirectional (arch m) = false).
Proof.
  exact (createModel_bidirectional_default permissive Demo.args0 initial
           0%nat Demo.st_created eq_refl).
Defined.

(** C3 fails as stated: on a negative [vocabSize] the guard of
    [createModel] does not fire, whatever the library and the state. *)
Lemma createModel_negative_passes_guard :
  ~ exists (tf : TfBackend) (st : state),
      fst (createModel tf Demo.args_negative st) = inl Required.
Proof.
  intros (tf & st & H). unfold createModel in H. simpl in H.
  destruct (tf_accepts tf _); simpl in H; discriminate.
Qed.

(** C3, amended. [createModel] fails with its own error ("vocabSize and
    seqLen are required.") exactly when [vocabSize] or [seqLen] is falsy:
    missing ([undefined], [null]), zero or NaN; the state is then
    untouched. A number is falsy only when it is zero, so a negative
    [vocabSize] or [seqLen] passes the guard: the model held before is
    released and the layers are built from the values as given. *)
Theorem createModel_required (tf : TfBackend) (a : createModel_args)
  (st : state) :
  (fst (createModel tf a st) = inl Required <->
   truthy (vocabSize a) = false \/ truthy (seqLen a) = false) /\
  (fst (createModel tf a st) = inl Required ->
   snd (createModel tf a st) = st) /\
  (truthy (vocabSize a) = true -> truthy (seqLen a) = true ->
   createModel tf a st
   = if tf_accepts tf (layers_of a)
     then (inr (length (models st)),
           snd (install (layers_of a) (release_current st)))
     else (inl LibraryError, release_current st)) /\
  (forall z : Z, truthy (VNum z) = false <-> z = 0) /\
  truthy VUndef = false /\ truthy VNull = false /\ truthy VNaN = false.
Proof.
  assert (Hnum : forall z : Z, truthy (VNum z) = false <-> z = 0).
  { intros z. simpl. rewrite negb_false_iff. apply Z.eqb_eq. }
  assert (Htail : (forall z : Z, truthy (VNum z) = false <-> z = 0) /\
                  truthy VUndef = false /\ truthy VNull = false /\
                  truthy VNaN = false) by done.
  unfold createModel.
  destruct (truthy (vocabSize a)), (truthy (seqLen a)); cbn [negb orb].
  - assert (Hlen : length (models (release_current st)) = length (models st)).
    { unfold release_current, dispose. destruct (currentModel st); [| done].
      simpl. apply length_alter. }
    destruct (tf_accepts tf (layers_of a)); cbn [install fst snd];
      (split; [split; [discriminate | by intros [|]] |]);
      (split; [discriminate |]); (split; [| done]); intros _ _;
      by rewrite ?Hlen.
  - cbn [fst snd]. split; [split; auto |]. split; [done |]. by split.
  - cbn [fst snd]. split; [split; auto |]. split; [done |]. by split.
  - cbn [fst snd]. split; [split; auto |]. split; [done |]. by split.
Qed.

End ModelClaims.

(* ===================================================================== *)
(** ** Properties of [predictText] and [evaluateModel] *)
(* ===================================================================== *)

Section Prediction.
Import JS Rnn.

Lemma lower_char_space (c : ascii) : is_space c = true -> lower_char c = c.
Proof.
  destruct c as [[] [] [] [] [] [] [] []]; intros H;
    first [discriminate H | reflexivity].
Qed.

Lemma toLowerCase_blank (s : string) :
  Vocab.all_chars is_space s = true -> toLowerCase s = s.
Proof.
  induction s as [|c s IH]; [done |]. simpl.
  intros [Hc Hs]%andb_true_iff. by rewrite lower_char_space, IH.
Qed.

Lemma replace_runs_blank_kept (s : string) (b : bool) :
  Vocab.all_chars is_space s = true ->
  replace_runs (fun c => negb (Tokenizer.kept c)) b s = s.
Proof.
  revert b. induction s as [|c s IH]; intros b; [done |]. simpl.
  intros [Hc Hs]%andb_true_iff. unfold Tokenizer.kept at 1.
  rewrite Hc, orb_true_r. simpl. by rewrite IH.
Qed.

Lemma replace_runs_blank_space (s : string) :
  Vocab.all_chars is_space s = true ->
  replace_runs is_space true s = ""%string /\
  (replace_runs is_space false s = ""%string \/
   replace_runs is_space false s = " "%string).
Proof.
  induction s as [|c s IH]; [by split; [| left] |]. simpl.
  intros [Hc Hs]%andb_true_iff. rewrite Hc.
  destruct (IH Hs) as [-> _]. by split; [| right].
Qed.

(** A whitespace-only text has the empty normal form, so it is encoded as
    the empty sequence and padded to the all-PAD row. *)
Lemma encode_text_blank (tk : Tokenizer.t) (s : string) :
  Vocab.all_chars is_space s = true ->
  Tokenizer._normalize tk (VStr s) = ""%string /\
  Tokenizer.encode_text tk (VStr s) = [].
Proof.
  intros Hs.
  assert (Hn : Tokenizer._normalize tk (VStr s) = ""%string).
  { unfold Tokenizer._normalize. destruct (String.eqb s ""); [done |].
    rewrite toLowerCase_blank, replace_runs_blank_kept by done.
    destruct (replace_runs_blank_space s Hs) as [_ [-> | ->]];
      by destruct (Tokenizer.removeStopwords tk). }
  split; [done |]. unfold Tokenizer.encode_text. by rewrite Hn.
Qed.

(** C4 fails as stated: on a whitespace-only text, with a live model,
    [predictText] does not return [{prob: NaN, pred: null}]; it runs the
    model on the all-PAD row and thresholds what comes back. *)
Lemma predictText_blank_runs_model :
  predictText permissive (VStr "   ") 5 Demo.tk (Fin (1 # 2)) Demo.st_created
  = (inr {| prob := Some (Fin (1 # 4)); pred := VNum 0 |},
     {| models := models Demo.st_created;
        currentModel := Some 0%nat;
        forward_log :=
          [(0%nat, [[VNum 0; VNum 0; VNum 0; VNum 0; VNum 0]])] |}).
Proof. vm_compute. reflexivity. Qed.

(** C4, amended. With a live model, [predictText] returns
    [{prob: NaN, pred: null}] without running the model exactly on a
    falsy text (the empty string, or a missing one). On every other
    text, whitespace-only ones included, given a fitted tokenizer, it
    normalizes and encodes the text, pads it to [seqLen], and hands that
    one row to the library: when the library builds the [1 x seqLen]
    tensor and the forward pass returns, the result is the first
    probability returned and its threshold decision, and one forward pass
    is logged; when the library throws at either step, its error leaves
    [predictText] and the state is untouched. *)
Theorem predictText_contract (tf : TfBackend) (text : val) (seqLen : Z)
  (tk : Tokenizer.t) (threshold : num) (st : state) (m : nat) :
  currentModel st = Some m ->
  (truthy text = false ->
   predictText tf text seqLen tk threshold st
   = (inr {| prob := Some NaN; pred := VNull |}, st)) /\
  (truthy text = true -> Tokenizer._fitted tk = true ->
   let row := Tokenizer.pad_row seqLen (Tokenizer.encode_text tk text) in
   let a := default [] (arch <$> models st !! m) in
   (forall p rest,
      Tf.tensor2d (tf_tensors tf) [row] 1 seqLen = true ->
      tf_predict tf a [row] = Some (p :: rest) ->
      predictText tf text seqLen tk threshold st
      = (inr {| prob := Some p;
                pred := VNum (if nge p threshold then 1 else 0) |},
         {| models := models st;
            currentModel := Some m;
            forward_log := forward_log st ++ [(m, [row])] |})) /\
   (Tf.tensor2d (tf_tensors tf) [row] 1 seqLen = true ->
    tf_predict tf a [row] = Some [] ->
    predictText tf text seqLen tk threshold st
    = (inr {| prob := None; pred := VNum 0 |},
       {| models := models st;
          currentModel := Some m;
          forward_log := forward_log st ++ [(m, [row])] |})) /\
   (Tf.tensor2d (tf_tensors tf) [row] 1 seqLen = false \/
    tf_predict tf a [row] = None ->
    predictText tf text seqLen tk threshold st = (inl LibraryError, st))) /\
  (forall s : string, truthy (VStr s) = false <-> s = ""%string) /\
  truthy VUndef = false /\ truthy VNull = false.
Proof.
  intros Hm. unfold predictText. rewrite Hm. split; [| split].
  - by intros ->.
  - intros -> Hfit. cbv zeta. unfold Tokenizer.textsToSequences.
    rewrite Hfit. cbn [negb map Tokenizer.padSequences].
    split; [| split].
    + intros p rest -> ->. reflexivity.
    + intros -> ->. reflexivity.
    + intros [-> | H]; [done |].
      destruct (Tf.tensor2d _ _ _ _); [| done]. cbn [negb]. by rewrite H.
  - split; [| done]. intros s. simpl. rewrite negb_false_iff.
    apply String.eqb_eq.
Qed.

Lemma predictText_contract_witness :
  predictText permissive (VStr "Great food!") 5 Demo.tk (Fin (1 # 2))
    Demo.st_created
  = (inr {| prob := Some (Fin (1 # 4)); pred := VNum 0 |},
     {| models := models Demo.st_created;
        currentModel := Some 0%nat;
        forward_log :=
          [(0%nat, [[VNum 2; VNum 3; VNum 0; VNum 0; VNum 0]])] |}) /\
  predictText permissive (VStr "") 5 Demo.tk (Fin (1 # 2)) Demo.st_created
  = (inr {| prob := Some NaN; pred := VNull |}, Demo.st_created) /\
  predictText permissive (VStr "great constructor zzz") 5 Demo.tk
    (Fin (1 # 2)) Demo.st_created
  = (inl LibraryError, Demo.st_created).
Proof.
  split; [| split].
  - destruct (predictText_contract permissive (VStr "Great food!") 5 Demo.tk
                (Fin (1 # 2)) Demo.st_created 0%nat eq_refl) as (_ & H & _).
    destruct (H eq_refl (fitOnTexts_fitted _ _)) as (Hrun & _ & _).
    apply (Hrun (Fin (1 # 4)) []); vm_compute; reflexivity.
  - exact (proj1 (predictText_contract permissive (VStr "") 5 Demo.tk
                    (Fin (1 # 2)) Demo.st_created 0%nat eq_refl) eq_refl).
  - destruct (predictText_contract permissive (VStr "great constructor zzz")
                5 Demo.tk (Fin (1 # 2)) Demo.st_created 0%nat eq_refl)
      as (_ & H & _).
    destruct (H eq_refl (fitOnTexts_fitted _ _)) as (_ & _ & Hfail).
    apply Hfail. left. vm_compute. reflexivity.
Defined.

End Prediction.

Section Evaluation.
Import JS Rnn.
Local Open Scope Q_scope.

Lemma Qeq_bool_inject_Z (z : Z) : Qeq_bool (inject_Z z) 0 = (z =? 0)%Z.
Proof.
  unfold Qeq_bool, inject_Z. simpl. rewrite Z.mul_1_r.
  destruct z; reflexivity.
Qed.

Lemma tally_nonneg (c : confusion) (yt : Z) (yp : option Z) :
  (0 <= tp c /\ 0 <= tn c /\ 0 <= fp c /\ 0 <= fn c)%Z ->
  (0 <= tp (tally c yt yp) /\ 0 <= tn (tally c yt yp) /\
   0 <= fp (tally c yt yp) /\ 0 <= fn (tally c yt yp))%Z.
Proof.
  intros H. unfold tally.
  repeat (match goal with |- context [if ?b then _ else _] => destruct b end);
    simpl; lia.
Qed.

Lemma count_loop_nonneg (yTrue yPred : list Z) : forall c : confusion,
  (0 <= tp c /\ 0 <= tn c /\ 0 <= fp c /\ 0 <= fn c)%Z ->
  (0 <= tp (count_loop yTrue yPred c) /\ 0 <= tn (count_loop yTrue yPred c) /\
   0 <= fp (count_loop yTrue yPred c) /\ 0 <= fn (count_loop yTrue yPred c))%Z.
Proof.
  revert yPred. induction yTrue as [|yt yTrue IH]; intros yPred c H; [done |].
  simpl. apply IH. by apply tally_nonneg.
Qed.

(** A prediction other than 1 adds nothing to [tp] and [fp]. *)
Lemma tally_no_positive (c : confusion) (yt : Z) (yp : option Z) :
  yp <> Some 1%Z ->
  tp (tally c yt yp) = tp c /\ fp (tally c yt yp) = fp c.
Proof.
  intros H. unfold tally.
  destruct (bool_decide (yp = Some 1%Z)) eqn:E;
    [by apply bool_decide_eq_true in E |].
  rewrite !andb_false_r.
  repeat (match goal with |- context [if ?b then _ else _] => destruct b end);
    done.
Qed.

Lemma count_loop_no_positive (yTrue : list Z) :
  forall (yPred : list Z) (c : confusion),
    Forall (fun yp => yp = 0%Z) yPred ->
    tp (count_loop yTrue yPred c) = tp c /\
    fp (count_loop yTrue yPred c) = fp c.
Proof.
  induction yTrue as [|yt yTrue IH]; intros yPred c H; [done |].
  simpl.
  destruct (IH (tail yPred) (tally c yt (head yPred))) as [-> ->].
  { destruct H; [done |]. done. }
  apply tally_no_positive. destruct H as [|? ? ->]; done.
Qed.

Lemma bool_decide_Some (y v : Z) :
  bool_decide (Some y = Some v) = (y =? v)%Z.
Proof.
  destruct (Z.eqb_spec y v) as [-> | Hne].
  - by apply bool_decide_eq_true_2.
  - apply bool_decide_eq_false_2. congruence.
Qed.

(** The loop counts the pairs of a label and a prediction, kind by kind. *)
Lemma count_loop_counts (yTrue : list Z) :
  forall (yPred : list Z) (c : confusion),
    length yTrue = length yPred ->
    let n t q := Z.of_nat (length (List.filter
                   (fun x : Z * Z => (fst x =? t)%Z && (snd x =? q)%Z)
                   (zip yTrue yPred))) in
    (tp (count_loop yTrue yPred c) = tp c + n 1 1 /\
     tn (count_loop yTrue yPred c) = tn c + n 0 0 /\
     fp (count_loop yTrue yPred c) = fp c + n 0 1 /\
     fn (count_loop yTrue yPred c) = fn c + n 1 0)%Z.
Proof.
  induction yTrue as [|yt yTrue IH]; intros [|yp yPred] c Hlen; cbv zeta;
    try discriminate Hlen.
  - simpl. lia.
  - injection Hlen as Hlen.
    cbn [count_loop tail head zip zip_with List.filter fst snd].
    destruct (IH yPred (tally c yt (Some yp)) Hlen) as (-> & -> & -> & ->).
    unfold tally. rewrite !bool_decide_Some.
    destruct (yt =? 1)%Z eqn:E1, (yt =? 0)%Z eqn:E2,
             (yp =? 1)%Z eqn:E3, (yp =? 0)%Z eqn:E4;
      cbn [andb tp tn fp fn length]; lia.
Qed.

Lemma ndiv_counts (a d : Z) :
  d <> 0%Z -> ndiv (of_Z a) (of_Z d) = Fin (inject_Z a / inject_Z d).
Proof.
  intros Hd. unfold ndiv, of_Z. rewrite Qeq_bool_inject_Z.
  by destruct (Z.eqb_spec d 0).
Qed.

(** The loop counts the pairs of a label and a prediction, kind by kind,
    whatever the two lengths. *)
Lemma count_loop_pairs (yTrue : list Z) :
  forall (yPred : list Z) (c : confusion),
    (tp (count_loop yTrue yPred c) = tp c + Metrics.pairs 1 1 yTrue yPred /\
     tn (count_loop yTrue yPred c) = tn c + Metrics.pairs 0 0 yTrue yPred /\
     fp (count_loop yTrue yPred c) = fp c + Metrics.pairs 0 1 yTrue yPred /\
     fn (count_loop yTrue yPred c) = fn c + Metrics.pairs 1 0 yTrue yPred)%Z.
Proof.
  unfold Metrics.pairs.
  induction yTrue as [|yt yTrue IH]; intros [|yp yPred] c.
  - simpl. lia.
  - simpl. lia.
  - cbn [count_loop tail head].
    destruct (IH [] (tally c yt None)) as (-> & -> & -> & ->).
    assert (Ht : tally c yt None = c).
    { unfold tally. rewrite !bool_decide_eq_false_2 by discriminate.
      by rewrite !andb_false_r. }
    rewrite Ht. by destruct yTrue.
  - cbn [count_loop tail head zip zip_with List.filter fst snd].
    destruct (IH yPred (tally c yt (Some yp))) as (-> & -> & -> & ->).
    unfold tally. rewrite !bool_decide_Some.
    destruct (yt =? 1)%Z eqn:E1, (yt =? 0)%Z eqn:E2,
             (yp =? 1)%Z eqn:E3, (yp =? 0)%Z eqn:E4;
      cbn [andb tp tn fp fn length]; lia.
Qed.

(** C8. Every evaluation call with a live model for which the library
    returns (the loss and accuracy of [evaluate], the probabilities of
    [predict]) returns the metrics of these probabilities: the
    predictions are the probabilities thresholded, [tp], [tn], [fp] and
    [fn] count the positions by label and prediction, precision is
    [tp/(tp+fp)], and 0 when [tp+fp = 0]; recall is [tp/(tp+fn)], and 0
    when [tp+fn = 0]; f1 is [2*precision*recall/(precision+recall)], and
    0 when [precision+recall = 0]; all three are numbers, never NaN, and
    when no prediction is positive the precision is 0. The only error of
    such a call is the library's own. *)
Theorem evaluateModel_metrics (tf : TfBackend) (X_test : list (list val))
  (y_test : list Z) (threshold : num) (st : state) (m : nat) :
  currentModel st = Some m ->
  let a := default [] (arch <$> models st !! m) in
  (forall (la : num * num) (probs : list num),
     tf_evaluate tf a X_test y_test = Some la ->
     tf_predict tf a X_test = Some probs ->
     exists (e : evaluation) (st' : state),
       evaluateModel tf X_test y_test threshold st = (inr e, st') /\
       loss e = fst la /\ accuracy e = snd la /\
       yTrue e = y_test /\ yProb e = probs /\
       yPred e = map (fun p => if nge p threshold then 1 else 0)%Z probs /\
       tp (cm e) = (Metrics.pairs 1 1 y_test (yPred e))%Z /\
       tn (cm e) = (Metrics.pairs 0 0 y_test (yPred e))%Z /\
       fp (cm e) = (Metrics.pairs 0 1 y_test (yPred e))%Z /\
       fn (cm e) = (Metrics.pairs 1 0 y_test (yPred e))%Z /\
       (exists P R F : Q,
           precision e = Fin P /\ recall e = Fin R /\ f1 e = Fin F /\
           ((tp (cm e) + fp (cm e) = 0)%Z -> P == 0) /\
           ((tp (cm e) + fp (cm e) <> 0)%Z ->
            P == inject_Z (tp (cm e)) / inject_Z (tp (cm e) + fp (cm e))) /\
           ((tp (cm e) + fn (cm e) = 0)%Z -> R == 0) /\
           ((tp (cm e) + fn (cm e) <> 0)%Z ->
            R == inject_Z (tp (cm e)) / inject_Z (tp (cm e) + fn (cm e))) /\
           (P + R == 0 -> F == 0) /\
           (~ P + R == 0 -> F == 2 * P * R / (P + R))) /\
       (Forall (fun yp => yp = 0%Z) (yPred e) -> precision e = Fin 0)) /\
  (tf_evaluate tf a X_test y_test = None \/ tf_predict tf a X_test = None ->
   evaluateModel tf X_test y_test threshold st = (inl LibraryError, st)).
Proof.
  intros Hm. cbv zeta. unfold evaluateModel. rewrite Hm.
  set (a := default [] (arch <$> models st !! m)).
  split.
  2: { intros [-> | H]; [done |].
       destruct (tf_evaluate tf a X_test y_test); [| done]. by rewrite H. }
  intros la probs -> ->.
  eexists _, _. split; [reflexivity |].
  unfold score. cbn [cm precision recall f1 yPred yTrue yProb loss accuracy].
  set (yp := map (threshold_pred threshold) probs).
  set (c := count_loop y_test yp {| tp := 0; tn := 0; fp := 0; fn := 0 |}).
  assert (Hnn : (0 <= tp c /\ 0 <= tn c /\ 0 <= fp c /\ 0 <= fn c)%Z).
  { apply count_loop_nonneg. simpl. lia. }
  destruct (count_loop_pairs y_test yp
              {| tp := 0; tn := 0; fp := 0; fn := 0 |}) as (Htp & Htn & Hfp & Hfn).
  fold c in Htp, Htn, Hfp, Hfn. cbn [tp tn fp fn] in Htp, Htn, Hfp, Hfn.
  split; [done |]. split; [done |]. split; [done |]. split; [done |].
  split; [done |].
  split; [lia |]. split; [lia |]. split; [lia |]. split; [lia |].
  set (Pn := if (tp c + fp c =? 0)%Z then of_Z 0
             else ndiv (of_Z (tp c)) (of_Z (tp c + fp c))).
  set (Rn := if (tp c + fn c =? 0)%Z then of_Z 0
             else ndiv (of_Z (tp c)) (of_Z (tp c + fn c))).
  assert (HP : exists P, Pn = Fin P /\
                 ((tp c + fp c = 0)%Z -> P == 0) /\
                 ((tp c + fp c <> 0)%Z ->
                  P == inject_Z (tp c) / inject_Z (tp c + fp c))).
  { unfold Pn. destruct (Z.eqb_spec (tp c + fp c) 0) as [E | E].
    - exists (inject_Z 0). split; [done |]. split; [done |]. tauto.
    - rewrite ndiv_counts by done. eexists. split; [done |].
      split; [tauto | reflexivity]. }
  assert (HR : exists R, Rn = Fin R /\
                 ((tp c + fn c = 0)%Z -> R == 0) /\
                 ((tp c + fn c <> 0)%Z ->
                  R == inject_Z (tp c) / inject_Z (tp c + fn c))).
  { unfold Rn. destruct (Z.eqb_spec (tp c + fn c) 0) as [E | E].
    - exists (inject_Z 0). split; [done |]. split; [done |]. tauto.
    - rewrite ndiv_counts by done. eexists. split; [done |].
      split; [tauto | reflexivity]. }
  destruct HP as (P & HPn & HP0 & HP1). destruct HR as (R & HRn & HR0 & HR1).
  split.
  - rewrite HPn, HRn. cbn [nadd nzero nmul of_Z].
    destruct (Qeq_bool (P + R) 0) eqn:E.
    + exists P, R, (inject_Z 0). apply Qeq_bool_iff in E.
      split_and!; try done; tauto.
    + assert (HE : ~ P + R == 0) by (by apply Qeq_bool_neq).
      exists P, R, (inject_Z 2 * P * R / (P + R)).
      unfold ndiv. rewrite E.
      split_and!; try done; tauto.
  - intros Hall.
    destruct (count_loop_no_positive y_test yp
                {| tp := 0; tn := 0; fp := 0; fn := 0 |} Hall) as [Ht Hf].
    fold c in Ht, Hf. simpl in Ht, Hf. unfold Pn. by rewrite Ht, Hf.
Qed.

Lemma evaluateModel_metrics_witness :
  exists (e : evaluation) (st' : state) (P R F : Q),
    evaluateModel permissive
      [ [VNum 3; VNum 2; VNum 0; VNum 0; VNum 0];
        [VNum 2; VNum 3; VNum 0; VNum 0; VNum 0];
        [VNum 5; VNum 0; VNum 0; VNum 0; VNum 0];
        [VNum 4; VNum 0; VNum 0; VNum 0; VNum 0];
        [VNum 7; VNum 3; VNum 0; VNum 0; VNum 0] ]
      [1%Z; 0%Z; 0%Z; 1%Z; 1%Z] (Fin (1 # 2)) Demo.st_created
    = (inr e, st') /\
    yPred e = [1%Z; 0%Z; 1%Z; 0%Z; 1%Z] /\
    cm e = {| tp := 2%Z; tn := 1%Z; fp := 1%Z; fn := 1%Z |} /\
    precision e = Fin P /\ recall e = Fin R /\ f1 e = Fin F /\
    P == 2 # 3 /\ R == 2 # 3 /\ F == 2 # 3.
Proof.
  destruct (evaluateModel_metrics permissive
              [ [VNum 3; VNum 2; VNum 0; VNum 0; VNum 0];
                [VNum 2; VNum 3; VNum 0; VNum 0; VNum 0];
                [VNum 5; VNum 0; VNum 0; VNum 0; VNum 0];
                [VNum 4; VNum 0; VNum 0; VNum 0; VNum 0];
                [VNum 7; VNum 3; VNum 0; VNum 0; VNum 0] ]
              [1%Z; 0%Z; 0%Z; 1%Z; 1%Z]
              (Fin (1 # 2)) Demo.st_created 0%nat eq_refl) as [H _].
  destruct (H (Fin 0, Fin 1)
              [Fin (3 # 4); Fin (1 # 4); Fin (3 # 4); Fin (1 # 4); Fin (3 # 4)]
              eq_refl eq_refl)
    as (e & st' & He & _).
  injection He as <- _.
  eexists _, _, _, _, _. split; [reflexivity |].
  repeat split; reflexivity.
Defined.

End Evaluation.

(* ===================================================================== *)
(** ** Properties of the tokenizer *)
(* ===================================================================== *)

Section Counting.
Import JS Tokenizer Vocab.

(** *** The frequency map *)

Lemma count_words_tallied (ws : list string) : forall freq,
  count_words ws freq = tallied (List.filter nonempty ws) freq.
Proof.
  unfold count_words, tallied.
  induction ws as [|w ws IH]; intros freq; [done |].
  simpl. destruct (nonempty w); simpl; apply IH.
Qed.

Lemma count_texts_tallied (tk : t) (texts : list val) : forall freq,
  count_texts tk texts freq = tallied (corpus_tokens tk texts) freq.
Proof.
  unfold count_texts, corpus_tokens.
  induction texts as [|text texts IH]; intros freq; [done |].
  simpl. unfold tallied. rewrite fold_left_app. fold (tallied (tokens_of tk text) freq).
  rewrite IH. f_equal. unfold tokens_of.
  destruct (String.eqb_spec (_normalize tk text) "") as [-> | Hne].
  - done.
  - apply count_words_tallied.
Qed.

Lemma tallied_snoc (toks : list string) (w : string) (freq : freq_map) :
  tallied (toks ++ [w]) freq = bump w (tallied toks freq).
Proof. unfold tallied. by rewrite fold_left_app. Qed.

Lemma bump_keys_in (w : string) (freq : freq_map) :
  w ∈ freq.*1 -> (bump w freq).*1 = freq.*1.
Proof.
  induction freq as [|[k c] freq IH]; intros Hin; [by inversion Hin |].
  simpl. destruct (String.eqb_spec k w) as [-> | Hne]; [done |].
  simpl. f_equal. apply IH. simpl in Hin.
  apply elem_of_cons in Hin as [-> | ?]; done.
Qed.

Lemma bump_keys_notin (w : string) (freq : freq_map) :
  w ∉ freq.*1 -> (bump w freq).*1 = freq.*1 ++ [w].
Proof.
  induction freq as [|[k c] freq IH]; intros Hin; [done |].
  simpl in *. apply not_elem_of_cons in Hin as [Hne Hin].
  destruct (String.eqb_spec k w) as [-> | _]; [done |].
  simpl. f_equal. by apply IH.
Qed.

Lemma get_bump (w k : string) (freq : freq_map) :
  get k (bump w freq) = if String.eqb w k then get k freq + 1 else get k freq.
Proof.
  induction freq as [|[k' c] freq IH]; simpl.
  - destruct (String.eqb_spec w k); done.
  - destruct (String.eqb_spec k' w) as [-> | Hne]; simpl.
    + destruct (String.eqb_spec w k); done.
    + destruct (String.eqb_spec k' k) as [-> | Hne'].
      * destruct (String.eqb_spec w k); [congruence | done].
      * apply IH.
Qed.

Lemma get_elem (freq : freq_map) (w : string) (c : Z) :
  NoDup freq.*1 -> (w, c) ∈ freq -> get w freq = c.
Proof.
  induction freq as [|[k c'] freq IH]; intros ND Hin; [by inversion Hin |].
  simpl in *. apply NoDup_cons in ND as [Hk ND].
  apply elem_of_cons in Hin as [[= <- <-] | Hin].
  - by rewrite String.eqb_refl.
  - destruct (String.eqb_spec k w) as [-> | _]; [| by apply IH].
    exfalso. apply Hk. apply list_elem_of_fmap. by exists (w, c).
Qed.

Lemma occurrences_snoc (w k : string) (toks : list string) :
  occurrences k (toks ++ [w])
  = if String.eqb w k then occurrences k toks + 1 else occurrences k toks.
Proof.
  unfold occurrences. rewrite List.filter_app, length_app. simpl.
  rewrite (String.eqb_sym k w).
  destruct (String.eqb w k); simpl; lia.
Qed.

Lemma first_seen_lt (w : string) (toks : list string) :
  w ∈ toks -> (first_seen w toks < length toks)%nat.
Proof.
  induction toks as [|x toks IH]; intros Hin; [by inversion Hin |].
  simpl. destruct (String.eqb_spec x w) as [-> | Hne]; [lia |].
  apply elem_of_cons in Hin as [-> | Hin]; [done |].
  apply IH in Hin. lia.
Qed.

Lemma first_seen_snoc_in (w k : string) (toks : list string) :
  k ∈ toks -> first_seen k (toks ++ [w]) = first_seen k toks.
Proof.
  induction toks as [|x toks IH]; intros Hin; [by inversion Hin |].
  simpl. destruct (String.eqb_spec x k) as [-> | Hne]; [done |].
  apply elem_of_cons in Hin as [-> | Hin]; [done |]. by rewrite IH.
Qed.

Lemma first_seen_snoc_new (w : string) (toks : list string) :
  w ∉ toks -> first_seen w (toks ++ [w]) = length toks.
Proof.
  induction toks as [|x toks IH]; intros Hin; simpl.
  - by rewrite String.eqb_refl.
  - apply not_elem_of_cons in Hin as [Hne Hin].
    destruct (String.eqb_spec x w) as [-> | _]; [done |]. by rewrite IH.
Qed.

Lemma first_seen_sorted_snoc (l toks : list string) (w : string) :
  Forall (fun k => k ∈ toks) l ->
  StronglySorted (fun a b => (first_seen a toks < first_seen b toks)%nat) l ->
  StronglySorted (fun a b => (first_seen a (toks ++ [w])
                              < first_seen b (toks ++ [w]))%nat) l.
Proof.
  induction l as [|a l IH]; intros Hall HS; [constructor |].
  apply Forall_cons in Hall as [Ha Hall].
  apply StronglySorted_inv in HS as [HS Hfa].
  constructor; [by apply IH |].
  rewrite Forall_forall in Hfa, Hall. apply Forall_forall.
  intros b Hb. rewrite !first_seen_snoc_in by auto. auto.
Qed.

(** What the frequency map of a corpus holds: one entry per distinct
    token, in first-seen order, with the number of its occurrences. *)
Lemma tallied_spec (toks : list string) :
  let freq := tallied toks [] in
  NoDup freq.*1 /\
  (forall w, w ∈ freq.*1 <-> w ∈ toks) /\
  (forall w, get w freq = occurrences w toks) /\
  StronglySorted (fun a b => (first_seen a toks < first_seen b toks)%nat)
    freq.*1.
Proof.
  induction toks as [|w toks IH] using rev_ind; cbv zeta.
  - split; [constructor |]. split; [done |]. split; [done | constructor].
  - destruct IH as (ND & Hkeys & Hget & Hsorted).
    rewrite tallied_snoc. set (freq := tallied toks []) in *.
    assert (Hmono : StronglySorted
              (fun a b => (first_seen a (toks ++ [w])
                           < first_seen b (toks ++ [w]))%nat) freq.*1).
    { apply first_seen_sorted_snoc; [| done].
      apply Forall_forall. intros k. apply Hkeys. }
    split; [| split; [| split]].
    + destruct (decide (w ∈ freq.*1)) as [Hin | Hin].
      * by rewrite bump_keys_in.
      * rewrite bump_keys_notin by done. apply NoDup_app.
        split; [done |]. split; [| apply NoDup_singleton].
        intros x Hx ->%list_elem_of_singleton. done.
    + intros k. rewrite elem_of_app, list_elem_of_singleton.
      destruct (decide (w ∈ freq.*1)) as [Hin | Hin].
      * rewrite bump_keys_in by done. rewrite Hkeys.
        split; [auto |]. intros [? | ->]; [done | by apply Hkeys].
      * rewrite bump_keys_notin by done.
        rewrite elem_of_app, list_elem_of_singleton. by rewrite Hkeys.
    + intros k. by rewrite get_bump, occurrences_snoc, Hget.
    + destruct (decide (w ∈ freq.*1)) as [Hin | Hin].
      * by rewrite bump_keys_in.
      * rewrite bump_keys_notin by done.
        apply StronglySorted_app_2; [| done | repeat constructor].
        intros a b Ha ->%list_elem_of_singleton.
        rewrite first_seen_snoc_in by (by apply Hkeys).
        rewrite first_seen_snoc_new by (by rewrite <- Hkeys).
        apply first_seen_lt. by apply Hkeys.
Qed.

End Counting.

Section SortedLists.
Context {A : Type}.

Lemma StronglySorted_lookup (R : relation A) (l : list A) :
  StronglySorted R l ->
  forall (i j : nat) (a b : A),
    (i < j)%nat -> l !! i = Some a -> l !! j = Some b -> R a b.
Proof.
  induction 1 as [|x l HS IH Hfa]; intros i j a b Hij Hi Hj;
    [by rewrite lookup_nil in Hi |].
  destruct j as [|j]; [lia |]. simpl in Hj.
  destruct i as [|i]; simpl in Hi.
  - injection Hi as <-. rewrite Forall_forall in Hfa.
    apply Hfa. by eapply list_elem_of_lookup_2.
  - apply (IH i j); [lia | done | done].
Qed.

Lemma StronglySorted_impl_elem (R1 R2 : relation A) (l : list A) :
  (forall x y, x ∈ l -> y ∈ l -> R1 x y -> R2 x y) ->
  StronglySorted R1 l -> StronglySorted R2 l.
Proof.
  intros Himp HS. induction HS as [|x l HS IH Hfa]; [constructor |].
  constructor.
  - apply IH. intros a b Ha Hb. apply Himp; by right.
  - rewrite Forall_forall in Hfa. apply Forall_forall. intros y Hy.
    apply Himp; [by left | by right | by apply Hfa].
Qed.

Lemma StronglySorted_unfmap {B} (f : A -> B) (R : relation B) (l : list A) :
  StronglySorted R (f <$> l) ->
  StronglySorted (fun x y => R (f x) (f y)) l.
Proof.
  induction l as [|x l IH]; intros HS; [constructor |].
  rewrite fmap_cons in HS. apply StronglySorted_inv in HS as [HS Hfa].
  constructor; [by apply IH |]. by rewrite Forall_fmap in Hfa.
Qed.

End SortedLists.

Section SortDesc.
Import JS Tokenizer Vocab.

(** The order of the entries before the sort. *)
Variable T : relation (string * Z).
Local Abbreviation desc_stable := (Vocab.desc_stable T).

Lemma insert_desc_perm (x : string * Z) (l : freq_map) :
  insert_desc x l ≡ₚ x :: l.
Proof.
  induction l as [|y l IH]; [done |]. simpl.
  destruct (snd y <=? snd x); [done |].
  by rewrite IH, Permutation_swap.
Qed.

Lemma sort_desc_perm (l : freq_map) : sort_desc l ≡ₚ l.
Proof.
  induction l as [|x l IH]; [done |]. unfold sort_desc in *. simpl.
  by rewrite insert_desc_perm, IH.
Qed.

Lemma insert_desc_sorted (x : string * Z) (l : freq_map) :
  StronglySorted desc_stable l -> Forall (T x) l ->
  StronglySorted desc_stable (insert_desc x l).
Proof.
  induction 1 as [|y l HS IH Hfa]; intros HT; simpl.
  - repeat constructor.
  - apply Forall_cons in HT as [HTy HT].
    destruct (Z.leb_spec (snd y) (snd x)) as [Hle | Hgt].
    + assert (Hxy : desc_stable x y).
      { unfold Vocab.desc_stable.
        destruct (Z.eq_dec (snd x) (snd y)); [right | left]; [done | lia]. }
      constructor; [by constructor |]. constructor; [done |].
      rewrite Forall_forall in Hfa, HT. apply Forall_forall. intros z Hz.
      specialize (Hfa z Hz). specialize (HT z Hz).
      unfold Vocab.desc_stable in *.
      destruct (Z.eq_dec (snd x) (snd z)); [right | left]; [done | lia].
    + constructor; [by apply IH |].
      rewrite insert_desc_perm. constructor; [| done].
      left. lia.
Qed.

Lemma sort_desc_sorted (l : freq_map) :
  StronglySorted T l -> StronglySorted desc_stable (sort_desc l).
Proof.
  induction 1 as [|x l HS IH Hfa]; [constructor |].
  unfold sort_desc in *. simpl. apply insert_desc_sorted; [done |].
  by rewrite sort_desc_perm.
Qed.

End SortDesc.

Section Assign.
Import JS Tokenizer.

Lemma assign_wordIndex_other (top : list string) :
  forall (idx : Z) (wi : gmap string Z) (iw : gmap Z string) (w : string),
    w ∉ top -> (assign top idx wi iw).1 !! w = wi !! w.
Proof.
  induction top as [|x top IH]; intros idx wi iw w Hw; [done |].
  apply not_elem_of_cons in Hw as [Hne Hw]. simpl.
  rewrite IH by done. by rewrite lookup_insert_ne.
Qed.

Lemma assign_indexWord_other (top : list string) :
  forall (idx : Z) (wi : gmap string Z) (iw : gmap Z string) (j : Z),
    j < idx -> (assign top idx wi iw).2 !! j = iw !! j.
Proof.
  induction top as [|x top IH]; intros idx wi iw j Hj; [done |].
  simpl. rewrite IH by lia. rewrite lookup_insert_ne; [done | lia].
Qed.

(** The [k]-th word of the list gets the id [idx + k], both ways. *)
Lemma assign_lookup (top : list string) :
  NoDup top ->
  forall (idx : Z) (wi : gmap string Z) (iw : gmap Z string)
         (k : nat) (w : string),
    top !! k = Some w ->
    (assign top idx wi iw).1 !! w = Some (idx + Z.of_nat k) /\
    (assign top idx wi iw).2 !! (idx + Z.of_nat k) = Some w.
Proof.
  induction 1 as [|x top Hx ND IH]; intros idx wi iw k w Hk;
    [by rewrite lookup_nil in Hk |].
  destruct k as [|k]; simpl in *.
  - injection Hk as ->. rewrite Z.add_0_r.
    rewrite assign_wordIndex_other by done.
    rewrite assign_indexWord_other by lia.
    by rewrite !lookup_insert_eq.
  - destruct (IH (idx + 1) (<[x:=idx]> wi) (<[idx:=x]> iw) k w Hk) as [H1 H2].
    replace (idx + Z.of_nat (S k)) with (idx + 1 + Z.of_nat k) by lia.
    done.
Qed.

Lemma assign_size (top : list string) :
  NoDup top ->
  forall (idx : Z) (wi : gmap string Z) (iw : gmap Z string),
    (forall w, w ∈ top -> wi !! w = None) ->
    size (assign top idx wi iw).1 = (size wi + length top)%nat.
Proof.
  induction 1 as [|x top Hx ND IH]; intros idx wi iw Hfresh; simpl; [lia |].
  rewrite IH.
  - rewrite map_size_insert_None; [lia |]. apply Hfresh. by left.
  - intros w Hw. rewrite lookup_insert_ne.
    + apply Hfresh. by right.
    + intros ->. done.
Qed.

End Assign.

Section Characters.
Import JS Tokenizer Vocab.

Variable p : ascii -> bool.
Hypothesis p_space : p " " = true.

Lemma all_chars_replace_class (cls : ascii -> bool) (s : string) :
  (forall c, cls c = false -> p c = true) ->
  forall b, all_chars p (replace_runs cls b s) = true.
Proof.
  intros Hcls. induction s as [|c s IH]; intros b; [done |].
  simpl. destruct (cls c) eqn:E.
  - destruct b; simpl; rewrite ?p_space; apply IH.
  - simpl. by rewrite (Hcls c E), IH.
Qed.

Lemma all_chars_replace_keep (cls : ascii -> bool) (s : string) :
  all_chars p s = true ->
  forall b, all_chars p (replace_runs cls b s) = true.
Proof.
  induction s as [|c s IH]; intros Hs b; [done |].
  simpl in Hs. apply andb_true_iff in Hs as [Hc Hs].
  simpl. destruct (cls c).
  - destruct b; simpl; rewrite ?p_space; by apply IH.
  - simpl. by rewrite Hc, IH.
Qed.

Lemma all_chars_trimStart (s : string) :
  all_chars p s = true -> all_chars p (trimStart s) = true.
Proof.
  induction s as [|c s IH]; intros Hs; [done |].
  simpl. destruct (is_space c); [| done].
  simpl in Hs. apply andb_true_iff in Hs as [_ Hs]. by apply IH.
Qed.

Lemma all_chars_trimEnd (s : string) :
  all_chars p s = true -> all_chars p (trimEnd s) = true.
Proof.
  induction s as [|c s IH]; intros Hs; [done |].
  simpl in Hs. apply andb_true_iff in Hs as [Hc Hs].
  specialize (IH Hs). simpl. destruct (trimEnd s) as [|c' r].
  - destruct (is_space c); [done |]. simpl. by rewrite Hc.
  - simpl in *. by rewrite Hc, IH.
Qed.

Lemma all_chars_split (sep : ascii) (s : string) :
  all_chars p s = true ->
  Forall (fun w => all_chars p w = true) (split sep s).
Proof.
  induction s as [|c s IH]; intros Hs; [by repeat constructor |].
  simpl in Hs. apply andb_true_iff in Hs as [Hc Hs].
  specialize (IH Hs). simpl. destruct (Ascii.eqb c sep).
  - by constructor.
  - destruct (split sep s) as [|w ws]; [by repeat constructor; simpl; rewrite Hc |].
    apply Forall_cons in IH as [Hw Hws].
    constructor; [| done]. simpl. by rewrite Hc, Hw.
Qed.

Lemma all_chars_app (s1 s2 : string) :
  all_chars p (s1 ++ s2) = all_chars p s1 && all_chars p s2.
Proof.
  induction s1 as [|c s1 IH]; [done |]. simpl.
  by rewrite IH, andb_assoc.
Qed.

Lemma all_chars_join (ws : list string) :
  Forall (fun w => all_chars p w = true) ws ->
  all_chars p (join ws) = true.
Proof.
  unfold join. induction 1 as [|w ws Hw Hws IH]; [done |].
  simpl. destruct ws as [|w' ws]; [done |].
  rewrite !all_chars_app, Hw, IH. simpl. by rewrite p_space.
Qed.

End Characters.

Section Vocabulary.
Import JS Tokenizer Vocab.

Lemma kept_space : kept " " = true.
Proof. reflexivity. Qed.

(** A normal form holds only characters of the class [[a-z0-9'\s]]. *)
Lemma normalize_kept (tk : t) (text : val) :
  all_chars kept (_normalize tk text) = true.
Proof.
  destruct text as [| | | | |s|]; try done. simpl.
  destruct (String.eqb s ""); [done |].
  assert (Hs : all_chars kept
                 (trim (replace_runs is_space false
                          (replace_runs (fun c => negb (kept c)) false
                             (toLowerCase s)))) = true).
  { unfold trim.
    apply all_chars_trimEnd, all_chars_trimStart.
    apply all_chars_replace_keep; [apply kept_space |].
    apply all_chars_replace_class; [apply kept_space |].
    intros c Hc. by apply negb_false_iff in Hc. }
  destruct (removeStopwords tk); simpl; [| done].
  apply all_chars_join; [apply kept_space |].
  apply Forall_forall. intros w Hw.
  apply list_elem_of_In, filter_In in Hw as [Hw _].
  pose proof (all_chars_split kept " " _ Hs) as Hall.
  rewrite Forall_forall in Hall. by apply Hall, list_elem_of_In.
Qed.

Lemma corpus_token_kept (tk : t) (texts : list val) (w : string) :
  w ∈ corpus_tokens tk texts -> all_chars kept w = true.
Proof.
  intros Hw. apply list_elem_of_In, in_flat_map in Hw as (text & _ & Hw).
  unfold tokens_of in Hw. apply filter_In in Hw as [Hw _].
  pose proof (all_chars_split kept " " _ (normalize_kept tk text)) as Hall.
  rewrite Forall_forall in Hall. by apply Hall, list_elem_of_In.
Qed.

(** No token is one of the reserved keys. *)
Lemma corpus_token_not_reserved (tk : t) (texts : list val) (w : string) :
  w ∈ corpus_tokens tk texts ->
  ({[ "<PAD>"%string := 0; "<OOV>"%string := 1 ]} : gmap string Z) !! w = None.
Proof.
  intros Hw%corpus_token_kept.
  assert (H1 : "<PAD>"%string <> w) by (intros <-; discriminate Hw).
  assert (H2 : "<OOV>"%string <> w) by (intros <-; discriminate Hw).
  rewrite lookup_insert_ne by done. by apply lookup_singleton_ne.
Qed.

(** The ranking behind [top_words]: every distinct token once, the more
    frequent first and, among equally frequent ones, the one seen first;
    [top_words] is its prefix of length [max(0, numWords - 2)]. *)
Lemma top_words_ranking (tk : t) (texts : list val) :
  let toks := corpus_tokens tk texts in
  exists ranked : list string,
    top_words tk texts
    = take (Z.to_nat (Z.max 0 (numWords tk - 2))) ranked /\
    NoDup ranked /\
    (forall w, w ∈ ranked <-> w ∈ toks) /\
    StronglySorted (ranks_before toks) ranked /\
    Z.of_nat (length ranked) = distinct_count toks.
Proof.
  cbv zeta. set (toks := corpus_tokens tk texts).
  destruct (tallied_spec toks) as (ND & Hkeys & Hget & HS).
  set (freq := tallied toks []) in *.
  set (T := fun x y : string * Z =>
              (first_seen (fst x) toks < first_seen (fst y) toks)%nat).
  pose proof (sort_desc_perm freq) as Hperm.
  assert (Hperm1 : (sort_desc freq).*1 ≡ₚ freq.*1) by (by rewrite Hperm).
  exists (sort_desc freq).*1. split; [| split; [| split; [| split]]].
  - unfold top_words. rewrite count_texts_tallied. fold toks freq.
    rewrite slice0_take by lia. by rewrite map_is_fmap, fmap_take.
  - by rewrite Hperm1.
  - intros w. by rewrite Hperm1.
  - apply (StronglySorted_fmap fst
             (fun x y => ranks_before toks (fst x) (fst y))); [done |].
    apply (StronglySorted_impl_elem (desc_stable T));
      [| apply sort_desc_sorted;
         by apply (StronglySorted_unfmap fst
                     (fun a b => (first_seen a toks < first_seen b toks)%nat))].
    intros [w1 c1] [w2 c2] H1 H2. rewrite Hperm in H1, H2.
    apply get_elem in H1; [| done]. apply get_elem in H2; [| done].
    rewrite Hget in H1, H2. subst c1 c2.
    unfold desc_stable, ranks_before, T. simpl. tauto.
  - unfold distinct_count. f_equal. rewrite Hperm1.
    apply Permutation_length, NoDup_Permutation;
      [done | apply NoDup_remove_dups |].
    intros w. by rewrite Hkeys, elem_of_remove_dups.
Qed.

Lemma fitOnTexts_fields (tk : t) (texts : list val) :
  let r := assign (top_words tk texts) 2 (wordIndex tk) (indexWord tk) in
  wordIndex (fitOnTexts tk texts) = r.1 /\
  indexWord (fitOnTexts tk texts) = r.2 /\
  vocabSize (fitOnTexts tk texts) = Some (Z.of_nat (size r.1)).
Proof. cbv zeta. unfold fitOnTexts. by destruct (assign _ _ _ _). Qed.

(** C6 fails as stated: with [numWords = 1] no token is assigned and
    [vocabSize] is 2, while [min(numWords - 2, distinct)] is [-1] (the
    corpus has 7 distinct tokens) and would give a vocabulary of 1. *)
Lemma fitOnTexts_numWords_below_two :
  vocabSize (fitOnTexts (constructor 1 false) Demo.texts) = Some 2 /\
  length (top_words (constructor 1 false) Demo.texts) = 0%nat /\
  distinct_count (corpus_tokens (constructor 1 false) Demo.texts) = 7 /\
  Z.min (1 - 2)
    (distinct_count (corpus_tokens (constructor 1 false) Demo.texts)) = -1.
Proof. vm_compute. repeat split; reflexivity. Qed.

(** C6, amended. After [fitOnTexts] on any corpus, with a new tokenizer:
    the ids 2, 3, ... go to the tokens in descending corpus frequency,
    ties broken by first-seen order, the ids 0 and 1 stay reserved; the
    number of tokens that get an id is
    [min(max(0, numWords - 2), number of distinct tokens)]; and
    [vocabSize] is 2 plus that number. In particular [numWords = 5] and
    10 distinct tokens give [vocabSize = 5]. *)
Theorem fitOnTexts_vocabulary (numWords : Z) (rs : bool)
  (texts : list val) :
  let tk0 := constructor numWords rs in
  let tk := fitOnTexts tk0 texts in
  let toks := corpus_tokens tk0 texts in
  let top := top_words tk0 texts in
  (forall (k : nat) (w : string),
      top !! k = Some w ->
      wordIndex tk !! w = Some (2 + Z.of_nat k) /\
      indexWord tk !! (2 + Z.of_nat k) = Some w) /\
  (wordIndex tk !! "<PAD>"%string = Some 0 /\
   wordIndex tk !! "<OOV>"%string = Some 1) /\
  NoDup top /\
  (forall w, w ∈ top -> w ∈ toks) /\
  (forall (i j : nat) (w1 w2 : string),
      (i < j)%nat -> top !! i = Some w1 -> top !! j = Some w2 ->
      ranks_before toks w1 w2) /\
  (forall w w' : string,
      w ∈ top -> w' ∈ toks -> w' ∉ top -> ranks_before toks w w') /\
  Z.of_nat (length top)
  = Z.min (Z.max 0 (numWords - 2)) (distinct_count toks) /\
  vocabSize tk = Some (2 + Z.of_nat (length top)) /\
  (numWords = 5 -> distinct_count toks = 10 -> vocabSize tk = Some 5).
Proof.
  cbv zeta. set (tk0 := constructor numWords rs).
  set (toks := corpus_tokens tk0 texts).
  destruct (top_words_ranking tk0 texts)
    as (ranked & Htop & ND & Hmem & HS & Hlen).
  fold toks in Hmem, HS, Hlen.
  change (Tokenizer.numWords tk0) with numWords in Htop.
  set (n := Z.to_nat (Z.max 0 (numWords - 2))) in *.
  set (top := top_words tk0 texts) in *.
  destruct (fitOnTexts_fields tk0 texts) as (Hwi & Hiw & Hvs).
  fold top in Hwi, Hiw, Hvs.
  change (wordIndex tk0)
    with ({[ "<PAD>"%string := 0; "<OOV>"%string := 1 ]} : gmap string Z)
    in Hwi, Hvs.
  assert (NDtop : NoDup top).
  { rewrite Htop. apply (sublist_NoDup _ ranked ND), sublist_take. }
  assert (Hsub : forall w, w ∈ top -> w ∈ toks).
  { intros w Hw. apply Hmem. rewrite Htop in Hw.
    apply elem_of_take in Hw as (i & Hi & _).
    by eapply list_elem_of_lookup_2. }
  assert (Hfresh : forall w, w ∈ top ->
            ({[ "<PAD>"%string := 0; "<OOV>"%string := 1 ]}
               : gmap string Z) !! w = None).
  { intros w Hw. by eapply corpus_token_not_reserved, Hsub. }
  assert (Hlentop : Z.of_nat (length top)
                    = Z.min (Z.max 0 (numWords - 2)) (distinct_count toks)).
  { rewrite Htop, length_take, <- Hlen. unfold n. lia. }
  assert (Hsize : vocabSize (fitOnTexts tk0 texts)
                  = Some (2 + Z.of_nat (length top))).
  { rewrite Hvs, (assign_size top NDtop) by done.
    rewrite map_size_insert_None, map_size_singleton by done.
    f_equal. lia. }
  split_and!; try done.
  - intros k w Hk. rewrite Hwi, Hiw. by apply assign_lookup.
  - rewrite Hwi, assign_wordIndex_other; [done |].
    intros Hin. apply Hfresh in Hin. done.
  - rewrite Hwi, assign_wordIndex_other; [done |].
    intros Hin. apply Hfresh in Hin. done.
  - intros i j w1 w2 Hij H1 H2. rewrite Htop in H1, H2.
    apply lookup_take_Some in H1 as [H1 _].
    apply lookup_take_Some in H2 as [H2 _].
    by apply (StronglySorted_lookup _ _ HS i j).
  - intros w w' Hw Hw' Hnot.
    rewrite <- (take_drop n ranked) in HS.
    apply (StronglySorted_app_1_elem_of _ _ _ _ _ HS); [by rewrite <- Htop |].
    apply Hmem in Hw'. rewrite <- (take_drop n ranked) in Hw'.
    apply elem_of_app in Hw' as [Hw' | Hw']; [| done].
    by rewrite <- Htop in Hw'.
  - intros -> H10. rewrite Hsize, Hlentop, H10. done.
Qed.

(** The amended statement on the corpus of the examples, [numWords = 5]:
    the three most frequent tokens get the ids 2, 3 and 4. *)
Example fitOnTexts_demo :
  let tk := fitOnTexts (constructor 5 false) Demo.texts in
  top_words (constructor 5 false) Demo.texts = ["great"; "food"; "terrible"]%string /\
  vocabSize tk = Some 5 /\
  wordIndex tk !! "great"%string = Some 2 /\
  wordIndex tk !! "food"%string = Some 3 /\
  wordIndex tk !! "terrible"%string = Some 4 /\
  wordIndex tk !! "service"%string = None.
Proof. vm_compute. repeat split; reflexivity. Qed.

(** C7. The code at the failing input: a tokenizer fitted on a corpus
    without the word, then [textsToSequences(["constructor"])]. The token
    was assigned no id, yet it is not encoded as OOV (1): the lookup
    [wordIndex["constructor"]] finds the member every object literal
    inherits, which [??] lets through. *)
Theorem textsToSequences_inherited_key :
  _fitted Demo.tk = true /\
  wordIndex Demo.tk !! "constructor"%string = None /\
  textsToSequences Demo.tk [VStr "great constructor zzz"]
  = inr [[VNum 2; VBuiltin "constructor"; VNum OOV]].
Proof. vm_compute. repeat split; reflexivity. Qed.

(** Apart from the names in [Object_prototype_keys], encoding is as
    specified: an assigned token gives its id, any other token OOV, and a
    text with an empty normal form the empty sequence. *)
Lemma encode_text_spec (tk : t) (text : val) :
  (_normalize tk text = ""%string -> encode_text tk text = []) /\
  (_normalize tk text <> ""%string ->
   encode_text tk text
   = (fun w => match wordIndex tk !! w with
               | Some id => VNum id
               | None => if existsb (String.eqb w) Object_prototype_keys
                         then VBuiltin w else VNum OOV
               end) <$> split " " (_normalize tk text)).
Proof.
  unfold encode_text. split.
  - by intros ->.
  - intros Hne. destruct (String.eqb_spec (_normalize tk text) "");
      [done |].
    rewrite map_is_fmap. apply list_fmap_ext. intros _ w _.
    unfold js_get. destruct (wordIndex tk !! w); [done |].
    by destruct (existsb _ _).
Qed.

End Vocabulary.

(* ===================================================================== *)
(** ** More on [_normalize]: the shape of a normal form *)
(* ===================================================================== *)

Section NormalForm.
Import JS Tokenizer Vocab Words.

Lemma word_char_facts (c : ascii) :
  word_char c = true ->
  kept c = true /\ is_space c = false /\ Ascii.eqb c " " = false /\
  lower_char c = c.
Proof.
  destruct c as [[] [] [] [] [] [] [] []]; intros H;
    first [discriminate H | by repeat split].
Qed.

Lemma space_not_word (c : ascii) :
  kept c = true -> is_space c = false -> word_char c = true.
Proof. unfold word_char. by intros -> ->. Qed.

Lemma is_space_eqb (c : ascii) : Ascii.eqb c " " = true -> is_space c = true.
Proof. by intros ->%Ascii.eqb_eq. Qed.

(** Collapsing the whitespace of a string of kept characters leaves word
    characters and single spaces. *)
Lemma spaced_collapse (s : string) :
  all_chars kept s = true ->
  forall b, spaced b (replace_runs is_space b s) = true.
Proof.
  induction s as [|c s IH]; intros Hs b; [done |].
  simpl in Hs. apply andb_true_iff in Hs as [Hc Hs]. simpl.
  destruct (is_space c) eqn:Esp.
  - destruct b; [by apply IH |]. simpl. by apply IH.
  - pose proof (space_not_word c Hc Esp) as Hw.
    destruct (word_char_facts c Hw) as (_ & _ & Heq & _).
    simpl. rewrite Heq, Hw. by apply IH.
Qed.

Lemma spaced_weaken (s : string) (b : bool) :
  spaced true s = true -> spaced b s = true.
Proof.
  destruct s as [|c s]; [done |]. simpl.
  destruct (Ascii.eqb c " "); [done |]. done.
Qed.

Lemma spaced_trimStart (s : string) :
  forall b, spaced b s = true -> spaced true (trimStart s) = true.
Proof.
  induction s as [|c s IH]; intros b Hs; [done |].
  simpl in Hs. simpl. destruct (Ascii.eqb c " ") eqn:Ec.
  - rewrite (is_space_eqb c Ec). apply andb_true_iff in Hs as [_ Hs].
    by apply (IH true).
  - apply andb_true_iff in Hs as [Hw Hs].
    destruct (word_char_facts c Hw) as (_ & -> & _ & _).
    simpl. by rewrite Ec, Hw.
Qed.

Lemma wellspaced_trimEnd (s : string) :
  forall b, spaced b s = true ->
            trimEnd s = ""%string \/ wellspaced b (trimEnd s) = true.
Proof.
  induction s as [|c s IH]; intros b Hs; [by left |].
  simpl in Hs. simpl. destruct (Ascii.eqb c " ") eqn:Ec.
  - apply andb_true_iff in Hs as [Hb Hs].
    rewrite (is_space_eqb c Ec).
    destruct (IH true Hs) as [-> | Hw]; [by left |].
    destruct (trimEnd s) as [|c' r] eqn:Er; [by left |].
    right. simpl. rewrite Ec, Hb. exact Hw.
  - apply andb_true_iff in Hs as [Hw Hs].
    destruct (word_char_facts c Hw) as (_ & Hsp & _ & _). rewrite Hsp.
    right. destruct (IH false Hs) as [-> | Hr].
    + simpl. by rewrite Ec, Hw.
    + destruct (trimEnd s) as [|c' r] eqn:Er; simpl; rewrite Ec, Hw; [done |].
      exact Hr.
Qed.

(** The string [_normalize] works with before the stopwords go: empty, or
    words separated by single spaces. *)
Lemma stripped_wellspaced (s : string) :
  let stripped :=
    trim (replace_runs is_space false
            (replace_runs (fun c => negb (kept c)) false (toLowerCase s))) in
  stripped = ""%string \/ wellspaced true stripped = true.
Proof.
  cbv zeta. unfold trim. apply wellspaced_trimEnd.
  apply (spaced_trimStart _ false), spaced_collapse.
  apply all_chars_replace_class; [reflexivity |].
  intros c Hc. by apply negb_false_iff in Hc.
Qed.

Lemma wellspaced_split (s : string) :
  forall b, wellspaced b s = true ->
  exists w ws, split " " s = w :: ws /\
               all_chars word_char w = true /\
               (b = true -> w <> ""%string) /\
               Forall is_word ws.
Proof.
  induction s as [|c s IH]; intros b Hs.
  - exists ""%string, []. simpl in *. destruct b; [done |]. by repeat split.
  - simpl in Hs. simpl. destruct (Ascii.eqb c " ") eqn:Ec.
    + apply andb_true_iff in Hs as [Hb Hs].
      destruct (IH true Hs) as (w & ws & -> & Hw & Hne & Hws).
      exists ""%string, (w :: ws). split; [done |]. split; [done |].
      split; [by destruct b |].
      constructor; [| done]. split; [by apply Hne | done].
    + apply andb_true_iff in Hs as [Hc Hs].
      destruct (IH false Hs) as (w & ws & -> & Hw & _ & Hws).
      exists (String c w), ws. split; [done |].
      split; [by simpl; rewrite Hc |]. by split.
Qed.

Lemma wellspaced_words (s : string) :
  wellspaced true s = true -> Forall is_word (split " " s).
Proof.
  intros (w & ws & -> & Hw & Hne & Hws)%wellspaced_split.
  constructor; [| done]. split; [by apply Hne | done].
Qed.

Lemma split_not_nil (sep : ascii) (s : string) : split sep s <> [].
Proof.
  induction s as [|c s IH]; [done |]. simpl.
  destruct (Ascii.eqb c sep); [done |]. by destruct (split sep s).
Qed.

Lemma concat_cons2 (sep x y : string) (l : list string) :
  String.concat sep (x :: y :: l)
  = (x ++ sep ++ String.concat sep (y :: l))%string.
Proof. reflexivity. Qed.

Lemma join_split (s : string) : join (split " " s) = s.
Proof.
  unfold join. induction s as [|c s IH]; [done |]. simpl.
  destruct (Ascii.eqb_spec c " ") as [-> | Hne].
  - pose proof (split_not_nil " " s) as Hn.
    destruct (split " " s) as [|w ws]; [done |].
    rewrite concat_cons2, IH. done.
  - pose proof (split_not_nil " " s) as Hn.
    destruct (split " " s) as [|w ws]; [done |].
    destruct ws as [|w' ws].
    + simpl in *. by rewrite IH.
    + rewrite concat_cons2. rewrite concat_cons2 in IH.
      rewrite <- IH. reflexivity.
Qed.

Lemma split_no_space (s : string) :
  Forall (fun w => no_space w = true) (split " " s).
Proof.
  induction s as [|c s IH]; [by repeat constructor |]. simpl.
  destruct (Ascii.eqb c " ") eqn:Ec; [by constructor |].
  pose proof (split_not_nil " " s) as Hn.
  destruct (split " " s) as [|w ws]; [done |].
  apply Forall_cons in IH as [Hw Hws]. constructor; [| done].
  unfold no_space in *. simpl. by rewrite Ec, Hw.
Qed.

Lemma split_word_alone (w : string) :
  no_space w = true -> split " " w = [w].
Proof.
  unfold no_space. induction w as [|c w IH]; intros Hw; [done |].
  simpl in Hw. apply andb_true_iff in Hw as [Hc Hw].
  simpl. apply negb_true_iff in Hc. rewrite Hc, (IH Hw). done.
Qed.

Lemma split_word_app (w t : string) :
  no_space w = true ->
  split " " (w ++ String " " t) = w :: split " " t.
Proof.
  unfold no_space. induction w as [|c w IH]; intros Hw; [done |].
  simpl in Hw. apply andb_true_iff in Hw as [Hc Hw].
  simpl. apply negb_true_iff in Hc. rewrite Hc, (IH Hw). done.
Qed.

(** Splitting undoes joining, for strings that hold no space. *)
Lemma split_join (ws : list string) :
  Forall (fun w => no_space w = true) ws -> ws <> [] ->
  split " " (join ws) = ws.
Proof.
  unfold join. induction 1 as [|w ws Hw Hws IH]; intros Hne; [done |].
  destruct ws as [|w' ws].
  - simpl. by apply split_word_alone.
  - rewrite concat_cons2.
    change (w ++ " " ++ String.concat " " (w' :: ws))%string
      with (w ++ String " " (String.concat " " (w' :: ws)))%string.
    rewrite split_word_app by done. by rewrite IH.
Qed.

Lemma is_word_no_space (w : string) : is_word w -> no_space w = true.
Proof.
  intros [_ Hw]. unfold no_space. induction w as [|c w IH]; [done |].
  simpl in *. apply andb_true_iff in Hw as [Hc Hw].
  destruct (word_char_facts c Hc) as (_ & _ & -> & _). by rewrite IH.
Qed.

Lemma wellspaced_app_word (w t : string) (b : bool) :
  is_word w -> wellspaced b (w ++ t) = wellspaced false t.
Proof.
  intros [Hne Hw]. revert b. induction w as [|c w IH]; intros b; [done |].
  simpl in Hw. apply andb_true_iff in Hw as [Hc Hw].
  destruct (word_char_facts c Hc) as (_ & _ & Ec & _).
  simpl. rewrite Ec, Hc. simpl.
  destruct w as [|c' w]; [done |]. by apply IH.
Qed.

Lemma append_empty (w : string) : (w ++ "")%string = w.
Proof.
  induction w as [|c w IH]; [done |].
  change (String c (w ++ "") = String c w). by rewrite IH.
Qed.

Lemma wellspaced_join (ws : list string) :
  Forall is_word ws -> ws <> [] -> wellspaced true (join ws) = true.
Proof.
  unfold join. induction 1 as [|w ws Hw Hws IH]; intros Hne; [done |].
  destruct ws as [|w' ws].
  - simpl. pose proof (wellspaced_app_word w "" true Hw) as H.
    rewrite append_empty in H. by rewrite H.
  - rewrite concat_cons2, wellspaced_app_word by done.
    change (wellspaced true (String.concat " " (w' :: ws)) = true).
    by apply IH.
Qed.

Lemma filter_filter {A} (f g : A -> bool) (l : list A) :
  List.filter f (List.filter g l) = List.filter (fun x => g x && f x) l.
Proof.
  induction l as [|x l IH]; [done |]. simpl.
  destruct (g x); simpl; [destruct (f x) |]; by rewrite IH.
Qed.

Lemma filter_all {A} (f : A -> bool) (l : list A) :
  Forall (fun x => f x = true) l -> List.filter f l = l.
Proof.
  induction 1 as [|x l Hx Hl IH]; [done |]. simpl. by rewrite Hx, IH.
Qed.

Lemma Forall_filter_keep {A} (f : A -> bool) (l : list A) :
  Forall (fun x => f x = true) (List.filter f l).
Proof.
  induction l as [|x l IH]; [constructor |]. simpl.
  destruct (f x) eqn:E; [by constructor | done].
Qed.

Lemma Forall_filter_sub {A} (P : A -> Prop) (f : A -> bool) (l : list A) :
  Forall P l -> Forall P (List.filter f l).
Proof.
  induction 1 as [|x l Hx Hl IH]; [constructor |]. simpl.
  destruct (f x); [by constructor | done].
Qed.

(** What [_normalize] returns: the words of the text joined by single
    spaces, without the stopwords when they are to go. *)
Lemma normalize_words (tk : t) (text : val) :
  exists ws : list string,
    _normalize tk text = join ws /\
    Forall is_word ws /\
    (removeStopwords tk = true -> Forall (fun w => is_stop w = false) ws) /\
    (ws <> [] -> split " " (_normalize tk text) = ws).
Proof.
  assert (Hempty : exists ws : list string,
            ""%string = join ws /\ Forall is_word ws /\
            (removeStopwords tk = true ->
             Forall (fun w => is_stop w = false) ws) /\
            (ws <> [] -> split " " "" = ws)).
  { exists []. by repeat split. }
  destruct text as [| | | | |s|]; try exact Hempty. simpl.
  destruct (String.eqb s ""); [exact Hempty |].
  pose proof (stripped_wellspaced s) as Hst. cbv zeta in Hst.
  set (stripped := trim (replace_runs is_space false
                     (replace_runs (fun c => negb (kept c)) false
                        (toLowerCase s)))) in *.
  destruct (removeStopwords tk) eqn:Ers; simpl.
  - fold keep_word. exists (List.filter keep_word (split " " stripped)).
    split; [done |]. split; [| split].
    + destruct Hst as [-> | Hst]; [done |].
      by apply Forall_filter_sub, wellspaced_words.
    + intros _. eapply Forall_impl; [apply Forall_filter_keep |].
      intros w Hw. unfold keep_word in Hw.
      apply andb_true_iff in Hw as [_ Hw]. by apply negb_true_iff.
    + intros Hne. apply split_join; [| done].
      apply Forall_filter_sub, split_no_space.
  - destruct Hst as [-> | Hst]; [exact Hempty |].
    exists (split " " stripped). split; [by rewrite join_split |].
    split; [by apply wellspaced_words |]. by split.
Qed.

Lemma wellspaced_spaced (s : string) :
  forall b, wellspaced b s = true -> spaced b s = true.
Proof.
  induction s as [|c s IH]; intros b Hs; [done |]. simpl in *.
  destruct (Ascii.eqb c " ").
  - apply andb_true_iff in Hs as [-> Hs]. by apply IH.
  - apply andb_true_iff in Hs as [-> Hs]. by apply IH.
Qed.

Lemma spaced_kept (s : string) :
  forall b, spaced b s = true -> all_chars kept s = true.
Proof.
  induction s as [|c s IH]; intros b Hs; [done |]. simpl in *.
  destruct (Ascii.eqb_spec c " ") as [-> | Hne].
  - apply andb_true_iff in Hs as [_ Hs]. by rewrite (IH true).
  - apply andb_true_iff in Hs as [Hc Hs].
    destruct (word_char_facts c Hc) as (-> & _). by rewrite (IH false).
Qed.

Lemma spaced_lower (s : string) :
  forall b, spaced b s = true -> toLowerCase s = s.
Proof.
  induction s as [|c s IH]; intros b Hs; [done |]. simpl in *.
  destruct (Ascii.eqb_spec c " ") as [-> | Hne].
  - apply andb_true_iff in Hs as [_ Hs]. by rewrite (IH true).
  - apply andb_true_iff in Hs as [Hc Hs].
    destruct (word_char_facts c Hc) as (_ & _ & _ & ->). by rewrite (IH false).
Qed.

Lemma replace_runs_kept (s : string) (b : bool) :
  all_chars kept s = true ->
  replace_runs (fun c => negb (kept c)) b s = s.
Proof.
  revert b. induction s as [|c s IH]; intros b; [done |]. simpl.
  intros [Hc Hs]%andb_true_iff. rewrite Hc. simpl. by rewrite IH.
Qed.

Lemma replace_runs_spaced (s : string) :
  forall b, spaced b s = true -> replace_runs is_space b s = s.
Proof.
  induction s as [|c s IH]; intros b Hs; [done |]. simpl in *.
  destruct (Ascii.eqb_spec c " ") as [-> | Hne].
  - apply andb_true_iff in Hs as [Hb Hs]. apply negb_true_iff in Hb.
    subst b. simpl. by rewrite (IH true).
  - apply andb_true_iff in Hs as [Hc Hs].
    destruct (word_char_facts c Hc) as (_ & -> & _). by rewrite (IH false).
Qed.

Lemma trimStart_wellspaced (s : string) :
  wellspaced true s = true -> trimStart s = s.
Proof.
  destruct s as [|c s]; [done |]. simpl.
  destruct (Ascii.eqb c " "); [done |].
  intros [Hc _]%andb_true_iff.
  by destruct (word_char_facts c Hc) as (_ & -> & _).
Qed.

Lemma trimEnd_wellspaced (s : string) :
  forall b, wellspaced b s = true -> trimEnd s = s.
Proof.
  induction s as [|c s IH]; intros b Hs; [done |]. simpl in *.
  destruct (Ascii.eqb_spec c " ") as [-> | Hne].
  - apply andb_true_iff in Hs as [_ Hs]. rewrite (IH true Hs).
    destruct s; [done | done].
  - apply andb_true_iff in Hs as [Hc Hs]. rewrite (IH false Hs).
    destruct (word_char_facts c Hc) as (_ & -> & _). by destruct s.
Qed.

(** On a string of words and single spaces the first steps of
    [_normalize] change nothing. *)
Lemma stripped_fixed (s : string) :
  wellspaced true s = true ->
  trim (replace_runs is_space false
          (replace_runs (fun c => negb (kept c)) false (toLowerCase s))) = s.
Proof.
  intros Hs. pose proof (wellspaced_spaced s true Hs) as Hsp.
  rewrite (spaced_lower s true Hsp).
  rewrite (replace_runs_kept s false (spaced_kept s true Hsp)).
  rewrite (replace_runs_spaced s false (spaced_weaken s false Hsp)).
  unfold trim. rewrite trimStart_wellspaced by done.
  by apply (trimEnd_wellspaced s true).
Qed.

(** X1. Whatever the text, its normal form is a list of words joined by
    single spaces: each word is non-empty and made of the characters
    [a-z], [0-9] and the apostrophe, so the normal form has no space at
    either end and no two spaces in a row; splitting it on the space gives
    the words back; and with [removeStopwords] none of them is a
    stopword. *)
Theorem normalize_normal_form (tk : t) (text : val) :
  exists ws : list string,
    _normalize tk text = join ws /\
    Forall is_word ws /\
    (removeStopwords tk = true -> Forall (fun w => is_stop w = false) ws) /\
    (ws <> [] -> split " " (_normalize tk text) = ws).
Proof. apply normalize_words. Qed.

(** X2. [_normalize] is idempotent: normalizing a normal form returns it
    unchanged, with or without stopword removal. *)
Theorem normalize_idempotent (tk : t) (text : val) :
  _normalize tk (VStr (_normalize tk text)) = _normalize tk text.
Proof.
  destruct (normalize_words tk text) as (ws & Hn & Hws & Hstop & Hsplit).
  destruct ws as [|w ws'].
  { rewrite Hn. reflexivity. }
  set (ws := w :: ws') in *.
  assert (Hwell : wellspaced true (_normalize tk text) = true).
  { rewrite Hn. by apply wellspaced_join. }
  set (n := _normalize tk text) in *.
  assert (Hne : String.eqb n "" = false).
  { destruct n; [done | reflexivity]. }
  unfold _normalize at 1. rewrite Hne, (stripped_fixed n Hwell).
  destruct (removeStopwords tk) eqn:Ers; simpl; [| done].
  rewrite Hsplit by done. fold keep_word. rewrite filter_all; [by rewrite Hn |].
  specialize (Hstop eq_refl).
  apply Forall_forall. intros x Hx.
  rewrite Forall_forall in Hws, Hstop. unfold keep_word.
  rewrite (Hstop x Hx). destruct (Hws x Hx) as [Hx0 _].
  unfold nonempty. by destruct x.
Qed.

Lemma lower_char_idempotent (c : ascii) :
  lower_char (lower_char c) = lower_char c.
Proof. destruct c as [[] [] [] [] [] [] [] []]; reflexivity. Qed.

Lemma toLowerCase_idempotent (s : string) :
  toLowerCase (toLowerCase s) = toLowerCase s.
Proof.
  induction s as [|c s IH]; [done |]. simpl.
  by rewrite lower_char_idempotent, IH.
Qed.

(** X3. [_normalize] ignores letter case: a text and its lower-cased copy
    have the same normal form. *)
Theorem normalize_case_insensitive (tk : t) (s : string) :
  _normalize tk (VStr (toLowerCase s)) = _normalize tk (VStr s).
Proof.
  unfold _normalize. rewrite toLowerCase_idempotent.
  by destruct s.
Qed.

(** X4. Stopword removal acts on whole words only: the tokens of a text
    under a tokenizer that removes stopwords are the tokens of the same
    text under one that keeps them, without those in the stopword list
    and in the same order. *)
Theorem tokens_without_stopwords (tk1 tk0 : t) (text : val) :
  removeStopwords tk1 = true -> removeStopwords tk0 = false ->
  tokens_of tk1 text
  = List.filter (fun w => negb (is_stop w)) (tokens_of tk0 text).
Proof.
  intros H1 H0. unfold tokens_of.
  rewrite filter_filter. fold keep_word.
  destruct text as [| | | | |s|]; try reflexivity.
  unfold _normalize. destruct (String.eqb s ""); [reflexivity |].
  rewrite H1, H0. simpl. fold keep_word.
  set (stripped := trim _).
  destruct (List.filter keep_word (split " " stripped)) as [|w ws] eqn:E;
    [reflexivity |].
  rewrite split_join.
  - rewrite <- E. apply filter_all.
    eapply Forall_impl; [apply Forall_filter_keep |].
    intros x Hx. unfold keep_word in Hx.
    by apply andb_true_iff in Hx as [-> _].
  - rewrite <- E. apply Forall_filter_sub, split_no_space.
  - done.
Qed.

Lemma tokens_without_stopwords_witness :
  tokens_of (constructor 100 true) (VStr "The food was NOT good")
  = ["food"; "good"]%string /\
  tokens_of (constructor 100 false) (VStr "The food was NOT good")
  = ["the"; "food"; "was"; "not"; "good"]%string.
Proof.
  split; [| reflexivity].
  exact (tokens_without_stopwords (constructor 100 true)
           (constructor 100 false) (VStr "The food was NOT good")
           eq_refl eq_refl).
Defined.

End NormalForm.

(* ===================================================================== *)
(** ** More on [fitOnTexts]: the two maps, ids in range, fitting again *)
(* ===================================================================== *)

Section VocabularyMaps.
Import JS Tokenizer Vocab Words.

Lemma fitOnTexts_unfold (tk : t) (texts : list val) :
  fitOnTexts tk texts
  = let r := assign (top_words tk texts) 2 (wordIndex tk) (indexWord tk) in
    {| numWords := numWords tk;
       removeStopwords := removeStopwords tk;
       wordIndex := r.1;
       indexWord := r.2;
       _fitted := true;
       vocabSize := Some (Z.of_nat (size r.1)) |}.
Proof. cbv zeta. unfold fitOnTexts. by destruct (assign _ _ _ _). Qed.

(** The id of a word after the assignment loop: its rank in the list, or
    what it had before. *)
Lemma assign_wordIndex_lookup (top : list string) :
  NoDup top ->
  forall (idx : Z) (wi : gmap string Z) (iw : gmap Z string)
         (w : string) (id : Z),
    (assign top idx wi iw).1 !! w = Some id <->
    (exists k : nat, top !! k = Some w /\ id = idx + Z.of_nat k) \/
    ((w ∉ top) /\ wi !! w = Some id).
Proof.
  intros ND idx wi iw w id. destruct (decide (w ∈ top)) as [Hin | Hin].
  - destruct (list_elem_of_lookup_1 _ _ Hin) as [k Hk].
    destruct (assign_lookup top ND idx wi iw k w Hk) as [-> _]. split.
    + intros [= <-]. left. by exists k.
    + intros [(k' & Hk' & ->) | [Hn _]]; [| done].
      by rewrite (NoDup_lookup _ _ _ _ ND Hk Hk').
  - rewrite assign_wordIndex_other by done. split.
    + intros H. by right.
    + intros [(k & Hk & _) | [_ H]]; [| done].
      exfalso. apply Hin. by eapply list_elem_of_lookup_2.
Qed.

(** The word of an id after the loop: the ids [idx .. idx + length top - 1]
    name the words of the list in order, any other id is as before. *)
Lemma assign_indexWord_lookup (top : list string) :
  forall (idx : Z) (wi : gmap string Z) (iw : gmap Z string) (j : Z),
    (assign top idx wi iw).2 !! j
    = if decide (idx <= j < idx + Z.of_nat (length top))
      then top !! Z.to_nat (j - idx) else iw !! j.
Proof.
  induction top as [|x top IH]; intros idx wi iw j.
  - simpl. destruct (decide _); [lia | done].
  - cbn [assign]. rewrite IH. cbn [length].
    destruct (decide (idx + 1 <= j < idx + 1 + Z.of_nat (length top)))
      as [Hin | Hout].
    + rewrite decide_True by lia.
      replace (Z.to_nat (j - idx)) with (S (Z.to_nat (j - (idx + 1)))) by lia.
      done.
    + destruct (decide (j = idx)) as [-> | Hne].
      * rewrite decide_True by lia. rewrite lookup_insert_eq.
        by rewrite Z.sub_diag.
      * rewrite decide_False by lia. by rewrite lookup_insert_ne.
Qed.

Lemma normalize_flag (tk tk' : t) (text : val) :
  removeStopwords tk = removeStopwords tk' ->
  _normalize tk text = _normalize tk' text.
Proof. intros H. unfold _normalize. by rewrite H. Qed.

Lemma count_texts_flag (tk tk' : t) (texts : list val) :
  removeStopwords tk = removeStopwords tk' ->
  forall freq, count_texts tk texts freq = count_texts tk' texts freq.
Proof.
  intros H. unfold count_texts.
  induction texts as [|x texts IH]; intros freq; [done |]. simpl.
  rewrite (normalize_flag tk tk' x H). apply IH.
Qed.

Lemma top_words_flag (tk tk' : t) (texts : list val) :
  numWords tk = numWords tk' -> removeStopwords tk = removeStopwords tk' ->
  top_words tk texts = top_words tk' texts.
Proof.
  intros Hn Hr. unfold top_words.
  by rewrite Hn, (count_texts_flag tk tk' texts Hr).
Qed.

Lemma top_words_NoDup (tk : t) (texts : list val) :
  NoDup (top_words tk texts) /\
  forall w, w ∈ top_words tk texts -> w ∈ corpus_tokens tk texts.
Proof.
  destruct (top_words_ranking tk texts) as (ranked & -> & ND & Hmem & _).
  split.
  - apply (sublist_NoDup _ ranked ND), sublist_take.
  - intros w (i & Hi & _)%elem_of_take. apply Hmem.
    by eapply list_elem_of_lookup_2.
Qed.

(** The state of a tokenizer fitted right after its construction. *)
Lemma fresh_fit (n : Z) (rs : bool) (texts : list val) :
  let tk := fitOnTexts (constructor n rs) texts in
  let top := top_words (constructor n rs) texts in
  let wi0 : gmap string Z := {[ "<PAD>"%string := 0; "<OOV>"%string := 1 ]} in
  let iw0 : gmap Z string := {[ 0 := "<PAD>"%string; 1 := "<OOV>"%string ]} in
  NoDup top /\
  (forall w, w ∈ top -> wi0 !! w = None) /\
  wordIndex tk = (assign top 2 wi0 iw0).1 /\
  indexWord tk = (assign top 2 wi0 iw0).2 /\
  vocabSize tk = Some (2 + Z.of_nat (length top)).
Proof.
  cbv zeta. set (tk0 := constructor n rs).
  destruct (top_words_NoDup tk0 texts) as [ND Hsub].
  assert (Hfresh : forall w, w ∈ top_words tk0 texts ->
            ({[ "<PAD>"%string := 0; "<OOV>"%string := 1 ]}
               : gmap string Z) !! w = None).
  { intros w Hw. by eapply corpus_token_not_reserved, Hsub. }
  rewrite fitOnTexts_unfold. cbv zeta. cbn [wordIndex indexWord vocabSize].
  change (wordIndex tk0)
    with ({[ "<PAD>"%string := 0; "<OOV>"%string := 1 ]} : gmap string Z).
  change (indexWord tk0)
    with ({[ 0 := "<PAD>"%string; 1 := "<OOV>"%string ]} : gmap Z string).
  split_and!; try done.
  rewrite (assign_size _ ND) by done.
  rewrite map_size_insert_None, map_size_singleton by done.
  f_equal. lia.
Qed.

Lemma reserved_lookup (w : string) (id : Z) :
  ({[ "<PAD>"%string := 0; "<OOV>"%string := 1 ]} : gmap string Z) !! w
  = Some id <->
  ({[ 0 := "<PAD>"%string; 1 := "<OOV>"%string ]} : gmap Z string) !! id
  = Some w.
Proof.
  split.
  - intros H. apply lookup_insert_Some in H as [[<- <-] | [Hne H]]; [done |].
    apply lookup_singleton_Some in H as [<- <-]. done.
  - intros H. apply lookup_insert_Some in H as [[<- <-] | [Hne H]]; [done |].
    apply lookup_singleton_Some in H as [<- <-]. done.
Qed.

Lemma reserved_ids (id : Z) :
  is_Some (({[ 0 := "<PAD>"%string; 1 := "<OOV>"%string ]} : gmap Z string)
             !! id) <-> 0 <= id < 2.
Proof.
  split.
  - intros [w H]. apply lookup_insert_Some in H as [[<- _] | [_ H]]; [lia |].
    apply lookup_singleton_Some in H as [<- _]. lia.
  - intros H. destruct (decide (id = 0)) as [-> | ?]; [by eexists |].
    assert (id = 1) as -> by lia. by eexists.
Qed.

(** After a first fit the two maps are inverse to each other and the ids
    are exactly [0 .. vocabSize - 1]. *)
Lemma fresh_fit_inverse (n : Z) (rs : bool) (texts : list val) :
  let tk := fitOnTexts (constructor n rs) texts in
  exists vs : Z,
    vocabSize tk = Some vs /\ 2 <= vs /\
    (forall (w : string) (id : Z),
        wordIndex tk !! w = Some id <-> indexWord tk !! id = Some w) /\
    (forall id : Z, is_Some (indexWord tk !! id) <-> 0 <= id < vs).
Proof.
  cbv zeta. destruct (fresh_fit n rs texts) as (ND & Hfresh & Hwi & Hiw & Hvs).
  set (top := top_words (constructor n rs) texts) in *.
  exists (2 + Z.of_nat (length top)). split; [done |]. split; [lia |].
  rewrite Hwi, Hiw. split.
  - intros w id. rewrite (assign_wordIndex_lookup top ND).
    rewrite assign_indexWord_lookup. split.
    + intros [(k & Hk & ->) | [Hn H]].
      * pose proof (lookup_lt_Some _ _ _ Hk). rewrite decide_True by lia.
        by replace (Z.to_nat (2 + Z.of_nat k - 2)) with k by lia.
      * pose proof H as Hid. apply reserved_lookup in H.
        assert (0 <= id < 2) by (apply reserved_ids; by eexists).
        by rewrite decide_False by lia.
    + destruct (decide _) as [Hin | Hout].
      * intros H. left. exists (Z.to_nat (id - 2)). split; [done | lia].
      * intros H. right. pose proof H as Hw. apply reserved_lookup in H.
        split; [| done]. intros Hin. apply Hfresh in Hin. congruence.
  - intros id. rewrite assign_indexWord_lookup.
    destruct (decide _) as [Hin | Hout].
    + split; [lia |]. intros _. apply lookup_lt_is_Some_2. lia.
    + rewrite reserved_ids. lia.
Qed.

(** X5. A tokenizer fitted right after its construction has forward and
    inverse maps that are inverse to each other, and its ids are exactly
    [0 .. vocabSize - 1], without a gap: [wordIndex[w] = id] exactly when
    [indexWord[id] = w]. *)
Theorem fitOnTexts_maps_inverse (n : Z) (rs : bool) (texts : list val) :
  let tk := fitOnTexts (constructor n rs) texts in
  exists vs : Z,
    vocabSize tk = Some vs /\ 2 <= vs /\
    (forall (w : string) (id : Z),
        wordIndex tk !! w = Some id <-> indexWord tk !! id = Some w) /\
    (forall id : Z, is_Some (indexWord tk !! id) <-> 0 <= id < vs).
Proof. apply fresh_fit_inverse. Qed.

Lemma Forall_take_sub {A} (P : A -> Prop) (l : list A) (k : nat) :
  Forall P l -> Forall P (take k l).
Proof.
  intros H. apply Forall_forall. intros x (i & Hi & _)%elem_of_take.
  rewrite Forall_forall in H. apply H. by eapply list_elem_of_lookup_2.
Qed.

Lemma Forall_slice0 {A} (P : A -> Prop) (l : list A) (e : Z) :
  Forall P l -> Forall P (slice0 l e).
Proof. unfold slice0. apply Forall_take_sub. Qed.

(** X6. After a first fit every text is encoded and padded to ids the
    embedding can index: each element of a padded row is a number in
    [0 .. vocabSize - 1] (0 for padding, 1 for an unknown token), or else
    the member that the lookup inherits from [Object.prototype]. *)
Theorem padded_ids_below_vocabSize (n : Z) (rs : bool) (texts : list val)
  (text : val) (seqLen : Z) :
  let tk := fitOnTexts (constructor n rs) texts in
  exists vs : Z,
    vocabSize tk = Some vs /\
    Forall (id_below vs) (pad_row seqLen (encode_text tk text)).
Proof.
  cbv zeta.
  destruct (fresh_fit_inverse n rs texts) as (vs & Hvs & H2 & Hinv & Hids).
  set (tk := fitOnTexts (constructor n rs) texts) in *.
  exists vs. split; [done |].
  assert (Henc : Forall (id_below vs) (encode_text tk text)).
  { unfold encode_text. destruct (String.eqb _ ""); [constructor |].
    rewrite map_is_fmap. apply Forall_fmap, Forall_forall. intros w _.
    simpl. unfold js_get. destruct (wordIndex tk !! w) as [id|] eqn:E.
    - left. exists id. split; [done |]. apply Hids. apply Hinv in E.
      by eexists.
    - destruct (existsb (String.eqb w) Object_prototype_keys) eqn:Ex.
      + right. exists w. split; [done |].
        apply existsb_exists in Ex as (k & Hk & ->%String.eqb_eq). done.
      + left. exists 1. split; [done | lia]. }
  unfold pad_row. destruct (_ >=? _); [by apply Forall_slice0 |].
  apply Forall_app. split; [done |].
  apply Forall_replicate. left. exists 0. split; [done | lia].
Qed.

Lemma assign_wordIndex_keeps (top : list string) :
  forall (idx : Z) (wi : gmap string Z) (iw : gmap Z string) (w : string),
    is_Some (wi !! w) -> is_Some ((assign top idx wi iw).1 !! w).
Proof.
  induction top as [|x top IH]; intros idx wi iw w Hw; [done |].
  simpl. apply IH. rewrite lookup_insert_is_Some.
  destruct (decide (x = w)); [by left | by right].
Qed.

(** X7. [fitOnTexts] never removes a word: fitting a tokenizer that holds
    a vocabulary already keeps every word of it in [wordIndex] (the id may
    change), so the earlier vocabulary is not discarded and the number of
    words does not shrink. *)
Theorem fitOnTexts_keeps_words (tk : t) (texts : list val) :
  (forall w : string,
      is_Some (wordIndex tk !! w) ->
      is_Some (wordIndex (fitOnTexts tk texts) !! w)) /\
  (size (wordIndex tk) <= size (wordIndex (fitOnTexts tk texts)))%nat.
Proof.
  rewrite fitOnTexts_unfold. cbv zeta. cbn [wordIndex].
  assert (Hk : forall w : string,
             is_Some (wordIndex tk !! w) ->
             is_Some ((assign (top_words tk texts) 2 (wordIndex tk)
                         (indexWord tk)).1 !! w))
    by (intros w; apply assign_wordIndex_keeps).
  split; [done |].
  rewrite <- !size_dom. apply subseteq_size.
  intros w Hw. apply elem_of_dom. apply Hk. by apply elem_of_dom.
Qed.

(** X8. Fitting twice on the same corpus changes nothing: the second call
    assigns every word the id it already has. *)
Theorem fitOnTexts_twice (tk : t) (texts : list val) :
  fitOnTexts (fitOnTexts tk texts) texts = fitOnTexts tk texts.
Proof.
  rewrite (fitOnTexts_unfold (fitOnTexts tk texts)).
  rewrite (top_words_flag (fitOnTexts tk texts) tk)
    by (by rewrite fitOnTexts_unfold).
  rewrite (fitOnTexts_unfold tk). cbv zeta.
  cbn [numWords removeStopwords wordIndex indexWord].
  destruct (top_words_NoDup tk texts) as [ND _].
  set (top := top_words tk texts) in *.
  set (wi := wordIndex tk). set (iw := indexWord tk).
  assert (H1 : (assign top 2 (assign top 2 wi iw).1 (assign top 2 wi iw).2).1
               = (assign top 2 wi iw).1).
  { apply map_eq. intros w. apply option_eq. intros id.
    rewrite !(assign_wordIndex_lookup top ND). split.
    - intros [H | [Hn [(k & Hk & _) | H]]]; [by left | | by right].
      exfalso. apply Hn. by eapply list_elem_of_lookup_2.
    - intros [H | [Hn H]]; [by left |]. right. split; [done |]. by right. }
  assert (H2 : (assign top 2 (assign top 2 wi iw).1 (assign top 2 wi iw).2).2
               = (assign top 2 wi iw).2).
  { apply map_eq. intros j. rewrite !assign_indexWord_lookup.
    by destruct (decide _). }
  by rewrite H1, H2.
Qed.

End VocabularyMaps.

(* ===================================================================== *)
(** ** More on [textsToSequences] and [padSequences] *)
(* ===================================================================== *)

Section Rows.
Import JS Tokenizer Vocab Words.

Lemma encode_text_length (tk : t) (text : val) :
  length (encode_text tk text) = length (tokens_of tk text).
Proof.
  unfold encode_text, tokens_of.
  destruct (normalize_words tk text) as (ws & Hn & Hws & _ & Hsplit).
  destruct ws as [|w ws'].
  - rewrite Hn. reflexivity.
  - rewrite Hsplit by done.
    destruct (String.eqb_spec (_normalize tk text) "") as [E | _].
    + rewrite E in Hsplit. specialize (Hsplit ltac:(done)).
      injection Hsplit as <- <-. apply Forall_cons in Hws as [[Hw _] _]. done.
    + rewrite length_map, filter_all; [done |].
      eapply Forall_impl; [exact Hws |]. intros x [Hx _].
      unfold nonempty. by destruct x.
Qed.

(** X9. [textsToSequences] fails with "Tokenizer not fitted" exactly on a
    tokenizer that was not fitted. On a fitted one it returns one sequence
    per text, in order and without dropping any: the sequence of a text
    has one element per token of the text, so a text with an empty normal
    form gives the empty sequence and still has its row. *)
Theorem textsToSequences_rows (tk : t) (texts : list val) :
  (_fitted tk = false -> textsToSequences tk texts = inl NotFitted) /\
  (_fitted tk = true ->
   exists seqs : list (list val),
     textsToSequences tk texts = inr seqs /\
     length seqs = length texts /\
     forall (i : nat) (text : val),
       texts !! i = Some text ->
       exists s, seqs !! i = Some s /\
                 s = encode_text tk text /\
                 length s = length (tokens_of tk text)).
Proof.
  unfold textsToSequences. split; intros ->; [done |]. simpl.
  exists (map (encode_text tk) texts). split; [done |].
  rewrite map_is_fmap, length_fmap. split; [done |].
  intros i text Hi. exists (encode_text tk text).
  rewrite list_lookup_fmap, Hi. split; [done |]. split; [done |].
  apply encode_text_length.
Qed.

(** X10. For [seqLen >= 0] padding is idempotent: rows that were padded to
    [seqLen] are left as they are by a second [padSequences] with the same
    [seqLen]. *)
Theorem padSequences_idempotent (sequences : list (list val)) (seqLen : Z) :
  0 <= seqLen ->
  padSequences (padSequences sequences seqLen) seqLen
  = padSequences sequences seqLen.
Proof.
  intros Hpos. unfold padSequences. rewrite !map_is_fmap, <- list_fmap_compose.
  apply list_fmap_ext. intros _ s _. simpl.
  pose proof (pad_row_length seqLen s Hpos) as Hlen.
  rewrite pad_row_long by lia. apply take_ge. lia.
Qed.

Lemma padSequences_idempotent_witness :
  padSequences (padSequences [[VNum 5; VNum 6; VNum 7]; [VNum 9]] 2) 2
  = padSequences [[VNum 5; VNum 6; VNum 7]; [VNum 9]] 2.
Proof.
  exact (padSequences_idempotent [[VNum 5; VNum 6; VNum 7]; [VNum 9]] 2
           ltac:(lia)).
Defined.

(** X11. A [seqLen] below 1 pads nothing. With [seqLen = 0] every row is
    empty, and with a negative [seqLen] a row is the sequence without its
    last [-seqLen] elements, so the rows differ in length. *)
Theorem padSequences_nonpositive (sequences : list (list val)) (seqLen : Z) :
  seqLen <= 0 ->
  padSequences sequences seqLen
  = (fun s => if seqLen =? 0 then []
              else take (length s - Z.to_nat (- seqLen)) s) <$> sequences.
Proof.
  intros Hneg. unfold padSequences. rewrite map_is_fmap.
  apply list_fmap_ext. intros _ s _. unfold pad_row.
  rewrite Z.geb_leb.
  destruct (Z.leb_spec seqLen (Z.of_nat (length s))) as [_ | Hlt]; [| lia].
  unfold slice0. destruct (Z.ltb_spec seqLen 0) as [Hlt | Hge].
  - destruct (Z.eqb_spec seqLen 0); [lia |]. f_equal. lia.
  - assert (seqLen = 0) as -> by lia. simpl.
    rewrite Z.min_l by lia. done.
Qed.

Lemma padSequences_nonpositive_witness :
  padSequences [[VNum 5; VNum 6; VNum 7]; [VNum 9]; []] (-1)
  = [[VNum 5; VNum 6]; []; []] /\
  padSequences [[VNum 5; VNum 6; VNum 7]; [VNum 9]; []] 0 = [[]; []; []].
Proof.
  split.
  - exact (padSequences_nonpositive
             [[VNum 5; VNum 6; VNum 7]; [VNum 9]; []] (-1) ltac:(lia)).
  - reflexivity.
Defined.

End Rows.

(* ===================================================================== *)
(** ** More on the shuffle *)
(* ===================================================================== *)

Section ShuffleMore.
Import JS Loader Perm.

Lemma pick_perm (xs : list val) (p : list nat) :
  p ≡ₚ seq 0 (length xs) -> pick xs p ≡ₚ xs.
Proof.
  intros Hp. rewrite <- (pick_all xs) at 2. unfold pick. by rewrite Hp.
Qed.

Lemma zip_pick (xs ys : list val) (p : list nat) :
  zip (pick xs p) (pick ys p) = (fun i => (aget xs i, aget ys i)) <$> p.
Proof.
  unfold pick. induction p as [|i p IH]; [done |]. csimpl. by f_equal.
Qed.

(** X12. The shuffle loses nothing and pairs nothing anew: on two distinct
    arrays of one length, each array afterwards holds the elements it
    held before, as often as before, and the pairs of elements at equal
    positions are the pairs of before. *)
Theorem shuffleInPlace_permutation (a b : loc) (seed : Z) (h : heap)
  (xs ys : list val) :
  a <> b -> h !! a = Some xs -> h !! b = Some ys -> length xs = length ys ->
  exists xs' ys' : list val,
    shuffleInPlace a b seed h !! a = Some xs' /\
    shuffleInPlace a b seed h !! b = Some ys' /\
    xs' ≡ₚ xs /\ ys' ≡ₚ ys /\
    zip xs' ys' ≡ₚ zip xs ys.
Proof.
  intros Hab Ha Hb Hlen.
  rewrite (shuffleInPlace_pick a b seed h xs ys) by done.
  destruct (shuffle_indices_perm seed (length xs)) as [Hp _].
  set (p := shuffle_indices seed (length xs)) in *.
  exists (pick xs p), (pick ys p).
  rewrite lookup_insert_ne, !lookup_insert_eq by done.
  split; [done |]. split; [done |].
  split; [by apply pick_perm |].
  split; [apply pick_perm; by rewrite <- Hlen |].
  assert (Hz : zip xs ys
               = (fun i => (aget xs i, aget ys i)) <$> seq 0 (length xs)).
  { rewrite <- zip_pick, pick_all, Hlen, pick_all. done. }
  by rewrite zip_pick, Hp, Hz.
Qed.

Lemma shuffleInPlace_permutation_witness :
  exists xs' ys' : list val,
    shuffleInPlace 0%nat 1%nat 1337 Demo.heap0 !! 0%nat = Some xs' /\
    shuffleInPlace 0%nat 1%nat 1337 Demo.heap0 !! 1%nat = Some ys' /\
    xs' ≡ₚ Demo.texts /\ ys' ≡ₚ Demo.labels /\
    zip xs' ys' ≡ₚ zip Demo.texts Demo.labels.
Proof.
  apply (shuffleInPlace_permutation 0%nat 1%nat 1337 Demo.heap0
           Demo.texts Demo.labels);
    first [reflexivity | discriminate].
Defined.

Lemma swap_list_length (xs : list val) (i j : nat) :
  (i < length xs)%nat -> (j < length xs)%nat ->
  length (swap_list xs i j) = length xs.
Proof.
  intros Hi Hj. unfold swap_list.
  rewrite (aset_in_range xs) by done.
  rewrite aset_in_range by (by rewrite length_insert).
  by rewrite !length_insert.
Qed.

Lemma swap_list_twice (xs : list val) (i j : nat) :
  (i < length xs)%nat -> (j < length xs)%nat ->
  swap_list (swap_list xs i j) i j = xs.
Proof.
  intros Hi Hj.
  pose proof (swap_list_length xs i j Hi Hj) as Hlen.
  unfold swap_list at 1.
  rewrite (aset_in_range (swap_list xs i j)) by lia.
  rewrite aset_in_range by (rewrite length_insert; lia).
  unfold swap_list, aget.
  rewrite (aset_in_range xs) by done.
  rewrite aset_in_range by (by rewrite length_insert).
  destruct (lookup_lt_is_Some_2 xs i Hi) as [x Hx].
  destruct (lookup_lt_is_Some_2 xs j Hj) as [y Hy].
  rewrite Hx, Hy. simpl.
  apply list_eq. intros k.
  destruct (decide (i = j)) as [-> | Hij].
  - rewrite !list_lookup_insert_eq by (rewrite ?length_insert; lia). simpl.
    destruct (decide (k = j)) as [-> | Hk].
    + rewrite list_lookup_insert_eq by (rewrite ?length_insert; lia).
      congruence.
    + by rewrite !list_lookup_insert_ne by done.
  - rewrite (list_lookup_insert_eq _ j) by (rewrite ?length_insert; lia).
    rewrite (list_lookup_insert_ne _ j i) by done.
    rewrite (list_lookup_insert_eq _ i) by lia. simpl.
    destruct (decide (k = j)) as [-> | Hkj].
    + rewrite list_lookup_insert_eq by (rewrite ?length_insert; lia). done.
    + rewrite list_lookup_insert_ne by done.
      destruct (decide (k = i)) as [-> | Hki].
      * rewrite list_lookup_insert_eq by (rewrite ?length_insert; lia). done.
      * by rewrite !list_lookup_insert_ne by done.
Qed.

Lemma swap_twice (a : loc) (i j : nat) (h : heap) (xs : list val) :
  h !! a = Some xs -> (i < length xs)%nat -> (j < length xs)%nat ->
  swap a i j (swap a i j h) = h.
Proof.
  intros Ha Hi Hj. unfold swap. rewrite Ha, lookup_insert_eq.
  rewrite swap_list_twice by done.
  rewrite insert_insert_eq. by apply insert_id.
Qed.

(** X13. Given the same array twice, the shuffle leaves it as it was: each
    step swaps the two slots and swaps them back. *)
Theorem shuffleInPlace_same_array (a : loc) (seed : Z) (h : heap) :
  shuffleInPlace a a seed h = h.
Proof.
  unfold shuffleInPlace. destruct (h !! a) as [xs|] eqn:Ha; [| done].
  assert (Hloop : forall (i : nat) (s : Z),
             (i < length xs \/ i = 0)%nat -> shuffle_loop a a i s h = h).
  { induction i as [|i IH]; intros s Hi; [done |].
    rewrite shuffle_loop_step. cbv zeta.
    pose proof (draw_le _ (S i) (mulberry32_word s)) as Hj.
    rewrite (swap_twice a _ _ h xs) by (done || lia).
    apply IH. lia. }
  apply Hloop. lia.
Qed.

End ShuffleMore.

(* ===================================================================== *)
(** ** More on [prepareTensors], and [parseCSVFile] *)
(* ===================================================================== *)

Section Prepare.
Import JS Loader Perm Words.









End Prepare.

Section CsvRows.
Import JS Csv Loader Words.

Lemma push_row_spec (acc : list val * list val) (r : row) :
  push_row acc r
  = if accepted r
    then (acc.1 ++ [VStr (review_of r)], acc.2 ++ [VNum (label_of r)])
    else acc.
Proof.
  unfold push_row, accepted, label_of.
  destruct (String.eqb (review_of r) ""); [done |]. simpl.
  destruct (String.eqb (sentiment_of r) "positive"); [done |]. simpl.
  by destruct (String.eqb (sentiment_of r) "negative").
Qed.

Lemma parse_fold (rows : list row) : forall acc : list val * list val,
  fold_left push_row rows acc
  = (acc.1 ++ ((fun r => VStr (review_of r)) <$> List.filter accepted rows),
     acc.2 ++ ((fun r => VNum (label_of r)) <$> List.filter accepted rows)).
Proof.
  induction rows as [|r rows IH]; intros [ts ls].
  - simpl. by rewrite !app_nil_r.
  - cbn [fold_left List.filter]. rewrite IH, push_row_spec.
    destruct (accepted r); cbn [fst snd]; [| done].
    by rewrite <- !app_assoc.
Qed.

(** The two arrays of [parseCSVFile] as one pass over the kept rows. *)
Lemma parseCSVFile_spec (rows : list row) :
  parseCSVFile rows
  = ((fun r => VStr (review_of r)) <$> List.filter accepted rows,
     (fun r => VNum (label_of r)) <$> List.filter accepted rows).
Proof. unfold parseCSVFile. by rewrite parse_fold. Qed.

(** X16. [parseCSVFile] keeps, in order, exactly the rows that have a
    review text and a sentiment that reads "positive" or "negative" once
    lower-cased and trimmed; it returns as many labels as texts, every
    text a non-empty string and every label 0 or 1, 1 for "positive". A
    row whose [review] cell is present but empty is dropped even if
    another of the text columns is filled. *)
Theorem parseCSVFile_rows (rows : list row) :
  parseCSVFile rows
  = ((fun r => VStr (review_of r)) <$> List.filter accepted rows,
     (fun r => VNum (label_of r)) <$> List.filter accepted rows) /\
  length (parseCSVFile rows).1 = length (parseCSVFile rows).2 /\
  Forall (fun v => exists s, v = VStr s /\ s <> ""%string)
         (parseCSVFile rows).1 /\
  Forall (fun v => v = VNum 0 \/ v = VNum 1) (parseCSVFile rows).2 /\
  (forall r, review r = Some ""%string -> accepted r = false).
Proof.
  rewrite parseCSVFile_spec. cbn [fst snd]. split; [done |].
  split; [by rewrite !length_fmap |]. split; [| split].
  - apply Forall_fmap, Forall_forall. intros r Hr.
    apply list_elem_of_In, filter_In in Hr as [_ Hr]. simpl.
    exists (review_of r). split; [done |]. unfold accepted in Hr.
    apply andb_true_iff in Hr as [Hr _]. intros E. by rewrite E in Hr.
  - apply Forall_fmap, Forall_forall. intros r _. simpl. unfold label_of.
    destruct (String.eqb _ _); auto.
  - intros r Hr. unfold accepted, review_of. rewrite Hr. done.
Qed.



End CsvRows.

(* ===================================================================== *)
(** ** More on the model lifecycle and the metrics *)
(* ===================================================================== *)

Section Calls.
Import JS Rnn Lifecycle Persist.

Lemma single_live_same (st st' : state) :
  models st' = models st -> currentModel st' = currentModel st ->
  single_live st -> single_live st'.
Proof.
  intros Hm Hc H i (m & Hi & Hd). rewrite Hc. apply H. exists m.
  by rewrite <- Hm.
Qed.

Lemma predictText_keeps (tf : TfBackend) (text : val) (n : Z)
  (tk : Tokenizer.t) (th : num) (st : state) :
  models (predictText tf text n tk th st).2 = models st /\
  currentModel (predictText tf text n tk th st).2 = currentModel st.
Proof.
  unfold predictText. destruct (currentModel st) eqn:E; [| done].
  destruct (negb (truthy text)); [done |].
  destruct (Tokenizer.textsToSequences tk [text]); [done |].
  destruct (negb (Tf.tensor2d _ _ _ _)); [done |].
  by destruct (tf_predict tf _ _).
Qed.

Lemma evaluateModel_keeps (tf : TfBackend) (X : list (list val))
  (y : list Z) (th : num) (st : state) :
  models (evaluateModel tf X y th st).2 = models st /\
  currentModel (evaluateModel tf X y th st).2 = currentModel st.
Proof.
  unfold evaluateModel. destruct (currentModel st) eqn:E; [| done].
  destruct (tf_evaluate tf _ _ _); [| done].
  by destruct (tf_predict tf _ _).
Qed.

Lemma step_single_live (tf : TfBackend) (c : call) (st : state) :
  is_load c = false -> single_live st -> single_live (step tf st c).
Proof.
  intros Hc H.
  destruct c as [a | | file | text n tk th | X y th]; simpl; try done.
  - by apply createModel_single_live.
  - by apply disposeModel_single_live.
  - destruct (predictText_keeps tf text n tk th st).
    by eapply single_live_same.
  - destruct (evaluateModel_keeps tf X y th st).
    by eapply single_live_same.
Qed.

(** X18. The single active model invariant holds along every sequence of
    calls of [createModel], [disposeModel], [predictText] and
    [evaluateModel], whether the calls return or throw: started with at
    most the current model live, such a sequence ends with at most one
    live model, the current one. ([loadModel] is the one export left out:
    it does not keep the invariant.) *)
Theorem calls_without_load_single_live (tf : TfBackend) (cs : list call)
  (st : state) :
  single_live st ->
  forallb (fun c => negb (is_load c)) cs = true ->
  single_live (run tf cs st) /\ (length (live (run tf cs st)) <= 1)%nat.
Proof.
  intros H Hcs.
  assert (single_live (run tf cs st)) as Hs; [| by auto using single_live_count].
  revert st H. unfold run.
  induction cs as [|c cs IH]; intros st H; [done |].
  simpl in Hcs. apply andb_true_iff in Hcs as [Hc Hcs].
  simpl. apply IH; [done |]. apply step_single_live; [| done].
  by destruct (is_load c).
Qed.

Lemma calls_without_load_single_live_witness :
  (length (live (run permissive
                   [ CreateModel Demo.args0;
                     PredictText (VStr "great food") 5 Demo.tk (Fin (1 # 2));
                     CreateModel Demo.args0;
                     DisposeModel;
                     CreateModel Demo.args_negative ]
                   initial)) <= 1)%nat.
Proof.
  refine (proj2 (calls_without_load_single_live permissive _ initial _ _)).
  - intros i (m & Hm & _). simpl in Hm. by rewrite lookup_nil in Hm.
  - reflexivity.
Defined.

End Calls.

Section Confusion.
Import JS Rnn.

(** One turn of the counting loop adds one to the row of its label. *)
Lemma tally_rows (c : confusion) (yt : Z) (yp : option Z) :
  yp = Some 0 \/ yp = Some 1 ->
  tp (tally c yt yp) + fn (tally c yt yp)
  = tp c + fn c + (if yt =? 1 then 1 else 0) /\
  tn (tally c yt yp) + fp (tally c yt yp)
  = tn c + fp c + (if yt =? 0 then 1 else 0).
Proof.
  intros [-> | ->]; unfold tally; rewrite !bool_decide_Some;
    destruct (Z.eqb_spec yt 1) as [-> |]; simpl; try lia;
    destruct (Z.eqb_spec yt 0) as [-> |]; simpl; lia.
Qed.

Lemma count_loop_rows (yTrue : list Z) :
  forall (yPred : list Z) (c : confusion),
    length yTrue = length yPred ->
    Forall (fun y => y = 0 \/ y = 1) yPred ->
    tp (count_loop yTrue yPred c) + fn (count_loop yTrue yPred c)
    = tp c + fn c + Z.of_nat (length (List.filter (Z.eqb 1) yTrue)) /\
    tn (count_loop yTrue yPred c) + fp (count_loop yTrue yPred c)
    = tn c + fp c + Z.of_nat (length (List.filter (Z.eqb 0) yTrue)).
Proof.
  induction yTrue as [|yt yTrue IH]; intros [|yp yPred] c Hlen Hbin;
    try discriminate; [simpl; lia |].
  apply Forall_cons in Hbin as [Hyp Hbin].
  cbn [count_loop head tail List.filter].
  destruct (IH yPred (tally c yt (Some yp)) ltac:(by injection Hlen) Hbin)
    as [-> ->].
  destruct (tally_rows c yt (Some yp)) as [-> ->];
    [destruct Hyp as [-> | ->]; auto |].
  rewrite (Z.eqb_sym 1 yt), (Z.eqb_sym 0 yt).
  destruct (yt =? 1), (yt =? 0); simpl length; lia.
Qed.

Lemma binary_counts (l : list Z) :
  Forall (fun y => y = 0 \/ y = 1) l ->
  (length (List.filter (Z.eqb 1) l) + length (List.filter (Z.eqb 0) l)
   = length l)%nat.
Proof.
  induction 1 as [|y l [-> | ->] _ IH]; simpl; lia.
Qed.

Lemma threshold_pred_binary (th : num) (probs : list num) :
  Forall (fun y => y = 0 \/ y = 1) (map (threshold_pred th) probs).
Proof.
  rewrite map_is_fmap. apply Forall_fmap, Forall_forall. intros p _. simpl.
  unfold threshold_pred. destruct (nge p th); auto.
Qed.

(** What a call of [evaluateModel] that returns has computed. *)
Lemma evaluateModel_inr (tf : TfBackend) (X_test : list (list val))
  (y_test : list Z) (threshold : num) (st st' : state) (ev : evaluation) :
  evaluateModel tf X_test y_test threshold st = (inr ev, st') ->
  exists (la : num * num) (probs : list num),
    ev = score la y_test probs threshold.
Proof.
  unfold evaluateModel. destruct (currentModel st); [| done].
  destruct (tf_evaluate tf _ _ _) as [la |]; [| done].
  destruct (tf_predict tf _ _) as [probs |]; [| done].
  intros [= <- _]. by exists la, probs.
Qed.

(** X19. The confusion matrix of [evaluateModel] sums up by rows: when
    the call returns with one probability per label, every prediction is
    0 or 1, [tp + fn] is the number of labels equal to 1 and [tn + fp]
    the number of labels equal to 0, and when every label is 0 or 1 the
    four counts add up to the number of test samples. *)
Theorem evaluateModel_confusion_rows (tf : TfBackend)
  (X_test : list (list val)) (y_test : list Z) (threshold : num)
  (st st' : state) (ev : evaluation) :
  evaluateModel tf X_test y_test threshold st = (inr ev, st') ->
  length (yProb ev) = length y_test ->
  yTrue ev = y_test /\
  length (yPred ev) = length y_test /\
  Forall (fun y => y = 0 \/ y = 1) (yPred ev) /\
  tp (cm ev) + fn (cm ev)
  = Z.of_nat (length (List.filter (Z.eqb 1) y_test)) /\
  tn (cm ev) + fp (cm ev)
  = Z.of_nat (length (List.filter (Z.eqb 0) y_test)) /\
  (Forall (fun y => y = 0 \/ y = 1) y_test ->
   tp (cm ev) + tn (cm ev) + fp (cm ev) + fn (cm ev)
   = Z.of_nat (length y_test)).
Proof.
  intros Hrun Hlen.
  destruct (evaluateModel_inr _ _ _ _ _ _ _ Hrun) as (la & probs & ->).
  cbn [yTrue yPred yProb cm score] in *.
  assert (Hl : length y_test = length (map (threshold_pred threshold) probs)).
  { by rewrite length_map. }
  split; [done |]. split; [done |].
  split; [apply threshold_pred_binary |].
  destruct (count_loop_rows y_test (map (threshold_pred threshold) probs)
              {| tp := 0; tn := 0; fp := 0; fn := 0 |} Hl
              (threshold_pred_binary threshold probs)) as [H1 H0].
  cbn [tp tn fp fn] in H1, H0.
  split; [lia |]. split; [lia |].
  intros Hbin. pose proof (binary_counts y_test Hbin). lia.
Qed.

Lemma evaluateModel_confusion_rows_witness :
  exists (ev : evaluation) (st' : state),
    evaluateModel permissive
      [ [VNum 3; VNum 2; VNum 0; VNum 0; VNum 0];
        [VNum 2; VNum 3; VNum 0; VNum 0; VNum 0];
        [VNum 4; VNum 0; VNum 0; VNum 0; VNum 0] ]
      [1; 0; 1] (Fin (1 # 2)) Demo.st_created = (inr ev, st') /\
    tp (cm ev) + fn (cm ev) = 2 /\ tn (cm ev) + fp (cm ev) = 1.
Proof.
  eexists _, _. split; [vm_compute; reflexivity |].
  destruct (evaluateModel_confusion_rows permissive
              [ [VNum 3; VNum 2; VNum 0; VNum 0; VNum 0];
                [VNum 2; VNum 3; VNum 0; VNum 0; VNum 0];
                [VNum 4; VNum 0; VNum 0; VNum 0; VNum 0] ]
              [1; 0; 1] (Fin (1 # 2)) Demo.st_created _ _
              ltac:(vm_compute; reflexivity) eq_refl)
    as (_ & _ & _ & H1 & H0 & _).
  split; [exact H1 | exact H0].
Defined.

Lemma ratio_unit (a d : Z) :
  0 <= a <= d -> d <> 0 ->
  (0 <= inject_Z a / inject_Z d)%Q /\ (inject_Z a / inject_Z d <= 1)%Q /\
  ((inject_Z a / inject_Z d == 0)%Q <-> a = 0).
Proof.
  intros Ha Hd.
  assert (Hd' : (0 < inject_Z d)%Q).
  { change 0%Q with (inject_Z 0). rewrite <- Zlt_Qlt. lia. }
  split; [| split].
  - apply Qle_shift_div_l; [done |]. rewrite Qmult_0_l.
    change 0%Q with (inject_Z 0). rewrite <- Zle_Qle. lia.
  - apply Qle_shift_div_r; [done |]. rewrite Qmult_1_l.
    rewrite <- Zle_Qle. lia.
  - split.
    + intros H.
      assert (Hdn : ~ (inject_Z d == 0)%Q).
      { intros E. rewrite E in Hd'. exact (Qlt_irrefl _ Hd'). }
      pose proof (Qmult_div_r (inject_Z a) (inject_Z d) Hdn) as Hm.
      rewrite H, Qmult_0_r in Hm. symmetry in Hm.
      by apply (inject_Z_injective a 0).
    + intros ->. unfold Qdiv. apply Qmult_0_l.
Qed.

(** The harmonic mean of two numbers of the unit interval. *)
Lemma harmonic_unit (p r : Q) :
  (0 <= p)%Q -> (p <= 1)%Q -> (0 <= r)%Q -> (r <= 1)%Q ->
  ~ (p + r == 0)%Q ->
  (0 <= 2 * p * r / (p + r))%Q /\ (2 * p * r / (p + r) <= 1)%Q /\
  (2 * p * r / (p + r) == 0 <-> p == 0 \/ r == 0)%Q.
Proof.
  intros Hp0 Hp1 Hr0 Hr1 Hne.
  assert (Hs : (0 < p + r)%Q).
  { apply Qle_lt_or_eq in Hp0 as [Hp | Hp].
    - rewrite <- (Qplus_0_r 0). by apply Qplus_lt_le_compat.
    - apply Qle_lt_or_eq in Hr0 as [Hr | Hr].
      + rewrite Qplus_comm, <- (Qplus_0_r 0).
        apply Qplus_lt_le_compat; [done |]. rewrite <- Hp. apply Qle_refl.
      + exfalso. apply Hne. rewrite <- Hp, <- Hr. reflexivity. }
  assert (Hpr : (0 <= p * r)%Q) by by apply Qmult_le_0_compat.
  assert (H2 : (2 * p * r == p * r + p * r)%Q) by ring.
  split; [| split].
  - apply Qle_shift_div_l; [done |]. rewrite Qmult_0_l, H2.
    rewrite <- (Qplus_0_r 0). by apply Qplus_le_compat.
  - apply Qle_shift_div_r; [done |]. rewrite Qmult_1_l, H2.
    apply Qplus_le_compat.
    + rewrite <- (Qmult_1_r p) at 2.
      rewrite !(Qmult_comm p). by apply Qmult_le_compat_r.
    + rewrite <- (Qmult_1_l r) at 2. by apply Qmult_le_compat_r.
  - split.
    + intros H.
      assert (H' : (2 * p * r == 0)%Q).
      { pose proof (Qmult_div_r (2 * p * r) (p + r) Hne) as Hm.
        rewrite H, Qmult_0_r in Hm. by symmetry. }
      assert (H'' : (p * r == 0)%Q).
      { apply Qmult_integral in H' as [H' | H'].
        - apply Qmult_integral in H' as [H' | H']; [discriminate |].
          rewrite H'. apply Qmult_0_l.
        - rewrite H'. apply Qmult_0_r. }
      by apply Qmult_integral in H''.
    + intros [H | H]; unfold Qdiv; rewrite H; ring.
Qed.

(** X20. The metrics of [evaluateModel] are proportions: whenever the
    call returns, whatever the test data, the probabilities and the
    threshold, precision, recall and F1 are numbers (never NaN or
    infinite) between 0 and 1, and each of the three is 0 exactly when
    there is no true positive. *)
Theorem evaluateModel_metrics_unit (tf : TfBackend)
  (X_test : list (list val)) (y_test : list Z) (threshold : num)
  (st st' : state) (ev : evaluation) :
  evaluateModel tf X_test y_test threshold st = (inr ev, st') ->
  exists p r f : Q,
    precision ev = Fin p /\ recall ev = Fin r /\ f1 ev = Fin f /\
    (0 <= p)%Q /\ (p <= 1)%Q /\ (0 <= r)%Q /\ (r <= 1)%Q /\
    (0 <= f)%Q /\ (f <= 1)%Q /\
    ((p == 0)%Q <-> tp (cm ev) = 0) /\
    ((r == 0)%Q <-> tp (cm ev) = 0) /\
    ((f == 0)%Q <-> tp (cm ev) = 0).
Proof.
  intros Hrun.
  destruct (evaluateModel_inr _ _ _ _ _ _ _ Hrun) as (la & probs & ->).
  set (c := count_loop y_test (map (threshold_pred threshold) probs)
              {| tp := 0; tn := 0; fp := 0; fn := 0 |}).
  destruct (count_loop_nonneg y_test (map (threshold_pred threshold) probs)
              {| tp := 0; tn := 0; fp := 0; fn := 0 |})
    as (Htp & Htn & Hfp & Hfn); [simpl; lia |]. fold c in Htp, Htn, Hfp, Hfn.
  assert (Hp : exists p, (if tp c + fp c =? 0 then of_Z 0
                          else ndiv (of_Z (tp c)) (of_Z (tp c + fp c)))
                         = Fin p /\
                         (0 <= p)%Q /\ (p <= 1)%Q /\ ((p == 0)%Q <-> tp c = 0)).
  { destruct (Z.eqb_spec (tp c + fp c) 0) as [E | E].
    - exists 0%Q. split; [done |]. split; [done |]. split; [done |].
      split; [lia | reflexivity].
    - rewrite ndiv_counts by done. eexists. split; [reflexivity |].
      apply ratio_unit; lia. }
  assert (Hr : exists r, (if tp c + fn c =? 0 then of_Z 0
                          else ndiv (of_Z (tp c)) (of_Z (tp c + fn c)))
                         = Fin r /\
                         (0 <= r)%Q /\ (r <= 1)%Q /\ ((r == 0)%Q <-> tp c = 0)).
  { destruct (Z.eqb_spec (tp c + fn c) 0) as [E | E].
    - exists 0%Q. split; [done |]. split; [done |]. split; [done |].
      split; [lia | reflexivity].
    - rewrite ndiv_counts by done. eexists. split; [reflexivity |].
      apply ratio_unit; lia. }
  destruct Hp as (p & Ep & Hp0 & Hp1 & Hpz).
  destruct Hr as (r & Er & Hr0 & Hr1 & Hrz).
  assert (Hf : exists f,
             (if nzero (nadd (Fin p) (Fin r)) then of_Z 0
              else ndiv (nmul (nmul (of_Z 2) (Fin p)) (Fin r))
                        (nadd (Fin p) (Fin r))) = Fin f /\
             (0 <= f)%Q /\ (f <= 1)%Q /\ ((f == 0)%Q <-> tp c = 0)).
  { cbn [nadd nzero nmul of_Z].
    destruct (Qeq_bool (p + r) 0) eqn:Es.
    - exists 0%Q. apply Qeq_bool_iff in Es.
      assert (Hpe : (p == 0)%Q).
      { apply Qle_antisym; [| done]. rewrite <- Es.
        rewrite <- (Qplus_0_r p) at 1.
        by apply Qplus_le_compat; [apply Qle_refl |]. }
      split_and!; try done. split; [by intros _; apply Hpz | reflexivity].
    - assert (Hne : ~ (p + r == 0)%Q).
      { intros E. apply Qeq_bool_iff in E. congruence. }
      destruct (harmonic_unit p r Hp0 Hp1 Hr0 Hr1 Hne) as (Hf0 & Hf1 & Hfz).
      exists (inject_Z 2 * p * r / (p + r))%Q.
      unfold ndiv. rewrite Es.
      split_and!; try done.
      rewrite Hfz. split; [intros [H | H]; tauto | intros H; left; tauto]. }
  destruct Hf as (f & Ef & Hf0 & Hf1 & Hfz).
  exists p, r, f.
  cbn [precision recall f1 cm score]. fold c. rewrite Ep, Er.
  by split_and!.
Qed.

Lemma evaluateModel_metrics_unit_witness :
  exists (ev : evaluation) (st' : state) (f : Q),
    evaluateModel permissive
      [ [VNum 3; VNum 2; VNum 0; VNum 0; VNum 0];
        [VNum 2; VNum 3; VNum 0; VNum 0; VNum 0];
        [VNum 4; VNum 0; VNum 0; VNum 0; VNum 0] ]
      [1; 0; 1] (Fin (1 # 2)) Demo.st_created = (inr ev, st') /\
    f1 ev = Fin f /\ (0 <= f)%Q /\ (f <= 1)%Q.
Proof.
  eexists _, _.
  destruct (evaluateModel_metrics_unit permissive
              [ [VNum 3; VNum 2; VNum 0; VNum 0; VNum 0];
                [VNum 2; VNum 3; VNum 0; VNum 0; VNum 0];
                [VNum 4; VNum 0; VNum 0; VNum 0; VNum 0] ]
              [1; 0; 1] (Fin (1 # 2)) Demo.st_created _ _
              ltac:(vm_compute; reflexivity))
    as (p & r & f & _ & _ & Hf & _ & _ & _ & _ & H0 & H1 & _).
  exists f. split; [reflexivity |]. split; [exact Hf |].
  split; [exact H0 | exact H1].
Defined.

End Confusion.

Section Persistence.
Import JS Rnn Lifecycle Persist.

Lemma install_eq (a : architecture) (st : state) :
  install a st
  = (length (models st),
     {| models := models st ++ [ {| arch := a; disposed := false |} ];
        currentModel := Some (length (models st));
        forward_log := forward_log st |}).
Proof. reflexivity. Qed.

(** [loadModel] on a file that passes the two validations. *)
Lemma loadModel_complete (tf : TfBackend) (f : model_file) (st : state)
  (topo : architecture) (specs data : list Z) (meta : Loader.tokenizer_meta) :
  modelTopology f = Some topo -> weightSpecs f = Some specs ->
  weightData f = Some data -> file_tokenizerMeta f = Some meta ->
  loadModel tf (Some f) st
  = if tf_loads tf f
    then (inr (length (models st), meta),
          {| models := models st ++ [ {| arch := topo; disposed := false |} ];
             currentModel := Some (length (models st));
             forward_log := forward_log st |})
    else (inl LoadFailed, st).
Proof.
  intros Ht Hs Hd Hm. unfold loadModel. rewrite Ht, Hs, Hd, Hm.
  by destruct (tf_loads tf f).
Qed.

(** X21. [loadModel] fails in one way only and without side effect: it
    throws "Failed to load model from file: ..." exactly when no file is
    given, when the file lacks the topology, the weight specs, the weight
    data or the tokenizer metadata, or when the library rejects it, and
    then the module state is what it was, so the model held before is
    still the current one. When it returns, the model built from the
    file's topology is appended as the current model and the metadata
    returned is the file's. *)
Theorem loadModel_outcomes (tf : TfBackend) (file : option model_file)
  (st : state) :
  let r := loadModel tf file st in
  (fst r = inl LoadFailed <->
   file = None \/
   exists f, file = Some f /\
             (modelTopology f = None \/ weightSpecs f = None \/
              weightData f = None \/ file_tokenizerMeta f = None \/
              tf_loads tf f = false)) /\
  (forall e, fst r = inl e -> e = LoadFailed /\ snd r = st) /\
  (forall id meta, fst r = inr (id, meta) ->
     exists f topo,
       file = Some f /\ modelTopology f = Some topo /\
       file_tokenizerMeta f = Some meta /\
       id = length (models st) /\
       snd r = {| models := models st
                            ++ [ {| arch := topo; disposed := false |} ];
                  currentModel := Some id;
                  forward_log := forward_log st |}).
Proof.
  cbv zeta. destruct file as [f |]; [| simpl; split_and!].
  - destruct (modelTopology f) as [topo |] eqn:Ht;
      [destruct (weightSpecs f) as [specs |] eqn:Hs;
       [destruct (weightData f) as [data |] eqn:Hd;
        [destruct (file_tokenizerMeta f) as [meta |] eqn:Hm |] |] |].
    + rewrite (loadModel_complete tf f st topo specs data meta) by done.
      destruct (tf_loads tf f) eqn:Hl; cbn [fst snd].
      * split_and!; [split; [done |] | done |].
        -- intros [| (f' & [= <-] & H)]; [done |].
           destruct H as [H | [H | [H | [H | H]]]]; congruence.
        -- intros id meta' [= <- <-]. by exists f, topo.
      * split_and!; [| by intros e [= <-] | done].
        split; [intros _; right; exists f; tauto | done].
    + unfold loadModel. rewrite Ht, Hs, Hd, Hm. cbn [fst snd].
      split_and!; [| by intros e [= <-] | done].
      split; [intros _; right; exists f; tauto | done].
    + unfold loadModel. rewrite Ht, Hs, Hd. cbn [fst snd].
      split_and!; [| by intros e [= <-] | done].
      split; [intros _; right; exists f; tauto | done].
    + unfold loadModel. rewrite Ht, Hs. cbn [fst snd].
      split_and!; [| by intros e [= <-] | done].
      split; [intros _; right; exists f; tauto | done].
    + unfold loadModel. rewrite Ht. cbn [fst snd].
      split_and!; [| by intros e [= <-] | done].
      split; [intros _; right; exists f; tauto | done].
  - split; [by left | done].
  - by intros e [= <-].
  - done.
Qed.

(** X22. What [saveModel] returns can be loaded back. A file returned by
    [saveModel] carries the tokenizer metadata it was given and a weight
    array, so [loadModel] on it can fail only for a topology or weight
    specs the library left out, or inside the library; otherwise it
    returns the very metadata that was saved and makes a model of the
    saved topology current, and the model that was saved is not released
    by either call. *)
Theorem saveModel_then_loadModel (tf : TfBackend)
  (tf_save : architecture -> option artifacts)
  (tokenizerMeta : option Loader.tokenizer_meta) (st : state)
  (f : model_file) :
  saveModel tf_save tokenizerMeta st = inr f ->
  exists (m : nat) (meta : Loader.tokenizer_meta) (art : artifacts),
    currentModel st = Some m /\ tokenizerMeta = Some meta /\
    tf_save (default [] (arch <$> models st !! m)) = Some art /\
    file_tokenizerMeta f = Some meta /\
    modelTopology f = art_modelTopology art /\
    weightSpecs f = art_weightSpecs art /\
    weightData f = Some (art_weightData art) /\
    (modelTopology f = None \/ weightSpecs f = None \/
     tf_loads tf f = false ->
     loadModel tf (Some f) st = (inl LoadFailed, st)) /\
    (forall topo, modelTopology f = Some topo -> weightSpecs f <> None ->
                  tf_loads tf f = true ->
       exists st',
         loadModel tf (Some f) st = (inr (length (models st), meta), st') /\
         currentModel st' = Some (length (models st)) /\
         models st' !! length (models st)
         = Some {| arch := topo; disposed := false |} /\
         forall x, models st !! m = Some x -> models st' !! m = Some x).
Proof.
  unfold saveModel. intros H.
  destruct (currentModel st) as [m |] eqn:Hm; [| done].
  destruct tokenizerMeta as [meta |]; [| done].
  destruct (tf_save _) as [art |] eqn:Hs; [| done].
  injection H as <-. exists m, meta, art.
  cbn [file_tokenizerMeta modelTopology weightSpecs weightData].
  split_and!; try done.
  - intros H. unfold loadModel.
    cbn [file_tokenizerMeta modelTopology weightSpecs weightData].
    destruct (art_modelTopology art); [| done].
    destruct (art_weightSpecs art); [| done].
    destruct H as [| [| ->]]; done.
  - intros topo Ht Hw Hl.
    destruct (art_weightSpecs art) as [specs |] eqn:Hspecs; [| done].
    eexists. rewrite (loadModel_complete tf _ st topo specs
                        (art_weightData art) meta) by done.
    rewrite Hl. split; [reflexivity |]. cbn [currentModel models].
    split; [done |].
    split; [by rewrite lookup_app_r, Nat.sub_diag by lia |].
    intros x E. by apply lookup_app_l_Some.
Qed.

Lemma saveModel_then_loadModel_witness :
  let tf_save := fun a : architecture =>
    Some {| art_modelTopology := Some a; art_weightSpecs := Some [];
            art_weightData := [1; 2] |} in
  exists f : model_file,
    saveModel tf_save (file_tokenizerMeta Demo.file0) Demo.st_created = inr f /\
    file_tokenizerMeta f = file_tokenizerMeta Demo.file0.
Proof.
  cbv zeta. eexists. split; [reflexivity |].
  destruct (saveModel_then_loadModel permissive
              (fun a : architecture =>
                 Some {| art_modelTopology := Some a; art_weightSpecs := Some [];
                         art_weightData := [1; 2] |})
              (file_tokenizerMeta Demo.file0) Demo.st_created _ eq_refl)
    as (m & meta & art & _ & Hmeta & _ & Hf & _).
  rewrite Hf. symmetry. exact Hmeta.
Defined.

(** X23. After [disposeModel] the module holds no model: a second
    [disposeModel] changes nothing, and [predictText], [evaluateModel] and
    [saveModel] all throw their no-model error without touching the
    state, [predictText] also for an empty text, for which it would
    otherwise return [{ prob: NaN, pred: null }]. No model is removed
    from the table and no forward pass is logged. *)
Theorem disposeModel_then_not_ready (tf : TfBackend)
  (tf_save : architecture -> option artifacts) (st : state) :
  let st' := disposeModel st in
  currentModel st' = None /\
  disposeModel st' = st' /\
  length (models st') = length (models st) /\
  forward_log st' = forward_log st /\
  (forall text seqLen tk threshold,
     predictText tf text seqLen tk threshold st' = (inl NotReady, st')) /\
  (forall X_test y_test threshold,
     evaluateModel tf X_test y_test threshold st' = (inl NotReady, st')) /\
  (forall meta, saveModel tf_save meta st' = inl NoModelToSave).
Proof.
  cbv zeta. unfold disposeModel, release_current.
  destruct (currentModel st) as [m |] eqn:Hm.
  - cbn [currentModel models forward_log]. split_and!; try done.
    unfold dispose. by rewrite length_alter.
  - rewrite Hm. split_and!; try done.
    + intros. unfold predictText. by rewrite Hm.
    + intros. unfold evaluateModel. by rewrite Hm.
    + intros. unfold saveModel. by rewrite Hm.
Qed.

End Persistence.

(* ===================================================================== *)
(** ** app.js: the handlers that call the tokenizer and the model *)
(* ===================================================================== *)

Section Page.
Import JS Rnn Lifecycle.

(** What a [prepareTensors] that returns gives as tokenizer and as
    metadata. *)
Lemma prepareTensors_inr (tf : Tf.tensors) (texts labels : Loader.loc)
  (seqLen maxVocab : Z) (removeStopwords : bool) (testSplit : Q)
  (h h' : Loader.heap) (out : Loader.prepared) :
  Loader.prepareTensors tf texts labels seqLen maxVocab removeStopwords
    testSplit h = (inr out, h') ->
  exists ts' : list val,
    Loader.tokenizer out
    = Tokenizer.fitOnTexts (Tokenizer.constructor maxVocab removeStopwords)
        ts' /\
    Loader.tokenizerMeta out
    = {| Loader.meta_wordIndex := Tokenizer.wordIndex (Loader.tokenizer out);
         Loader.meta_indexWord := Tokenizer.indexWord (Loader.tokenizer out);
         Loader.meta_vocabSize := Tokenizer.vocabSize (Loader.tokenizer out);
         Loader.meta_seqLen := seqLen;
         Loader.meta_removeStopwords :=
           Tokenizer.removeStopwords (Loader.tokenizer out);
         Loader.meta_maxVocab := maxVocab |}.
Proof.
  unfold Loader.prepareTensors.
  destruct (h !! texts) as [ts |]; [| done].
  destruct (h !! labels) as [ls |]; [| done].
  destruct (_ || _); [done |]. destruct (negb (_ =? _)%nat); [done |].
  unfold Tokenizer.textsToSequences. rewrite fitOnTexts_fitted. cbn [negb].
  repeat match goal with
         | |- context [if negb ?b then _ else _] =>
             destruct b; cbn [negb]; [| done]
         end.
  intros [= <- _]. eexists. by split.
Qed.

Lemma normalize_rebuilt (tk : Tokenizer.t) (meta : Loader.tokenizer_meta)
  (text : val) :
  Loader.meta_removeStopwords meta = Tokenizer.removeStopwords tk ->
  App._normalize (App.rebuild meta) text = Tokenizer._normalize tk text.
Proof.
  intros H. unfold App._normalize, Tokenizer._normalize, App.rebuild.
  cbn [App.lt_removeStopwords]. rewrite H. reflexivity.
Qed.

Lemma textsToSequences_rebuilt (tk : Tokenizer.t)
  (meta : Loader.tokenizer_meta) (texts : list val) :
  Loader.meta_removeStopwords meta = Tokenizer.removeStopwords tk ->
  Loader.meta_wordIndex meta = Tokenizer.wordIndex tk ->
  App.textsToSequences (App.rebuild meta) texts
  = map (Tokenizer.encode_text tk) texts.
Proof.
  intros Hr Hw. unfold App.textsToSequences. apply map_ext. intros text.
  rewrite (normalize_rebuilt tk) by done.
  unfold Tokenizer.encode_text. cbn [App.rebuild App.lt_wordIndex].
  by rewrite Hw.
Qed.

(** X24. The tokenizer that the load handler of the page rebuilds from
    saved metadata is the tokenizer that was trained: for the metadata
    and the tokenizer of one [prepareTensors] that returned, the rebuilt
    [textsToSequences] returns for every list of texts the sequences of
    the original, its [padSequences] pads like the original (to the saved
    [seqLen] by default), and [predictText] gives the same result and
    leaves the same state with either. *)
Theorem rebuilt_tokenizer_agrees (tft : Tf.tensors)
  (texts labels : Loader.loc) (seqLen maxVocab : Z) (removeStopwords : bool)
  (testSplit : Q) (h h' : Loader.heap) (out : Loader.prepared) :
  Loader.prepareTensors tft texts labels seqLen maxVocab removeStopwords
    testSplit h = (inr out, h') ->
  let lt := App.rebuild (Loader.tokenizerMeta out) in
  (forall ts, Tokenizer.textsToSequences (Loader.tokenizer out) ts
              = inr (App.textsToSequences lt ts)) /\
  (forall seqs n, App.padSequences lt seqs (Some n)
                  = Tokenizer.padSequences seqs n) /\
  (forall seqs, App.padSequences lt seqs None
                = Tokenizer.padSequences seqs seqLen) /\
  (forall tf text threshold st,
     App.predictText tf text (Loader.meta_seqLen (Loader.tokenizerMeta out))
       (App.Loaded lt) threshold st
     = Rnn.predictText tf text seqLen (Loader.tokenizer out) threshold st).
Proof.
  intros H.
  destruct (prepareTensors_inr _ _ _ _ _ _ _ _ _ _ H) as (ts' & Htk & Hmeta).
  cbv zeta.
  assert (Hseq : forall ts,
             App.textsToSequences (App.rebuild (Loader.tokenizerMeta out)) ts
             = map (Tokenizer.encode_text (Loader.tokenizer out)) ts).
  { intros ts. apply textsToSequences_rebuilt; by rewrite Hmeta. }
  assert (Hfit : Tokenizer._fitted (Loader.tokenizer out) = true).
  { rewrite Htk. apply fitOnTexts_fitted. }
  split_and!.
  - intros ts. unfold Tokenizer.textsToSequences. by rewrite Hfit, Hseq.
  - done.
  - intros seqs. by rewrite Hmeta.
  - intros tf text threshold st. unfold App.predictText, Rnn.predictText.
    destruct (currentModel st); [| done].
    destruct (negb (truthy text)); [done |].
    cbn [App.obj_textsToSequences App.obj_padSequences].
    unfold Tokenizer.textsToSequences. rewrite Hfit, Hseq. cbn [negb].
    by rewrite Hmeta.
Qed.

Lemma rebuilt_tokenizer_agrees_witness :
  exists (out : Loader.prepared) (h' : Loader.heap),
    Loader.prepareTensors Tf.strict 0%nat 1%nat 4 100 true (1 # 5) Demo.heap0
    = (inr out, h') /\
    Tokenizer.textsToSequences (Loader.tokenizer out) [VStr "Not the food"]
    = inr (App.textsToSequences (App.rebuild (Loader.tokenizerMeta out))
             [VStr "Not the food"]).
Proof.
  assert (Hrun : exists out h',
             Loader.prepareTensors Tf.strict 0%nat 1%nat 4 100 true (1 # 5)
               Demo.heap0 = (inr out, h')).
  { eexists _, _. vm_compute. reflexivity. }
  destruct Hrun as (out & h' & Hrun). exists out, h'.
  split; [exact Hrun |].
  exact (proj1 (rebuilt_tokenizer_agrees Tf.strict 0%nat 1%nat 4 100 true
                  (1 # 5) Demo.heap0 h' out Hrun) [VStr "Not the food"]).
Defined.







(** X26. The model the train button builds. For the metadata of a
    [prepareTensors] that returned, the vocabulary size is at least 2,
    so after [disposeModel] the handler's [createModel] throws
    "vocabSize and seqLen are required." exactly when [seqLen] is 0, and
    any failure leaves the page without a current model. When it
    returns, the new current model is the embedding of that vocabulary
    size and [seqLen] with 64 dimensions, a bidirectional GRU of 128
    units with dropout 0.2 and one sigmoid unit, and the single active
    model invariant is kept. *)
Theorem onTrainClick_model_built (tf : TfBackend) (tft : Tf.tensors)
  (texts labels : Loader.loc) (seqLen maxVocab : Z) (removeStopwords : bool)
  (testSplit : Q) (h h' : Loader.heap) (out : Loader.prepared) (st : state) :
  Loader.prepareTensors tft texts labels seqLen maxVocab removeStopwords
    testSplit h = (inr out, h') ->
  let r := App.onTrainClick_model tf (Loader.tokenizerMeta out) st in
  exists v : Z,
    Loader.meta_vocabSize (Loader.tokenizerMeta out) = Some v /\ 2 <= v /\
    let a := [ Embedding (VNum v) (VNum 64) (VNum seqLen);
               Bidirectional (GRU (VNum 128) (1 # 5));
               Dense 1 ] in
    (fst r = inl Required <-> seqLen = 0) /\
    (fst r = inl LibraryError <-> seqLen <> 0 /\ tf_accepts tf a = false) /\
    (forall e, fst r = inl e -> currentModel (snd r) = None) /\
    (forall id, fst r = inr id ->
       currentModel (snd r) = Some id /\
       models (snd r) !! id = Some {| arch := a; disposed := false |}) /\
    (single_live st -> single_live (snd r)).
Proof.
  intros H.
  destruct (prepareTensors_inr _ _ _ _ _ _ _ _ _ _ H) as (ts' & Htk & Hmeta).
  destruct (fresh_fit maxVocab removeStopwords ts') as (_ & _ & _ & _ & Hv).
  cbv zeta in Hv. rewrite <- Htk in Hv.
  exists (2 + Z.of_nat (length (Tokenizer.top_words
                                  (Tokenizer.constructor maxVocab
                                     removeStopwords) ts'))).
  rewrite Hmeta. cbn [Loader.meta_vocabSize].
  split; [done |]. split; [lia |].
  set (v := 2 + Z.of_nat _) in *. cbv zeta.
  set (a := [ Embedding (VNum v) (VNum 64) (VNum seqLen);
              Bidirectional (GRU (VNum 128) (1 # 5)); Dense 1 ]).
  set (st0 := disposeModel st).
  assert (Hcur : currentModel st0 = None).
  { unfold st0, disposeModel, release_current.
    by destruct (currentModel st) eqn:E. }
  assert (Hr : App.onTrainClick_model tf
                 {| Loader.meta_wordIndex :=
                      Tokenizer.wordIndex (Loader.tokenizer out);
                    Loader.meta_indexWord :=
                      Tokenizer.indexWord (Loader.tokenizer out);
                    Loader.meta_vocabSize :=
                      Tokenizer.vocabSize (Loader.tokenizer out);
                    Loader.meta_seqLen := seqLen;
                    Loader.meta_removeStopwords :=
                      Tokenizer.removeStopwords (Loader.tokenizer out);
                    Loader.meta_maxVocab := maxVocab |} st
               = if seqLen =? 0 then (inl Required, st0)
                 else if tf_accepts tf a
                 then (inr (length (models st0)),
                       {| models := models st0
                                    ++ [ {| arch := a; disposed := false |} ];
                          currentModel := Some (length (models st0));
                          forward_log := forward_log st0 |})
                 else (inl LibraryError, st0)).
  { unfold App.onTrainClick_model, createModel, App.train_args.
    cbn [vocabSize Rnn.seqLen Loader.meta_vocabSize Loader.meta_seqLen].
    rewrite Hv. cbn [App.num_val truthy].
    assert (Hvz : (v =? 0) = false) by (apply Z.eqb_neq; unfold v; lia).
    rewrite Hvz. cbn [negb orb]. fold st0.
    destruct (seqLen =? 0); cbn [negb]; [done |].
    unfold release_current. rewrite Hcur.
    change (layers_of _) with a.
    by destruct (tf_accepts tf a). }
  split_and!.
  - rewrite Hr. destruct (Z.eqb_spec seqLen 0) as [Hz | Hz]; [done |].
    by destruct (tf_accepts tf a).
  - rewrite Hr. destruct (Z.eqb_spec seqLen 0) as [Hz | Hz].
    + split; [done |]. by intros [? _].
    + destruct (tf_accepts tf a); cbn [fst]; [| done].
      split; [done |]. by intros [_ ?].
  - rewrite Hr. intros e. destruct (seqLen =? 0); [done |].
    by destruct (tf_accepts tf a).
  - rewrite Hr. intros id. destruct (seqLen =? 0); [done |].
    destruct (tf_accepts tf a); [| done]. intros [= <-].
    cbn [snd currentModel models]. split; [done |].
    by rewrite lookup_app_r, Nat.sub_diag by lia.
  - intros Hs. unfold App.onTrainClick_model.
    by apply createModel_single_live, disposeModel_single_live.
Qed.

Lemma onTrainClick_model_built_witness :
  exists (out : Loader.prepared) (h' : Loader.heap) (v : Z),
    Loader.prepareTensors Tf.strict 0%nat 1%nat 4 100 false (1 # 5) Demo.heap0
    = (inr out, h') /\
    Loader.meta_vocabSize (Loader.tokenizerMeta out) = Some v /\ 2 <= v.
Proof.
  assert (Hrun : exists out h',
             Loader.prepareTensors Tf.strict 0%nat 1%nat 4 100 false (1 # 5)
               Demo.heap0 = (inr out, h')).
  { eexists _, _. vm_compute. reflexivity. }
  destruct Hrun as (out & h' & Hrun).
  destruct (onTrainClick_model_built permissive Tf.strict 0%nat 1%nat 4 100
              false (1 # 5) Demo.heap0 h' out initial Hrun)
    as (v & Hv & Hv2 & _).
  exists out, h', v. split; [exact Hrun |]. split; [exact Hv | exact Hv2].
Defined.

End Page.

(* ===================================================================== *)
(** ** yandex-scraper.js: analysis and recommendation *)
(* ===================================================================== *)

Section Recommendation.
Import JS Rnn Scraper.



Lemma filter_none {A} (f : A -> bool) (l : list A) :
  Forall (fun x => f x = false) l -> List.filter f l = [].
Proof. induction 1 as [|x l Hx _ IH]; simpl; [done |]. by rewrite Hx. Qed.

(** Without a model the page's analyzer throws on every comment. *)
Lemma analyze_without_model (tf : TfBackend) (o : App.tokenizer_obj)
  (meta : Loader.tokenizer_meta) (comments : list comment) (st : state) :
  currentModel st = None ->
  analyzeCommentsSentiment (App.sentimentAnalyzer tf o meta) comments st
  = ((fun c => {| a_comment := c; a_sentiment := Unknown;
                  a_confidence := Some (Fin 0);
                  a_prediction := VNum (-1) |}) <$> comments, st).
Proof.
  intros Hm. induction comments as [|c comments IH]; [done |].
  cbn [analyzeCommentsSentiment]. unfold analyze_one at 1.
  unfold App.sentimentAnalyzer at 1, App.predictText. rewrite Hm, IH.
  done.
Qed.

Lemma percentage_zero (total : Z) :
  0 < total -> percentage 0 total = Fin 0.
Proof.
  intros Ht. unfold percentage, ndiv, of_Z. rewrite Qeq_bool_inject_Z.
  destruct (Z.eqb_spec total 0) as [-> |]; [lia |].
  cbn [nround].
  assert (H0 : to_double (inject_Z 0 / inject_Z total) = 0%Q).
  { unfold to_double.
    assert (E : (inject_Z 0 / inject_Z total ?= 0)%Q = Eq).
    { apply Qeq_alt. unfold Qdiv. apply Qmult_0_l. }
    by rewrite E. }
  rewrite H0. cbn [nmul nround]. reflexivity.
Qed.

(** X28. Without a model there is no verdict on the reviews, yet a
    recommendation: when no model is current, the analyzer of the page
    throws on every comment, so [analyzeCommentsSentiment] marks every
    comment "unknown" and leaves the module state untouched, and
    [generateRecommendation] on that result counts no positive and no
    negative comment and answers "Strongly Not Recommended", with 0
    percent positive for a non-empty list of comments and NaN for none. *)
Theorem analysis_without_model (tf : TfBackend) (o : App.tokenizer_obj)
  (meta : Loader.tokenizer_meta) (comments : list comment) (st : state) :
  currentModel st = None ->
  let r := analyzeCommentsSentiment (App.sentimentAnalyzer tf o meta)
             comments st in
  let g := generateRecommendation r.1 in
  r.2 = st /\
  length r.1 = length comments /\
  Forall (fun a => a_sentiment a = Unknown) r.1 /\
  g.1 = strongly_not_recommended /\
  recommendationText g.1 = "Strongly Not Recommended"%string /\
  totalComments g.2 = Z.of_nat (length comments) /\
  positiveComments g.2 = 0 /\ negativeComments g.2 = 0 /\
  (comments <> [] ->
   positivePercentage g.2 = Fin 0 /\ negativePercentage g.2 = Fin 0) /\
  (comments = [] ->
   positivePercentage g.2 = NaN /\ negativePercentage g.2 = NaN).
Proof.
  intros Hm. cbv zeta. rewrite (analyze_without_model tf o meta comments st Hm).
  cbn [fst snd]. set (l := _ <$> comments).
  assert (Hl : length l = length comments) by (unfold l; by rewrite length_fmap).
  assert (Hu : Forall (fun a => a_sentiment a = Unknown) l).
  { unfold l. by apply Forall_fmap, Forall_forall. }
  assert (Hp : List.filter (has_sentiment Positive) l = []).
  { apply filter_none. eapply Forall_impl; [exact Hu |].
    intros a Ha. unfold has_sentiment. by rewrite Ha. }
  assert (Hn : List.filter (has_sentiment Negative) l = []).
  { apply filter_none. eapply Forall_impl; [exact Hu |].
    intros a Ha. unfold has_sentiment. by rewrite Ha. }
  unfold generateRecommendation. rewrite Hp, Hn, Hl.
  cbn [length fst snd totalComments positiveComments negativeComments
       positivePercentage negativePercentage].
  change (Z.of_nat 0) with 0.
  destruct comments as [|c comments].
  - split_and!; try done.
  - rewrite percentage_zero by (simpl; lia).
    split_and!; try done.
Qed.

Lemma analysis_without_model_witness :
  let c := {| c_text := VStr "Great place"; c_rating := VNum 5;
              c_author := VStr "A"; c_date := VUndef;
              c_originalText := VStr "Great place";
              c_language := VStr "en" |} in
  (generateRecommendation
     (analyzeCommentsSentiment
        (App.sentimentAnalyzer permissive (App.Trained Demo.tk)
           (Loader.Build_tokenizer_meta ∅ ∅ None 5 false 100))
        [c; c] initial).1).1
  = strongly_not_recommended.
Proof.
  cbv zeta.
  exact (proj1 (proj2 (proj2 (proj2
           (analysis_without_model permissive (App.Trained Demo.tk)
              (Loader.Build_tokenizer_meta ∅ ∅ None 5 false 100)
              _ initial eq_refl))))).
Defined.

(** X29. With a model, a comment without text counts as a negative
    review: for a comment whose text is empty or missing the analyzer of
    the page returns [{ prob: NaN, pred: null }] without running the
    model, and [analyzeCommentsSentiment] records the comment as
    "negative" with confidence NaN and prediction null. *)
Theorem empty_comment_negative (tf : TfBackend) (o : App.tokenizer_obj)
  (meta : Loader.tokenizer_meta) (c : comment) (st : state) (m : nat) :
  currentModel st = Some m ->
  truthy (c_text c) = false ->
  analyzeCommentsSentiment (App.sentimentAnalyzer tf o meta) [c] st
  = ([ {| a_comment := c; a_sentiment := Negative;
          a_confidence := Some NaN; a_prediction := VNull |} ], st) /\
  (generateRecommendation
     (analyzeCommentsSentiment (App.sentimentAnalyzer tf o meta) [c] st).1).1
  = strongly_not_recommended.
Proof.
  intros Hm Ht.
  assert (H : analyzeCommentsSentiment (App.sentimentAnalyzer tf o meta)
                [c] st
              = ([ {| a_comment := c; a_sentiment := Negative;
                      a_confidence := Some NaN; a_prediction := VNull |} ],
                 st)).
  { cbn [analyzeCommentsSentiment]. unfold analyze_one.
    unfold App.sentimentAnalyzer, App.predictText. by rewrite Hm, Ht. }
  split; [done |]. rewrite H. cbn [fst].
  unfold generateRecommendation. cbn [List.filter has_sentiment a_sentiment length].
  change (Z.of_nat 0) with 0. change (Z.of_nat 1) with 1.
  by rewrite percentage_zero by lia.
Qed.

Lemma empty_comment_negative_witness :
  let c := {| c_text := VStr ""; c_rating := VNum 5;
              c_author := VStr "A"; c_date := VUndef;
              c_originalText := VStr "";
              c_language := VStr "en" |} in
  analyzeCommentsSentiment
    (App.sentimentAnalyzer permissive (App.Trained Demo.tk)
       (Loader.Build_tokenizer_meta ∅ ∅ None 5 false 100))
    [c] Demo.st_created
  = ([ {| a_comment := c; a_sentiment := Negative;
          a_confidence := Some NaN; a_prediction := VNull |} ],
     Demo.st_created).
Proof.
  cbv zeta.
  exact (proj1 (empty_comment_negative permissive (App.Trained Demo.tk)
                  (Loader.Build_tokenizer_meta ∅ ∅ None 5 false 100)
                  {| c_text := VStr ""; c_rating := VNum 5;
                     c_author := VStr "A"; c_date := VUndef;
                     c_originalText := VStr "";
                     c_language := VStr "en" |}
                  Demo.st_created 0%nat eq_refl eq_refl)).
Defined.

End Recommendation.
